(** * The game client of [src/game.js], embedded in Rocq

    [GameClient] is a browser class: one mutable object, driven by
    callbacks (socket, keyboard, resize, image decoding), speaking to a
    canvas, the DOM and a WebSocket.  The embedding keeps that shape:

    - the fields of [this] are a record [client];
    - a method is a function in a small monad [M] that threads the client,
      appends the calls made on the outside world (canvas, DOM, socket,
      console, image loads) to a trace of [effect]s, and may stop with a
      JavaScript exception, the client being left as it was at the
      [throw];
    - what arrives from the server is a JSON [value], and the JavaScript
      operators the methods apply to it (property access, truthiness,
      [ToNumber], [ToPropertyKey], [Object.assign], ...) are written out on
      that type.

    Numbers are the rationals extended with [NaN] and the two infinities:
    rounding of IEEE doubles and the sign of zero are not represented.
    An operation on doubles whose exact result is a double returns it, so
    what is computed here is what the program computes wherever the
    results are doubles ([Num.double]); a property that would fail by a
    rounding is stated for results that are not rounded ([unrounded]).
    Strings are strings of bytes.  The page is taken to have the elements
    the client looks up by id.  Where an operator leaves what is written
    out here (a string or an array used as a number, a property inherited
    from a prototype, ...) the computation ends in [Unmodelled] rather
    than in an invented answer. *)

From Stdlib Require Import ZArith QArith Qround Qminmax.
From Stdlib Require Import String Ascii List Bool Lia Lqa.
From Stdlib Require Import DecimalString Finite.
Import ListNotations.

Open Scope string_scope.

Set Warnings "-register-all".

(** ** Numbers *)

Module Num.

Inductive num : Type :=
| NaN
| NegInf
| Fin (q : Q)
| PosInf.

Definition zero : num := Fin 0.
Definition of_Z (z : Z) : num := Fin (inject_Z z).

Definition neg (a : num) : num :=
  match a with
  | NaN => NaN
  | NegInf => PosInf
  | Fin q => Fin (Qred (- q))
  | PosInf => NegInf
  end.

(** [a + b] *)
Definition add (a b : num) : num :=
  match a, b with
  | NaN, _ | _, NaN => NaN
  | Fin x, Fin y => Fin (Qred (x + y))
  | PosInf, NegInf | NegInf, PosInf => NaN
  | PosInf, _ | _, PosInf => PosInf
  | NegInf, _ | _, NegInf => NegInf
  end.

(** [a - b] *)
Definition sub (a b : num) : num := add a (neg b).

(** [a / b]; a zero divisor is taken as [+0]. *)
Definition div (a b : num) : num :=
  match a, b with
  | NaN, _ | _, NaN => NaN
  | Fin x, Fin y =>
      if Qeq_bool y 0 then
        if Qeq_bool x 0 then NaN
        else if Qle_bool 0 x then PosInf else NegInf
      else Fin (Qred (x / y))
  | Fin _, _ => Fin 0
  | PosInf, Fin y => if Qle_bool 0 y then PosInf else NegInf
  | NegInf, Fin y => if Qle_bool 0 y then NegInf else PosInf
  | _, _ => NaN
  end.

(** [a <= b] *)
Definition le (a b : num) : bool :=
  match a, b with
  | NaN, _ | _, NaN => false
  | NegInf, _ => true
  | _, PosInf => true
  | Fin x, Fin y => Qle_bool x y
  | _, _ => false
  end.

(** [a >= b] *)
Definition ge (a b : num) : bool := le b a.

(** [Math.max(a, b)] *)
Definition max (a b : num) : num :=
  match a, b with
  | NaN, _ | _, NaN => NaN
  | _, _ => if le a b then b else a
  end.

(** [Math.min(a, b)] *)
Definition min (a b : num) : num :=
  match a, b with
  | NaN, _ | _, NaN => NaN
  | _, _ => if le a b then a else b
  end.

(** [Math.round(a)]: the integer nearest to [a], ties upwards. *)
Definition round (a : num) : num :=
  match a with
  | Fin q => Fin (inject_Z (Qfloor (q + (1 # 2))))
  | _ => a
  end.

(** The odd factor of a positive number. *)
Fixpoint odd_part (p : positive) : positive :=
  match p with
  | xO p' => odd_part p'
  | _ => p
  end.

(** The rationals that are finite doubles: [m * 2^e] with [|m| < 2^53]
    and [-1074 <= e <= 971].  The numbers of the program are doubles, and
    an operation on doubles whose exact result is a double returns that
    result: where [double] holds of the result computed here, it is the
    number the program computes. *)
Definition double (q : Q) : bool :=
  let r := Qred q in
  match Qden r with
  | 1%positive =>
      match Qnum r with
      | Z0 => true
      | Zpos n | Zneg n =>
          (Z.pos (odd_part n) <? 2 ^ 53)%Z && (Z.pos n <? 2 ^ 1024)%Z
      end
  | d =>
      Pos.eqb (odd_part d) 1 && (Z.log2 (Z.pos d) <=? 1074)%Z &&
      (Z.abs (Qnum r) <? 2 ^ 53)%Z
  end.

End Num.

Export Num (num).
Abbreviation NaN := Num.NaN.
Abbreviation Fin := Num.Fin.

(** ** JSON values and the operators applied to them *)

Inductive value : Type :=
| VUndefined
| VNull
| VBool (b : bool)
| VNum (n : num)
| VStr (s : string)
| VArr (l : list value)
| VObj (o : list (string * value)).

Inductive error : Type :=
| TypeError
| SyntaxError
| InvalidStateError.

(** How an evaluation ends. *)
Inductive outcome (A : Type) : Type :=
| Ok (a : A)
| Throw (e : error)
| Unmodelled.

Arguments Ok {A} a.
Arguments Throw {A} e.
Arguments Unmodelled {A}.

Module JS.

(** *** Objects: properties in insertion order

    The first binding of a key in the list is the property; bindings it
    shadows are invisible to every operation below.  (The rule that
    integer-like keys are enumerated first is not represented.) *)

Definition obj (A : Type) : Type := list (string * A).

Fixpoint lookup {A} (k : string) (o : obj A) : option A :=
  match o with
  | [] => None
  | (k', v) :: r => if String.eqb k k' then Some v else lookup k r
  end.

Fixpoint remove {A} (k : string) (o : obj A) : obj A :=
  match o with
  | [] => []
  | (k', v) :: r =>
      if String.eqb k k' then remove k r else (k', v) :: remove k r
  end.

(** [o[k] = v] on an object that has, or has not, the property. *)
Fixpoint update {A} (k : string) (v : A) (o : obj A) : obj A :=
  match o with
  | [] => [(k, v)]
  | (k', v') :: r =>
      if String.eqb k k' then (k, v) :: r else (k', v') :: update k v r
  end.

Fixpoint mem (k : string) (l : list string) : bool :=
  match l with
  | [] => false
  | k' :: r => String.eqb k k' || mem k r
  end.

(** The own properties, each key once, in order. *)
Fixpoint entries_from {A} (seen : list string) (o : obj A) : obj A :=
  match o with
  | [] => []
  | (k, v) :: r =>
      if mem k seen then entries_from seen r
      else (k, v) :: entries_from (k :: seen) r
  end.

Definition entries {A} (o : obj A) : obj A := entries_from [] o.

(** The string-keyed properties every plain object inherits from
    [Object.prototype]. *)
Definition inherited : list string :=
  [ "constructor"; "__defineGetter__"; "__defineSetter__"; "hasOwnProperty";
    "__lookupGetter__"; "__lookupSetter__"; "isPrototypeOf";
    "propertyIsEnumerable"; "toString"; "valueOf"; "__proto__";
    "toLocaleString" ].

(** [o[k]] on a plain object whose own properties have type [A]:
    [Ok None] is [undefined]. *)
Definition own {A} (o : obj A) (k : string) : outcome (option A) :=
  match lookup k o with
  | Some v => Ok (Some v)
  | None => if mem k inherited then Unmodelled else Ok None
  end.

(** Whether [o[k]] is truthy, on a plain object whose own properties are
    objects: an own property is, and so is every property inherited from
    [Object.prototype] (a function, or for [__proto__] the prototype). *)
Definition present {A} (o : obj A) (k : string) : bool :=
  match lookup k o with
  | Some _ => true
  | None => mem k inherited
  end.

(** [o[k] = v] on a plain object ([__proto__] is a setter). *)
Definition put {A} (o : obj A) (k : string) (v : A) : outcome (obj A) :=
  if String.eqb k "__proto__" then Unmodelled else Ok (update k v o).

(** *** Conversions *)

Definition truthy (v : value) : bool :=
  match v with
  | VUndefined | VNull => false
  | VBool b => b
  | VNum (Fin q) => negb (Qeq_bool q 0)
  | VNum NaN => false
  | VNum _ => true
  | VStr s => negb (String.eqb s "")
  | VArr _ | VObj _ => true
  end.

(** [ToPrimitive] of a plain object made by [JSON.parse]: the inherited
    [toString] gives ["[object Object]"], unless an own property
    [toString], which is no function, hides it: then no conversion is
    left and a [TypeError] is raised. *)
Definition object_to_string {A} (o : list (string * A)) : outcome string :=
  match lookup "toString" o with
  | Some _ => Throw TypeError
  | None => Ok "[object Object]"
  end.

(** [ToNumber]; parsing a string as a number is not written out. *)
Definition to_number (v : value) : outcome num :=
  match v with
  | VUndefined => Ok NaN
  | VNull => Ok Num.zero
  | VBool b => Ok (if b then Num.of_Z 1 else Num.zero)
  | VNum n => Ok n
  | VObj o =>
      match object_to_string o with
      | Ok _ => Ok NaN
      | Throw e => Throw e
      | Unmodelled => Unmodelled
      end
  | VStr _ | VArr _ => Unmodelled
  end.

Definition string_of_Z (z : Z) : string := NilZero.string_of_int (Z.to_int z).
Definition string_of_nat (n : nat) : string := string_of_Z (Z.of_nat n).

(** [ToPropertyKey], which on these values is [ToString].  Of the
    numbers, the integers below 2^53 in magnitude are printed: each is a
    double, and its shortest decimal form is the integer written out. *)
Definition to_key (v : value) : outcome string :=
  match v with
  | VUndefined => Ok "undefined"
  | VNull => Ok "null"
  | VBool b => Ok (if b then "true" else "false")
  | VNum NaN => Ok "NaN"
  | VNum Num.PosInf => Ok "Infinity"
  | VNum Num.NegInf => Ok "-Infinity"
  | VNum (Fin q) =>
      let r := Qred q in
      if Pos.eqb (Qden r) 1 && (Z.abs (Qnum r) <? 2 ^ 53)%Z
      then Ok (string_of_Z (Qnum r)) else Unmodelled
  | VStr s => Ok s
  | VObj o => object_to_string o
  | VArr _ => Unmodelled
  end.

(** An array index written canonically (["0"], ["17"], not ["017"]). *)
Definition array_index (k : string) : option N :=
  match NilEmpty.uint_of_string k with
  | Some u =>
      let n := N.of_uint u in
      if String.eqb (string_of_Z (Z.of_N n)) k then Some n else None
  | None => None
  end.

Fixpoint string_chars (s : string) : list value :=
  match s with
  | EmptyString => []
  | String c r => VStr (String c EmptyString) :: string_chars r
  end.

Fixpoint indexed_from {A} (i : nat) (l : list A) : list (string * A) :=
  match l with
  | [] => []
  | x :: r => (string_of_nat i, x) :: indexed_from (S i) r
  end.

(** [v[k]] for a JSON value [v]. *)
Definition get (v : value) (k : string) : outcome value :=
  match v with
  | VUndefined | VNull => Throw TypeError
  | VObj o =>
      match own o k with
      | Ok (Some x) => Ok x
      | Ok None => Ok VUndefined
      | Throw e => Throw e
      | Unmodelled => Unmodelled
      end
  | VArr l =>
      match array_index k with
      | Some n =>
          if (n <? N.of_nat (length l))%N
          then Ok (nth (N.to_nat n) l VUndefined) else Ok VUndefined
      | None =>
          if String.eqb k "length"
          then Ok (VNum (Num.of_Z (Z.of_nat (length l)))) else Unmodelled
      end
  | VStr s =>
      match array_index k with
      | Some n =>
          if (n <? N.of_nat (String.length s))%N
          then Ok (nth (N.to_nat n) (string_chars s) VUndefined)
          else Ok VUndefined
      | None =>
          if String.eqb k "length"
          then Ok (VNum (Num.of_Z (Z.of_nat (String.length s))))
          else Unmodelled
      end
  | VBool _ | VNum _ => Unmodelled
  end.

(** [v[k] = x] in strict code (a class body is strict): the new [v]. *)
Definition set (v : value) (k : string) (x : value) : outcome value :=
  match v with
  | VUndefined | VNull => Throw TypeError
  | VObj o =>
      match put o k x with
      | Ok o' => Ok (VObj o')
      | Throw e => Throw e
      | Unmodelled => Unmodelled
      end
  | VBool _ | VNum _ | VStr _ =>
      if String.eqb k "__proto__" then Unmodelled else Throw TypeError
  | VArr _ => Unmodelled
  end.

(** [delete v[k]]: the new [v]. *)
Definition delete (v : value) (k : string) : outcome value :=
  match v with
  | VUndefined | VNull => Throw TypeError
  | VObj o => Ok (VObj (remove k o))
  | VBool _ | VNum _ => Ok v
  | VStr _ | VArr _ => Unmodelled
  end.

(** The own enumerable string-keyed properties of a value that is
    neither [undefined] nor [null]. *)
Definition own_entries (v : value) : list (string * value) :=
  match v with
  | VObj o => entries o
  | VArr l => indexed_from 0 l
  | VStr s => indexed_from 0 (string_chars s)
  | _ => []
  end.

Definition nullish (v : value) : bool :=
  match v with VUndefined | VNull => true | _ => false end.

(** [Object.keys(v)] and [Object.values(v)] *)
Definition Object_keys (v : value) : outcome (list string) :=
  if nullish v then Throw TypeError else Ok (map fst (own_entries v)).

Definition Object_values (v : value) : outcome (list value) :=
  if nullish v then Throw TypeError else Ok (map snd (own_entries v)).

(** [Object.assign(target, source)]: every own property of [source] is
    set on [target], in order; a nullish source is skipped. *)
Fixpoint assign_entries (target : value) (es : list (string * value))
  : outcome value :=
  match es with
  | [] => Ok target
  | (k, x) :: r =>
      match target with
      | VBool _ | VNum _ =>
          (* the properties land on a wrapper object nobody keeps *)
          if String.eqb k "__proto__" then Unmodelled
          else assign_entries target r
      | VStr s =>
          (* likewise, but the characters and the length are read-only *)
          if String.eqb k "__proto__" then Unmodelled
          else if String.eqb k "length" then Throw TypeError
          else
            match array_index k with
            | Some n =>
                if (n <? N.of_nat (String.length s))%N then Throw TypeError
                else assign_entries target r
            | None => assign_entries target r
            end
      | _ =>
          match set target k x with
          | Ok t' => assign_entries t' r
          | Throw e => Throw e
          | Unmodelled => Unmodelled
          end
      end
  end.

Definition Object_assign (target source : value) : outcome value :=
  if nullish target then Throw TypeError
  else if nullish source then Ok target
  else assign_entries target (own_entries source).

(** [a === s] for a string literal [s]. *)
Definition is_string (a : value) (s : string) : bool :=
  match a with VStr x => String.eqb x s | _ => false end.

End JS.

(** ** The client object *)

Inductive ready_state : Type := CONNECTING | OPEN | CLOSING | CLOSED.

(** An [Image] element: [img_id] is its identity (the order of [new
    Image()]), the dimensions are those of the decoded picture. *)
Record image : Type := mkImage {
  img_id : nat;
  img_src : value;
  img_width : num;
  img_height : num
}.

(** The [onload] closure of a frame image: what it captured. *)
Record load : Type := mkLoad {
  ld_key : string;
  ld_direction : string;
  ld_index : nat;
  ld_img : nat;
  ld_src : value
}.

(** [this.avatarImages[avatarKey][direction]] is an array filled index by
    index as pictures arrive: [None] is a hole. *)
Definition frames : Type := list (option image).

Record client : Type := mkClient {
  canvas_width : num;
  canvas_height : num;
  worldImage : option nat;
  worldWidth : num;
  worldHeight : num;
  myPlayerId : value;
  players : value;
  avatars : value;
  avatarImages : JS.obj (JS.obj frames);
  cameraX : num;
  cameraY : num;
  avatarSize : num;
  socket : option ready_state;
  keysPressed : JS.obj bool;
  images_made : nat;
  onloads : list load
}.

Definition with_canvas (w h : num) (c : client) : client :=
  mkClient w h (worldImage c) (worldWidth c) (worldHeight c) (myPlayerId c)
    (players c) (avatars c) (avatarImages c) (cameraX c) (cameraY c)
    (avatarSize c) (socket c) (keysPressed c) (images_made c) (onloads c).

Definition with_worldImage (i : option nat) (c : client) : client :=
  mkClient (canvas_width c) (canvas_height c) i (worldWidth c) (worldHeight c)
    (myPlayerId c) (players c) (avatars c) (avatarImages c) (cameraX c)
    (cameraY c) (avatarSize c) (socket c) (keysPressed c) (images_made c)
    (onloads c).

Definition with_myPlayerId (v : value) (c : client) : client :=
  mkClient (canvas_width c) (canvas_height c) (worldImage c) (worldWidth c)
    (worldHeight c) v (players c) (avatars c) (avatarImages c) (cameraX c)
    (cameraY c) (avatarSize c) (socket c) (keysPressed c) (images_made c)
    (onloads c).

Definition with_players (v : value) (c : client) : client :=
  mkClient (canvas_width c) (canvas_height c) (worldImage c) (worldWidth c)
    (worldHeight c) (myPlayerId c) v (avatars c) (avatarImages c) (cameraX c)
    (cameraY c) (avatarSize c) (socket c) (keysPressed c) (images_made c)
    (onloads c).

Definition with_avatars (v : value) (c : client) : client :=
  mkClient (canvas_width c) (canvas_height c) (worldImage c) (worldWidth c)
    (worldHeight c) (myPlayerId c) (players c) v (avatarImages c) (cameraX c)
    (cameraY c) (avatarSize c) (socket c) (keysPressed c) (images_made c)
    (onloads c).

Definition with_avatarImages (a : JS.obj (JS.obj frames)) (c : client)
  : client :=
  mkClient (canvas_width c) (canvas_height c) (worldImage c) (worldWidth c)
    (worldHeight c) (myPlayerId c) (players c) (avatars c) a (cameraX c)
    (cameraY c) (avatarSize c) (socket c) (keysPressed c) (images_made c)
    (onloads c).

Definition with_cameraX (n : num) (c : client) : client :=
  mkClient (canvas_width c) (canvas_height c) (worldImage c) (worldWidth c)
    (worldHeight c) (myPlayerId c) (players c) (avatars c) (avatarImages c) n
    (cameraY c) (avatarSize c) (socket c) (keysPressed c) (images_made c)
    (onloads c).

Definition with_cameraY (n : num) (c : client) : client :=
  mkClient (canvas_width c) (canvas_height c) (worldImage c) (worldWidth c)
    (worldHeight c) (myPlayerId c) (players c) (avatars c) (avatarImages c)
    (cameraX c) n (avatarSize c) (socket c) (keysPressed c) (images_made c)
    (onloads c).

Definition with_socket (s : option ready_state) (c : client) : client :=
  mkClient (canvas_width c) (canvas_height c) (worldImage c) (worldWidth c)
    (worldHeight c) (myPlayerId c) (players c) (avatars c) (avatarImages c)
    (cameraX c) (cameraY c) (avatarSize c) s (keysPressed c) (images_made c)
    (onloads c).

Definition with_keysPressed (k : JS.obj bool) (c : client) : client :=
  mkClient (canvas_width c) (canvas_height c) (worldImage c) (worldWidth c)
    (worldHeight c) (myPlayerId c) (players c) (avatars c) (avatarImages c)
    (cameraX c) (cameraY c) (avatarSize c) (socket c) k (images_made c)
    (onloads c).

(** [new Image()] with an [onload] closure [l] (if any). *)
Definition with_image (l : list load) (c : client) : client :=
  mkClient (canvas_width c) (canvas_height c) (worldImage c) (worldWidth c)
    (worldHeight c) (myPlayerId c) (players c) (avatars c) (avatarImages c)
    (cameraX c) (cameraY c) (avatarSize c) (socket c) (keysPressed c)
    (S (images_made c)) (onloads c ++ l)%list.

(** ** What the client does to the outside world *)

Inductive text : Type :=
| TStr (s : string)
| TWorldInfo (w h : num)       (* `${worldWidth}x${worldHeight}` *)
| TCount (n : nat)
| TPosition (x y : num).        (* `(${x}, ${y})` *)

Inductive effect : Type :=
(* the canvas context *)
| ClearRect (x y w h : num)
| DrawWorld (img : nat) (sx sy sw sh dx dy dw dh : num)
| Save
| Restore
| Scale (x y : num)
| DrawImage (img : image) (x y w h : num)
| FillStyle (s : string)
| StrokeStyle (s : string)
| LineWidth (n : num)
| Font (s : string)
| TextAlign (s : string)
| StrokeText (t : string) (x y : num)
| FillText (t : string) (x y : num)
(* the document *)
| SetText (element : string) (t : text)
| SetClass (element : string) (cls : string)
(* the socket; a message is recorded before [JSON.stringify] *)
| Connect (url : string)
| Send (message : value)
(* the console *)
| ConsoleLog (s : string)
| ConsoleError (s : string) (arg : option value)
(* [img.src = src] *)
| SetSrc (img : nat) (src : value).

(** ** The monad of methods *)

Definition M (A : Type) : Type := client -> outcome A * client * list effect.

Definition ret {A} (a : A) : M A := fun c => (Ok a, c, []).

Definition bind {A B} (m : M A) (f : A -> M B) : M B :=
  fun c =>
    match m c with
    | (Ok a, c1, e1) =>
        let '(r, c2, e2) := f a c1 in (r, c2, (e1 ++ e2)%list)
    | (Throw x, c1, e1) => (Throw x, c1, e1)
    | (Unmodelled, c1, e1) => (Unmodelled, c1, e1)
    end.

Definition lift {A} (o : outcome A) : M A := fun c => (o, c, []).
Definition this {A} (f : client -> A) : M A := fun c => (Ok (f c), c, []).
Definition modify (f : client -> client) : M unit := fun c => (Ok tt, f c, []).
Definition emit (e : effect) : M unit := fun c => (Ok tt, c, [e]).
Definition throw {A} (e : error) : M A := lift (Throw e).

Declare Scope js_scope.
Delimit Scope js_scope with js.
Notation "x <- m ;; k" := (bind m (fun x => k))
  (at level 100, m at next level, right associativity) : js_scope.
Notation "m ;; k" := (bind m (fun _ => k))
  (at level 100, right associativity) : js_scope.
Open Scope js_scope.

(** [l.forEach((x, index) => f x index)] *)
Fixpoint forEach_from {A} (i : nat) (f : A -> nat -> M unit) (l : list A)
  : M unit :=
  match l with
  | [] => ret tt
  | x :: r => f x i ;; forEach_from (S i) f r
  end.

Definition forEach {A} (f : A -> nat -> M unit) (l : list A) : M unit :=
  forEach_from 0 f l.

(** ** The methods of [GameClient] *)

Module GameClient.
Import JS.

(** The fields as the constructor leaves them before [this.init()]; the
    canvas takes its size in [setupCanvas]. *)
Definition blank : client :=
  {| canvas_width := Num.zero;
     canvas_height := Num.zero;
     worldImage := None;
     worldWidth := Num.of_Z 2048;
     worldHeight := Num.of_Z 2048;
     myPlayerId := VNull;
     players := VObj [];
     avatars := VObj [];
     avatarImages := [];
     cameraX := Num.zero;
     cameraY := Num.zero;
     avatarSize := Num.of_Z 48;
     socket := None;
     keysPressed := [];
     images_made := 0;
     onloads := [] |}.

(** The window is taken to be at least 40 pixels high, so that the height
    given to the canvas is not negative. *)
Definition setupCanvas (innerWidth innerHeight : Z) : M unit :=
  modify (with_canvas (Num.of_Z innerWidth) (Num.of_Z (innerHeight - 40))).

Definition loadWorldMap : M unit :=
  id <- this images_made ;;
  modify (with_image []) ;;
  modify (with_worldImage (Some id)) ;;
  emit (SetSrc id (VStr "world.jpg")).

Definition connectToServer : M unit :=
  emit (Connect "wss://codepath-mmorg.onrender.com") ;;
  modify (with_socket (Some CONNECTING)).

(** [this.socket.send(JSON.stringify(message))] *)
Definition socket_send (message : value) : M unit :=
  s <- this socket ;;
  match s with
  | None => throw TypeError
  | Some CONNECTING => throw InvalidStateError
  | Some OPEN => emit (Send message)
  | Some _ => ret tt
  end.

Definition joinGame : M unit :=
  let joinMessage :=
    VObj [("action", VStr "join_game"); ("username", VStr "May")] in
  socket_send joinMessage.

Definition held (keys : obj bool) (code : string) : bool :=
  match lookup code keys with
  | Some b => b
  | None => false
  end.

Definition handleMovement : M unit :=
  s <- this socket ;;
  match s with
  | Some OPEN =>
      keys <- this keysPressed ;;
      let direction :=
        if held keys "ArrowUp" then Some "up"
        else if held keys "ArrowDown" then Some "down"
        else if held keys "ArrowLeft" then Some "left"
        else if held keys "ArrowRight" then Some "right"
        else None in
      match direction with
      | Some d =>
          let moveMessage :=
            VObj [("action", VStr "move"); ("direction", VStr d)] in
          socket_send moveMessage
      | None =>
          let stopMessage := VObj [("action", VStr "stop")] in
          socket_send stopMessage
      end
  | _ => ret tt
  end.

Definition updateConnectionStatus (status : string) : M unit :=
  emit (SetText "connectionStatus" (TStr status)) ;;
  emit (SetClass "connectionStatus" status).

(** [this.myPlayerId && this.players[this.myPlayerId]] *)
Definition localPlayer : M value :=
  id <- this myPlayerId ;;
  if truthy id then
    k <- lift (to_key id) ;;
    ps <- this players ;;
    lift (get ps k)
  else ret id.

Definition updateUI : M unit :=
  w <- this worldWidth ;;
  h <- this worldHeight ;;
  emit (SetText "worldInfo" (TWorldInfo w h)) ;;
  ps <- this players ;;
  keys <- lift (Object_keys ps) ;;
  let playerCount := length keys in
  emit (SetText "playerCount" (TCount playerCount)) ;;
  myPlayer <- localPlayer ;;
  if truthy myPlayer then
    x <- lift (get myPlayer "x") ;;
    nx <- lift (to_number x) ;;
    y <- lift (get myPlayer "y") ;;
    ny <- lift (to_number y) ;;
    emit (SetText "playerPosition"
            (TPosition (Num.round nx) (Num.round ny)))
  else emit (SetText "playerPosition" (TStr "(0, 0)")).

Definition updateCamera : M unit :=
  myPlayer <- localPlayer ;;
  if negb (truthy myPlayer) then ret tt
  else
    (* centre the camera on the player *)
    x <- lift (get myPlayer "x") ;;
    nx <- lift (to_number x) ;;
    w <- this canvas_width ;;
    modify (with_cameraX (Num.sub nx (Num.div w (Num.of_Z 2)))) ;;
    y <- lift (get myPlayer "y") ;;
    ny <- lift (to_number y) ;;
    h <- this canvas_height ;;
    modify (with_cameraY (Num.sub ny (Num.div h (Num.of_Z 2)))) ;;
    (* clamp it to the bounds of the world *)
    cx <- this cameraX ;;
    ww <- this worldWidth ;;
    modify (with_cameraX
              (Num.max Num.zero (Num.min cx (Num.sub ww w)))) ;;
    cy <- this cameraY ;;
    wh <- this worldHeight ;;
    modify (with_cameraY
              (Num.max Num.zero (Num.min cy (Num.sub wh h)))).

Definition worldToScreen (worldX worldY : value) : M (num * num) :=
  nx <- lift (to_number worldX) ;;
  cx <- this cameraX ;;
  ny <- lift (to_number worldY) ;;
  cy <- this cameraY ;;
  ret (Num.sub nx cx, Num.sub ny cy).

Definition isVisible (worldX worldY : value) : M bool :=
  screen <- worldToScreen worldX worldY ;;
  size <- this avatarSize ;;
  w <- this canvas_width ;;
  h <- this canvas_height ;;
  ret (Num.ge (fst screen) (Num.neg size) &&
       Num.le (fst screen) (Num.add w size) &&
       Num.ge (snd screen) (Num.neg size) &&
       Num.le (snd screen) (Num.add h size)).

(** [frames[k]] for an array of decoded pictures.  A key that is no
    index reads a property of the array itself (its [length], a method):
    what is found there is no picture, and [drawImage] raises on it
    between [save] and [restore]; that path is not written out. *)
Definition frame_at (fs : frames) (k : string) : outcome (option image) :=
  match array_index k with
  | Some n =>
      if (n <? N.of_nat (length fs))%N
      then Ok (nth (N.to_nat n) fs None) else Ok None
  | None => Unmodelled
  end.

(** Lines 258 to 275 of [drawAvatar]: the picture to draw for [player]
    and whether to flip it, or [None] where the method returns. *)
Definition resolveFrame (player : value) : M (option (image * bool)) :=
  key <- lift (get player "avatar") ;;
  k <- lift (to_key key) ;;
  avs <- this avatars ;;
  avatar <- lift (get avs k) ;;
  if negb (truthy avatar) then ret None
  else
    imgs <- this avatarImages ;;
    loaded <- lift (own imgs k) ;;
    match loaded with
    | None => ret None
    | Some dirs =>
        direction <- lift (get player "facing") ;;
        animationFrame <- lift (get player "animationFrame") ;;
        let frameIndex :=
          if truthy animationFrame then animationFrame
          else VNum Num.zero in
        (* west is east, flipped *)
        let flipHorizontal := is_string direction "west" in
        let direction :=
          if flipHorizontal then VStr "east" else direction in
        dk <- lift (to_key direction) ;;
        fs <- lift (own dirs dk) ;;
        match fs with
        | None => ret None
        | Some fs =>
            ik <- lift (to_key frameIndex) ;;
            img <- lift (frame_at fs ik) ;;
            match img with
            | None => ret None
            | Some img => ret (Some (img, flipHorizontal))
            end
        end
    end.

Definition drawAvatar (player : value) : M unit :=
  px <- lift (get player "x") ;;
  py <- lift (get player "y") ;;
  visible <- isVisible px py ;;
  if negb visible then ret tt
  else
    screen <- worldToScreen px py ;;
    frame <- resolveFrame player ;;
    match frame with
    | None => ret tt
    | Some (img, flipHorizontal) =>
        size <- this avatarSize ;;
        (* the size of the avatar, keeping the aspect ratio *)
        let aspectRatio := Num.div (img_width img) (img_height img) in
        let avatarWidth := size in
        let avatarHeight := Num.div size aspectRatio in
        (* centred on the position of the player *)
        let x := Num.sub (fst screen) (Num.div avatarWidth (Num.of_Z 2)) in
        let y := Num.sub (snd screen) avatarHeight in
        emit Save ;;
        (if flipHorizontal then
           emit (Scale (Num.of_Z (-1)) (Num.of_Z 1)) ;;
           emit (DrawImage img (Num.sub (Num.neg x) avatarWidth) y
                   avatarWidth avatarHeight)
         else emit (DrawImage img x y avatarWidth avatarHeight)) ;;
        emit Restore ;;
        (* the label *)
        emit (FillStyle "white") ;;
        emit (StrokeStyle "black") ;;
        emit (LineWidth (Num.of_Z 2)) ;;
        emit (Font "14px Arial") ;;
        emit (TextAlign "center") ;;
        let textX := fst screen in
        let textY := Num.sub y (Num.of_Z 5) in
        (* [strokeText] and [fillText] take a string *)
        username <- lift (get player "username") ;;
        text <- lift (to_key username) ;;
        emit (StrokeText text textX textY) ;;
        emit (FillText text textX textY)
    end.

Definition draw : M unit :=
  world <- this worldImage ;;
  match world with
  | None => ret tt
  | Some world =>
      w <- this canvas_width ;;
      h <- this canvas_height ;;
      emit (ClearRect Num.zero Num.zero w h) ;;
      cx <- this cameraX ;;
      cy <- this cameraY ;;
      emit (DrawWorld world cx cy w h Num.zero Num.zero w h) ;;
      ps <- this players ;;
      all <- lift (Object_values ps) ;;
      forEach (fun player _ => drawAvatar player) all
  end.

Definition directions : list string := ["north"; "south"; "east"].

(** The body of the inner [forEach] of [loadAvatarImage]: [new Image()],
    its [onload], [img.src = frameData].  The setter of [src] takes a
    string: a source that has no conversion to one raises there, the
    picture made and its [onload] set. *)
Definition loadFrame (avatarKey direction : string) (frameData : value)
    (index : nat) : M unit :=
  id <- this images_made ;;
  modify (with_image [mkLoad avatarKey direction index id frameData]) ;;
  _ <- lift (to_key frameData) ;;
  emit (SetSrc id frameData).

(** [this.avatarImages[avatarKey][direction] = fs] *)
Definition set_frames (avatarKey direction : string) (fs : frames)
  : M unit :=
  imgs <- this avatarImages ;;
  dirs <- lift (own imgs avatarKey) ;;
  match dirs with
  | None => throw TypeError
  | Some dirs =>
      dirs' <- lift (put dirs direction fs) ;;
      imgs' <- lift (put imgs avatarKey dirs') ;;
      modify (with_avatarImages imgs')
  end.

(** The body of the outer [forEach] of [loadAvatarImage]. *)
Definition loadDirection (avatar : value) (avatarKey direction : string)
  : M unit :=
  set_frames avatarKey direction [] ;;
  fs <- lift (get avatar "frames") ;;
  sources <- lift (get fs direction) ;;
  match sources with
  | VArr l => forEach (loadFrame avatarKey direction) l
  | _ => throw TypeError        (* no [forEach] to call *)
  end.

Definition loadAvatarImage (avatar : value) : M unit :=
  name <- lift (get avatar "name") ;;
  avatarKey <- lift (to_key name) ;;
  imgs <- this avatarImages ;;
  if present imgs avatarKey then ret tt           (* already loaded *)
  else
    imgs' <- lift (put imgs avatarKey []) ;;
    modify (with_avatarImages imgs') ;;
    forEach (fun direction _ => loadDirection avatar avatarKey direction)
      directions.

Definition loadAvatarImages : M unit :=
  avs <- this avatars ;;
  all <- lift (Object_values avs) ;;
  forEach (fun avatar _ => loadAvatarImage avatar) all.

Definition handleServerMessage (message : value) : M unit :=
  action <- lift (get message "action") ;;
  if is_string action "join_game" then
    success <- lift (get message "success") ;;
    if truthy success then
      playerId <- lift (get message "playerId") ;;
      modify (with_myPlayerId playerId) ;;
      ps <- lift (get message "players") ;;
      modify (with_players ps) ;;
      avs <- lift (get message "avatars") ;;
      modify (with_avatars avs) ;;
      loadAvatarImages ;;
      updateCamera ;;
      updateUI ;;
      draw
    else
      e <- lift (get message "error") ;;
      emit (ConsoleError "Failed to join game:" (Some e))
  else if is_string action "player_joined" then
    ps <- this players ;;
    player <- lift (get message "player") ;;
    id <- lift (get player "id") ;;
    k <- lift (to_key id) ;;
    ps' <- lift (set ps k player) ;;
    modify (with_players ps') ;;
    avs <- this avatars ;;
    avatar <- lift (get message "avatar") ;;
    name <- lift (get avatar "name") ;;
    k <- lift (to_key name) ;;
    avs' <- lift (set avs k avatar) ;;
    modify (with_avatars avs') ;;
    loadAvatarImage avatar ;;
    updateUI ;;
    draw
  else if is_string action "players_moved" then
    ps <- this players ;;
    moved <- lift (get message "players") ;;
    ps' <- lift (Object_assign ps moved) ;;
    modify (with_players ps') ;;
    updateCamera ;;
    updateUI ;;
    draw
  else if is_string action "player_left" then
    ps <- this players ;;
    id <- lift (get message "playerId") ;;
    k <- lift (to_key id) ;;
    ps' <- lift (delete ps k) ;;
    modify (with_players ps') ;;
    updateUI ;;
    draw
  else ret tt.

(** ** The callbacks *)

(** [a[i] = x] on an array with holes: an index past the end extends it. *)
Fixpoint store {A} (i : nat) (x : A) (a : list (option A))
  : list (option A) :=
  match i, a with
  | O, [] => [Some x]
  | O, _ :: r => Some x :: r
  | S i, [] => None :: store i x []
  | S i, y :: r => y :: store i x r
  end.

(** [img.onload] of a frame picture, decoded with the given size. *)
Definition frame_onload (l : load) (width height : num) : M unit :=
  let img := mkImage (ld_img l) (ld_src l) width height in
  imgs <- this avatarImages ;;
  dirs <- lift (own imgs (ld_key l)) ;;
  match dirs with
  | None => throw TypeError
  | Some dirs =>
      fs <- lift (own dirs (ld_direction l)) ;;
      match fs with
      | None => throw TypeError
      | Some fs =>
          set_frames (ld_key l) (ld_direction l)
            (store (ld_index l) img fs) ;;
          draw                       (* redraw when a picture arrives *)
      end
  end.

(** What the browser calls back.  A message carries what [JSON.parse]
    makes of [event.data]: [None] where it raises [SyntaxError]. *)
Inductive event : Type :=
| Resize (innerWidth innerHeight : Z)
| WorldLoaded
| FrameLoaded (img : nat) (width height : num)
| SocketOpen
| SocketMessage (data : option value)
| SocketClose
| SocketError
| KeyDown (code : string)
| KeyUp (code : string).

Definition onmessage (data : option value) : M unit :=
  match data with
  | None => throw SyntaxError
  | Some message => handleServerMessage message
  end.

Definition onkey (code : string) (down : bool) : M unit :=
  keys <- this keysPressed ;;
  keys' <- lift (put keys code down) ;;
  modify (with_keysPressed keys') ;;
  handleMovement.

Definition handle (e : event) : M unit :=
  match e with
  | Resize innerWidth innerHeight =>
      setupCanvas innerWidth innerHeight ;;
      updateCamera ;;
      draw
  | WorldLoaded => draw
  | FrameLoaded id width height =>
      ls <- this onloads ;;
      match find (fun l => Nat.eqb (ld_img l) id) ls with
      | Some l => frame_onload l width height
      | None => ret tt
      end
  | SocketOpen =>
      modify (with_socket (Some OPEN)) ;;
      emit (ConsoleLog "Connected to game server") ;;
      updateConnectionStatus "connected" ;;
      joinGame
  | SocketMessage data => onmessage data
  | SocketClose =>
      modify (with_socket (Some CLOSED)) ;;
      emit (ConsoleLog "Disconnected from game server") ;;
      updateConnectionStatus "disconnected"
  | SocketError =>
      emit (ConsoleError "WebSocket error:" None) ;;
      updateConnectionStatus "disconnected"
  | KeyDown code => onkey code true
  | KeyUp code => onkey code false
  end.

Definition init (innerWidth innerHeight : Z) : M unit :=
  setupCanvas innerWidth innerHeight ;;
  loadWorldMap ;;
  connectToServer ;;
  (* setupKeyboardControls only registers [KeyDown] and [KeyUp] *)
  updateUI.

(** [new GameClient()] in a window of the given inner size. *)
Definition new (innerWidth innerHeight : Z) : client :=
  snd (fst (init innerWidth innerHeight blank)).

(** A session: each callback runs to its end, or to its exception, before
    the next one; an exception ends the callback, not the session. *)
Fixpoint run (es : list event) (c : client) : client * list effect :=
  match es with
  | [] => (c, [])
  | e :: r =>
      let '(_, c1, t1) := handle e c in
      let '(c2, t2) := run r c1 in
      (c2, (t1 ++ t2)%list)
  end.

End GameClient.

(** ** Definitions that follow the words of the specification *)

Module Spec.

(** [clamp(v, min, max)] *)
Definition clamp (v lo hi : Q) : Q :=
  if Qle_bool lo v then (if Qle_bool v hi then v else hi) else lo.

(** The actions of the protocol, server to client. *)
Definition known_action (a : value) : bool :=
  JS.is_string a "join_game" || JS.is_string a "player_joined" ||
  JS.is_string a "players_moved" || JS.is_string a "player_left".

(** The intent for the movement keys held, by precedence
    up > down > left > right; a stop where none is. *)
Definition intent (up down left right : bool) : value :=
  if up then VObj [("action", VStr "move"); ("direction", VStr "up")]
  else if down then
    VObj [("action", VStr "move"); ("direction", VStr "down")]
  else if left then
    VObj [("action", VStr "move"); ("direction", VStr "left")]
  else if right then
    VObj [("action", VStr "move"); ("direction", VStr "right")]
  else VObj [("action", VStr "stop")].

(** One load for each index of a direction's list of sources, with
    pictures numbered from [id]. *)
Fixpoint loads_from (k direction : string) (index id : nat)
    (sources : list value) : list load :=
  match sources with
  | [] => []
  | src :: r =>
      mkLoad k direction index id src
      :: loads_from k direction (S index) (S id) r
  end.

(** [ensureLoaded]: for each of the three stored directions, and for each
    frame index within that direction's source list, one load. *)
Definition schedule (k : string) (first : nat)
    (north south east : list value) : list load :=
  (loads_from k "north" 0 first north ++
   loads_from k "south" 0 (first + length north) south ++
   loads_from k "east" 0 (first + length north + length south) east)%list.

(** The (avatar, direction, index) triple of a load. *)
Definition triple (l : load) : string * string * nat :=
  (ld_key l, ld_direction l, ld_index l).

(** [img.src = src] for the picture of a load. *)
Definition started (l : load) : effect := SetSrc (ld_img l) (ld_src l).

End Spec.

(** ** Scenarios *)

Module Scenario.
Import JS GameClient.

Definition n (z : Z) : value := VNum (Num.of_Z z).

(** A window whose canvas is 800 by 600. *)
Definition fresh : client := new 800 640.

Definition hero : value :=
  VObj [("name", VStr "hero");
        ("frames", VObj [("north", VArr [VStr "n0.png"; VStr "n1.png"]);
                         ("south", VArr [VStr "s0.png"]);
                         ("east", VArr [VStr "e0.png"; VStr "e1.png"])])].

Definition player (id : string) (x y : Z) (facing : string) : value :=
  VObj [("id", VStr id); ("x", n x); ("y", n y); ("facing", VStr facing);
        ("animationFrame", n 0); ("avatar", VStr "hero");
        ("username", VStr id)].

Definition joined (ps : list (string * value)) : value :=
  VObj [("action", VStr "join_game"); ("success", VBool true);
        ("playerId", VStr "p1"); ("players", VObj ps);
        ("avatars", VObj [("hero", hero)])].

(** [{action: "join_game", success: false, error: "full"}] *)
Definition rejected : value :=
  VObj [("action", VStr "join_game"); ("success", VBool false);
        ("error", VStr "full")].

(** The store of the specification's merge scenario. *)
Definition p2_before : value :=
  VObj [("x", n 1); ("y", n 1); ("facing", VStr "north")].

Definition with_p2 : client :=
  fst (run [SocketOpen;
            SocketMessage (Some (joined [("p1", player "p1" 100 100 "south");
                                         ("p2", p2_before)]))] fresh).

(** [{action: "players_moved", players: {p2: {x: 5}}}] *)
Definition p2_moved : value :=
  VObj [("action", VStr "players_moved");
        ("players", VObj [("p2", VObj [("x", n 5)])])].

(** [{action: "ping"}] *)
Definition ping : value := VObj [("action", VStr "ping")].

(** [{action: "player_joined", player: {id: "p9"}}]: no avatar. *)
Definition lone_player : value :=
  VObj [("action", VStr "player_joined");
        ("player", VObj [("id", VStr "p9")])].

(** The local player at [(x, y)] in a world of 2000 by 2000 seen through
    a viewport of 800 by 600. *)
Definition at_position (x y : Z) : client :=
  {| canvas_width := Num.of_Z 800;
     canvas_height := Num.of_Z 600;
     worldImage := Some 0%nat;
     worldWidth := Num.of_Z 2000;
     worldHeight := Num.of_Z 2000;
     myPlayerId := VStr "p1";
     players := VObj [("p1", player "p1" x y "south")];
     avatars := VObj [("hero", hero)];
     avatarImages := [];
     cameraX := Num.zero;
     cameraY := Num.zero;
     avatarSize := Num.of_Z 48;
     socket := Some OPEN;
     keysPressed := [];
     images_made := 1;
     onloads := [] |}.

Definition offset (c : client) : num * num :=
  let c' := snd (fst (updateCamera c)) in (cameraX c', cameraY c').

(** The client of [with_p2] once the first east picture and the south
    picture of the hero are decoded (32 by 64). *)
Definition loaded : client :=
  fst (run [FrameLoaded 4 (Num.of_Z 32) (Num.of_Z 64);
            FrameLoaded 3 (Num.of_Z 32) (Num.of_Z 64)] with_p2).

Definition east0 : image :=
  mkImage 4 (VStr "e0.png") (Num.of_Z 32) (Num.of_Z 64).

Definition south0 : image :=
  mkImage 3 (VStr "s0.png") (Num.of_Z 32) (Num.of_Z 64).

(** A player record that arrived without [animationFrame]. *)
Definition frameless (x y : Z) : value :=
  VObj [("id", VStr "p3"); ("x", n x); ("y", n y); ("facing", VStr "south");
        ("avatar", VStr "hero"); ("username", VStr "p3")].

(** An avatar like [hero], named as a property every object has. *)
Definition namesake : value :=
  VObj [("name", VStr "constructor");
        ("frames", VObj [("north", VArr [VStr "n0.png"; VStr "n1.png"]);
                         ("south", VArr [VStr "s0.png"]);
                         ("east", VArr [VStr "e0.png"; VStr "e1.png"])])].

End Scenario.

(** ** Predicates of the properties *)

Import JS GameClient.

(** Whatever the outcome, exception included, the client the method
    leaves is related to the one it found. *)
Definition stable (R : client -> client -> Prop) {A} (m : M A) : Prop :=
  forall c, R c (snd (fst (m c))).

(** A field the method does not touch. *)
Definition same {B} (field : client -> B) (c c' : client) : Prop :=
  field c' = field c.

(** Once [this.avatarImages] has an entry for a key, it keeps one. *)
Definition loading (k : string) (c : client) : Prop :=
  lookup k (avatarImages c) <> None.

Definition keeps_loading (k : string) (c c' : client) : Prop :=
  loading k c -> loading k c'.

(** A key without an entry in [this.avatarImages] stays without one. *)
Definition keeps_unloaded (k : string) (c c' : client) : Prop :=
  lookup k (avatarImages c) = None -> lookup k (avatarImages c') = None.

(** The client after [new Image()] for each of the loads. *)
Definition add_loads (ls : list load) (c : client) : client :=
  fold_left (fun c l => with_image [l] c) ls c.

(** The client [c] with the entries [a] and the loads [ls] more. *)
Definition scheduled (a : obj (obj frames)) (ls : list load) (c : client)
  : client :=
  add_loads ls (with_avatarImages a c).

(** The loads registered are for distinct (avatar, direction, index)
    triples, and each belongs to an avatar that has its entry in
    [this.avatarImages]. *)
Definition distinct_loads (c : client) : Prop :=
  NoDup (map Spec.triple (onloads c)) /\
  (forall l, In l (onloads c) -> loading (ld_key l) c).

Definition keeps_distinct (c c' : client) : Prop :=
  distinct_loads c -> distinct_loads c'.

(** The part of the client the server writes: [myPlayerId], [players],
    [avatars]. *)
Definition world_store (c : client) : value * value * value :=
  (myPlayerId c, players c, avatars c).

(** Where an effect lands. *)
Inductive effect_kind : Type :=
| OnCanvasClear      (* [clearRect]: the start of a repaint *)
| OnCanvas
| OnDocument
| OnSocket
| OnConsole
| OnImage.

Definition kind (e : effect) : effect_kind :=
  match e with
  | ClearRect _ _ _ _ => OnCanvasClear
  | DrawWorld _ _ _ _ _ _ _ _ _ | Save | Restore | Scale _ _
  | DrawImage _ _ _ _ _ | FillStyle _ | StrokeStyle _ | LineWidth _
  | Font _ | TextAlign _ | StrokeText _ _ _ | FillText _ _ _ => OnCanvas
  | SetText _ _ | SetClass _ _ => OnDocument
  | Connect _ | Send _ => OnSocket
  | ConsoleLog _ | ConsoleError _ _ => OnConsole
  | SetSrc _ _ => OnImage
  end.

(** Whatever the outcome, the method has only effects of the kinds
    allowed. *)
Definition emits (allowed : effect_kind -> bool) {A} (m : M A) : Prop :=
  forall c, Forall (fun e => allowed (kind e) = true) (snd (m c)).

(** The number of repaints begun in a trace. *)
Definition repaints (t : list effect) : nat :=
  length (filter (fun e => match e with
                           | ClearRect _ _ _ _ => true
                           | _ => false
                           end) t).

(** Whatever the outcome, the method begins at most [n] repaints. *)
Definition repaints_at_most (n : nat) {A} (m : M A) : Prop :=
  forall c, (repaints (snd (m c)) <= n)%nat.

(** The messages sent in a trace. *)
Definition sent (t : list effect) : list value :=
  flat_map (fun e => match e with Send m => [m] | _ => [] end) t.

(** The messages of the protocol, client to server. *)
Definition outbound (m : value) : Prop :=
  m = VObj [("action", VStr "join_game"); ("username", VStr "May")] \/
  m = VObj [("action", VStr "stop")] \/
  exists d, In d ["up"; "down"; "left"; "right"] /\
            m = VObj [("action", VStr "move"); ("direction", VStr d)].

(** Every kind of effect but one. *)
Definition all_but (k : effect_kind) (k' : effect_kind) : bool :=
  match k, k' with
  | OnCanvasClear, OnCanvasClear | OnCanvas, OnCanvas
  | OnDocument, OnDocument | OnSocket, OnSocket
  | OnConsole, OnConsole | OnImage, OnImage => false
  | _, _ => true
  end.

(** None of these results is rounded: each is a double, so that the
    operation of the program that computes it returns it exactly. *)
Definition unrounded (results : list Q) : Prop :=
  forallb Num.double results = true.

(** The values that have a conversion to a string written out here. *)
Definition printable (v : value) : bool :=
  match to_key v with
  | Ok _ => true
  | _ => false
  end.

(** Whatever the outcome, a player count the method writes in the page is
    the number of players the client holds when the method ends. *)
Definition counts_players {A} (m : M A) : Prop :=
  forall c n,
    In (SetText "playerCount" (TCount n)) (snd (m c)) ->
    exists keys,
      Object_keys (players (snd (fst (m c)))) = Ok keys /\ n = length keys.

(** * Properties *)

(** ** Objects *)

Section Objects.
Context {A : Type}.
Implicit Types (o : obj A) (k : string).

Lemma lookup_update_same k (v : A) o : lookup k (update k v o) = Some v.
Proof.
  induction o as [|[k' v'] r IH]; simpl.
  - now rewrite String.eqb_refl.
  - destruct (String.eqb k k') eqn:E; simpl.
    + now rewrite String.eqb_refl.
    + now rewrite E.
Qed.

Lemma lookup_update_other k k' (v : A) o :
  k <> k' -> lookup k (update k' v o) = lookup k o.
Proof.
  intros N. apply String.eqb_neq in N.
  induction o as [|[k2 v2] r IH]; simpl.
  - now rewrite N.
  - destruct (String.eqb k' k2) eqn:E; simpl.
    + apply String.eqb_eq in E. subst k2. now rewrite N.
    + destruct (String.eqb k k2); auto.
Qed.

Lemma lookup_update_some k k' (v : A) o :
  lookup k o <> None -> lookup k (update k' v o) <> None.
Proof.
  intros H. destruct (String.eqb_spec k k') as [->|N].
  - now rewrite lookup_update_same.
  - now rewrite lookup_update_other.
Qed.

Lemma mem_In k (l : list string) : mem k l = true <-> In k l.
Proof.
  induction l as [|x l IH]; simpl.
  - split; [discriminate | tauto].
  - rewrite orb_true_iff, IH, String.eqb_eq. intuition congruence.
Qed.

Lemma lookup_entries_from seen k o :
  lookup k (entries_from seen o) =
  if mem k seen then None else lookup k o.
Proof.
  revert seen. induction o as [|[k' v] r IH]; intros seen; simpl.
  - now destruct (mem k seen).
  - destruct (mem k' seen) eqn:S'.
    + rewrite IH. destruct (mem k seen) eqn:S; auto.
      destruct (String.eqb_spec k k') as [->|]; congruence.
    + simpl. rewrite IH. simpl.
      destruct (String.eqb_spec k k') as [->|N].
      * now rewrite S'.
      * reflexivity.
Qed.

(** The properties listed are the properties looked up. *)
Lemma lookup_entries k o : lookup k (entries o) = lookup k o.
Proof. unfold entries. now rewrite lookup_entries_from. Qed.

Lemma lookup_None_In k o : lookup k o = None <-> ~ In k (map fst o).
Proof.
  induction o as [|[k' v] r IH]; simpl.
  - tauto.
  - destruct (String.eqb_spec k k') as [->|N].
    + split; [discriminate | tauto].
    + rewrite IH. intuition congruence.
Qed.

End Objects.

(** ** Methods that leave a relation between the client before and after *)

Section Stable.
Variable R : client -> client -> Prop.
Hypothesis R_refl : forall c, R c c.
Hypothesis R_trans : forall a b c, R a b -> R b c -> R a c.

Lemma stable_ret {A} (a : A) : stable R (ret a).
Proof. intros c. apply R_refl. Qed.

Lemma stable_lift {A} (o : outcome A) : stable R (lift o).
Proof. intros c. apply R_refl. Qed.

Lemma stable_throw {A} e : stable R (@throw A e).
Proof. intros c. apply R_refl. Qed.

Lemma stable_this {A} (f : client -> A) : stable R (this f).
Proof. intros c. apply R_refl. Qed.

Lemma stable_emit e : stable R (emit e).
Proof. intros c. apply R_refl. Qed.

Lemma stable_modify f : (forall c, R c (f c)) -> stable R (modify f).
Proof. intros H c. apply H. Qed.

Lemma stable_bind {A B} (m : M A) (f : A -> M B) :
  stable R m -> (forall a, stable R (f a)) -> stable R (bind m f).
Proof.
  intros Hm Hf c. unfold bind. specialize (Hm c).
  destruct (m c) as [[[a|e|] c1] t1]; simpl in *; auto.
  specialize (Hf a c1). destruct (f a c1) as [[r c2] t2]; simpl in *.
  eauto.
Qed.

Lemma stable_forEach_from {A} (f : A -> nat -> M unit) l :
  (forall x i, stable R (f x i)) -> forall i, stable R (forEach_from i f l).
Proof.
  intros Hf. induction l as [|x l IH]; intros i; simpl.
  - apply stable_ret.
  - apply stable_bind; auto.
Qed.

Lemma stable_forEach {A} (f : A -> nat -> M unit) l :
  (forall x i, stable R (f x i)) -> stable R (forEach f l).
Proof. intros Hf. now apply stable_forEach_from. Qed.

End Stable.

Create HintDb stable.

#[local] Hint Resolve stable_ret stable_lift stable_throw stable_this
  stable_emit stable_modify stable_forEach : stable.

(** Break a method into its statements. *)
Ltac stable_step :=
  match goal with
  | |- stable _ (bind _ _) => apply stable_bind; [assumption | | intros ? ]
  | |- stable _ (if ?b then _ else _) => destruct b
  | |- stable _ (match ?x with _ => _ end) => destruct x
  | |- stable _ (let _ := _ in _) => cbv zeta
  | |- stable _ _ => solve [auto with stable]
  end.

Ltac stable_method := intros; repeat stable_step.

(** The methods that read the store and paint. *)
Section Readers.
Variable R : client -> client -> Prop.
Hypothesis R_refl : forall c, R c c.
Hypothesis R_trans : forall a b c, R a b -> R b c -> R a c.
Hypothesis R_cameraX : forall n c, R c (with_cameraX n c).
Hypothesis R_cameraY : forall n c, R c (with_cameraY n c).

Local Hint Resolve R_refl R_cameraX R_cameraY : stable.

Lemma stable_localPlayer : stable R localPlayer.
Proof. unfold localPlayer. stable_method. Qed.

Lemma stable_updateUI : stable R updateUI.
Proof.
  pose proof stable_localPlayer.
  unfold updateUI. stable_method.
Qed.

Lemma stable_updateCamera : stable R updateCamera.
Proof.
  pose proof stable_localPlayer.
  unfold updateCamera. stable_method.
Qed.

Lemma stable_worldToScreen x y : stable R (worldToScreen x y).
Proof. unfold worldToScreen. stable_method. Qed.

Lemma stable_isVisible x y : stable R (isVisible x y).
Proof.
  pose proof stable_worldToScreen.
  unfold isVisible. stable_method.
Qed.

Lemma stable_resolveFrame p : stable R (resolveFrame p).
Proof. unfold resolveFrame. stable_method. Qed.

Lemma stable_drawAvatar p : stable R (drawAvatar p).
Proof.
  pose proof stable_worldToScreen. pose proof stable_isVisible.
  pose proof stable_resolveFrame.
  unfold drawAvatar. stable_method.
Qed.

Lemma stable_draw : stable R draw.
Proof.
  pose proof stable_drawAvatar.
  unfold draw. stable_method.
Qed.

End Readers.

Lemma same_refl {B} (field : client -> B) c : same field c c.
Proof. reflexivity. Qed.

Lemma same_trans {B} (field : client -> B) a b c :
  same field a b -> same field b c -> same field a c.
Proof. unfold same. congruence. Qed.

(** ** [Object.assign] *)

Lemma entries_from_keys {A} (o : obj A) seen :
  NoDup (map fst (entries_from seen o)) /\
  (forall k, In k (map fst (entries_from seen o)) -> ~ In k seen).
Proof.
  revert seen. induction o as [|[k v] r IH]; intros seen; simpl.
  - split; [constructor | tauto].
  - destruct (mem k seen) eqn:S; [apply IH|].
    destruct (IH (k :: seen)) as [ND Fresh]. simpl. split.
    + constructor; auto. intros I. apply Fresh in I. simpl in I. tauto.
    + intros k' [<-|I].
      * intros I. apply mem_In in I. congruence.
      * apply Fresh in I. simpl in I. tauto.
Qed.

Lemma entries_NoDup {A} (o : obj A) : NoDup (map fst (entries o)).
Proof. apply entries_from_keys. Qed.

(** What [Object.assign] makes of a plain object. *)
Lemma assign_entries_obj es : forall o t,
  assign_entries (VObj o) es = Ok t ->
  exists o', t = VObj o' /\
    (forall k, lookup k es = None -> lookup k o' = lookup k o) /\
    (forall k, lookup k o <> None -> lookup k o' <> None) /\
    (NoDup (map fst es) ->
     forall k v, lookup k es = Some v -> lookup k o' = Some v).
Proof.
  induction es as [|[k1 x] r IH]; intros o t H; simpl in H.
  - inversion H; subst. exists o. repeat split; auto. discriminate.
  - unfold put in H. destruct (String.eqb k1 "__proto__"); [discriminate|].
    apply IH in H. destruct H as (o' & -> & Frame & Keep & New).
    exists o'. split; [reflexivity|]. split; [|split].
    + intros k Hk. simpl in Hk.
      destruct (String.eqb k k1) eqn:E; [discriminate|].
      apply String.eqb_neq in E.
      rewrite Frame by assumption. now apply lookup_update_other.
    + intros k Hk. apply Keep. now apply lookup_update_some.
    + intros ND k v Hk. simpl in ND. inversion ND as [|? ? Hnot ND']; subst.
      simpl in Hk. destruct (String.eqb k k1) eqn:E.
      * apply String.eqb_eq in E. inversion Hk; subst.
        rewrite Frame by now apply lookup_None_In.
        apply lookup_update_same.
      * now apply New.
Qed.

(** ** The store after a [players_moved] message *)

Lemma stable_players_after_assign :
  stable (same players)
    (updateCamera ;; updateUI ;; draw).
Proof.
  pose proof (@same_refl _ players) as Rr.
  pose proof (@same_trans _ players) as Rt.
  assert (forall n c, same players c (with_cameraX n c)) as RX by reflexivity.
  assert (forall n c, same players c (with_cameraY n c)) as RY by reflexivity.
  pose proof (stable_updateCamera _ Rr Rt RX RY).
  pose proof (stable_updateUI _ Rr Rt).
  pose proof (stable_draw _ Rr Rt).
  stable_method.
Qed.

Lemma players_moved_store message moved c :
  get message "action" = Ok (VStr "players_moved") ->
  get message "players" = Ok moved ->
  players (snd (fst (handleServerMessage message c))) =
  match Object_assign (players c) moved with
  | Ok ps' => ps'
  | _ => players c
  end.
Proof.
  intros Ha Hp. unfold handleServerMessage.
  unfold bind at 1. unfold lift at 1. rewrite Ha. simpl.
  unfold bind at 1. unfold this at 1.
  unfold bind at 1. unfold lift at 1. rewrite Hp.
  unfold bind at 1. unfold lift at 1.
  destruct (Object_assign (players c) moved) as [ps'| |]; try reflexivity.
  unfold bind at 1. unfold modify at 1.
  pose proof (stable_players_after_assign (with_players ps' c)) as S.
  unfold same in S.
  destruct ((updateCamera;; updateUI;; draw) (with_players ps' c))
    as [[r c2] t2].
  simpl in *. exact S.
Qed.

Lemma assign_entries_ok es : forall o,
  lookup "__proto__" es = None ->
  exists t, assign_entries (VObj o) es = Ok t.
Proof.
  induction es as [|[k x] r IH]; intros o H; simpl.
  - now exists (VObj o).
  - cbn [lookup] in H. cbn [assign_entries set]. unfold put.
    rewrite String.eqb_sym.
    destruct (String.eqb "__proto__" k); [discriminate|]. now apply IH.
Qed.

(** ** The claims on the store *)

(** C1, as stated, fails: merging [{p2: {x: 5}}] into a store where p2 is
    [{x: 1, y: 1, facing: 'north'}] leaves p2 equal to [{x: 5}]; its [y] and
    [facing], not mentioned in the partial entry, are gone. *)
Lemma players_moved_drops_unmentioned_fields :
  let c' :=
    snd (fst (handleServerMessage Scenario.p2_moved Scenario.with_p2)) in
  get (players Scenario.with_p2) "p2" = Ok Scenario.p2_before /\
  get (players c') "p2" = Ok (VObj [("x", Scenario.n 5)]) /\
  (forall p2, get (players c') "p2" = Ok p2 ->
     get p2 "y" = Ok VUndefined /\ get p2 "facing" = Ok VUndefined).
Proof.
  cbv zeta. split; [reflexivity|]. split; [vm_compute; reflexivity|].
  intros p2 H. vm_compute in H. inversion H. split; reflexivity.
Qed.

(** C1, amended: a [players_moved] message replaces, for every id of its
    partial map, the player stored under that id by the entry of the
    message, whole: the stored player is the entry, with the fields of the
    entry and no others. *)
Theorem players_moved_replaces_entry c message o partial id entry :
  get message "action" = Ok (VStr "players_moved") ->
  get message "players" = Ok (VObj partial) ->
  players c = VObj o ->
  lookup "__proto__" partial = None ->
  lookup id partial = Some entry ->
  get (players (snd (fst (handleServerMessage message c)))) id = Ok entry.
Proof.
  intros Ha Hp Hc Hproto Hid.
  rewrite (players_moved_store _ _ _ Ha Hp), Hc.
  unfold Object_assign. simpl.
  destruct (assign_entries_ok (entries partial) o) as [t Ht].
  { now rewrite lookup_entries. }
  rewrite Ht. apply assign_entries_obj in Ht.
  destruct Ht as (o' & -> & _ & _ & New).
  simpl. unfold own.
  rewrite (New (entries_NoDup partial) id entry); [reflexivity|].
  now rewrite lookup_entries.
Qed.

Lemma players_moved_replaces_entry_witness :
  get (players (snd (fst (handleServerMessage Scenario.p2_moved
                            Scenario.with_p2)))) "p2"
  = Ok (VObj [("x", Scenario.n 5)]).
Proof.
  apply (players_moved_replaces_entry Scenario.with_p2 Scenario.p2_moved
           [("p1", Scenario.player "p1" 100 100 "south");
            ("p2", Scenario.p2_before)]
           [("p2", VObj [("x", Scenario.n 5)])]); reflexivity.
Defined.

(** C7: a [players_moved] message leaves every player whose id is not a
    key of its partial map as it was, all fields included, and removes no
    player. *)
Theorem players_moved_keeps_other_players c message moved o :
  get message "action" = Ok (VStr "players_moved") ->
  get message "players" = Ok moved ->
  players c = VObj o ->
  exists o',
    players (snd (fst (handleServerMessage message c))) = VObj o' /\
    (forall id, lookup id (own_entries moved) = None ->
                lookup id o' = lookup id o) /\
    (forall id, lookup id o <> None -> lookup id o' <> None).
Proof.
  intros Ha Hp Hc.
  rewrite (players_moved_store _ _ _ Ha Hp), Hc.
  unfold Object_assign. simpl.
  destruct (nullish moved); [exists o; auto|].
  destruct (assign_entries (VObj o) (own_entries moved)) as [t| |] eqn:E;
    [|exists o; auto ..].
  apply assign_entries_obj in E. destruct E as (o' & -> & Frame & Keep & _).
  exists o'. auto.
Qed.

Lemma players_moved_keeps_other_players_witness :
  exists o',
    players (snd (fst (handleServerMessage Scenario.p2_moved
                         Scenario.with_p2))) = VObj o' /\
    lookup "p1" o' = Some (Scenario.player "p1" 100 100 "south").
Proof.
  destruct (players_moved_keeps_other_players Scenario.with_p2
              Scenario.p2_moved (VObj [("p2", VObj [("x", Scenario.n 5)])])
              [("p1", Scenario.player "p1" 100 100 "south");
               ("p2", Scenario.p2_before)])
    as (o' & E & Frame & _); try reflexivity.
  exists o'. split; [exact E|]. now rewrite Frame.
Defined.

(** ** The claims on messages *)

(** A value with a property [action] that reads as a string is a plain
    object, and its properties that are not inherited can be read. *)
Lemma message_is_object message a :
  get message "action" = Ok a -> exists o, message = VObj o.
Proof.
  destruct message; try discriminate; eauto.
Qed.

Lemma get_object_ok o k :
  mem k inherited = false -> exists v, get (VObj o) k = Ok v.
Proof.
  intros H. unfold get, own. destruct (lookup k o); [eauto|].
  rewrite H. eauto.
Qed.

(** C2, as stated, fails on malformed payloads: a payload that is not JSON
    makes [JSON.parse] raise out of the handler, and a [player_joined]
    without its avatar raises after the player has been stored. *)
Lemma malformed_payload_escapes :
  fst (fst (onmessage None Scenario.fresh)) = Throw SyntaxError /\
  fst (fst (onmessage (Some Scenario.lone_player) Scenario.fresh))
    = Throw TypeError /\
  players (snd (fst (onmessage (Some Scenario.lone_player) Scenario.fresh)))
    <> players Scenario.fresh.
Proof.
  split; [reflexivity|]. split; [reflexivity|].
  vm_compute. discriminate.
Qed.

(** C2, amended: a parsed message whose action is none of the four the
    client knows (a missing action included) is dropped: the handler
    returns normally, the client is unchanged (players, avatars,
    myPlayerId and all the rest), and nothing is painted or sent. *)
Theorem unknown_action_ignored c message action :
  get message "action" = Ok action ->
  Spec.known_action action = false ->
  onmessage (Some message) c = (Ok tt, c, []).
Proof.
  intros Ha Hk. unfold Spec.known_action in Hk.
  repeat (apply orb_false_iff in Hk; destruct Hk as [Hk ?]).
  unfold onmessage, handleServerMessage.
  unfold bind at 1. unfold lift at 1. rewrite Ha.
  repeat match goal with H : is_string _ _ = false |- _ =>
    rewrite H; clear H end.
  reflexivity.
Qed.

Lemma unknown_action_ignored_witness :
  onmessage (Some Scenario.ping) Scenario.fresh = (Ok tt, Scenario.fresh, []).
Proof.
  apply (unknown_action_ignored Scenario.fresh Scenario.ping (VStr "ping"));
    reflexivity.
Defined.

(** C8: a [join_game] answer whose [success] is false (or absent) is
    logged and changes nothing: the client, with myPlayerId, players,
    avatars and the pictures being loaded, is the one before, and the only
    effect is the [console.error]. *)
Theorem rejected_join_changes_nothing c message success :
  get message "action" = Ok (VStr "join_game") ->
  get message "success" = Ok success ->
  truthy success = false ->
  exists err,
    get message "error" = Ok err /\
    handleServerMessage message c
    = (Ok tt, c, [ConsoleError "Failed to join game:" (Some err)]).
Proof.
  intros Ha Hs Hf.
  destruct (message_is_object _ _ Ha) as [o ->].
  destruct (get_object_ok o "error") as [err He]; [reflexivity|].
  exists err. split; [exact He|].
  unfold handleServerMessage.
  unfold bind at 1. unfold lift at 1. rewrite Ha.
  change (is_string (VStr "join_game") "join_game") with true. cbv iota.
  unfold bind at 1. unfold lift at 1. rewrite Hs, Hf.
  unfold bind, lift, emit. rewrite He. reflexivity.
Qed.

Lemma rejected_join_changes_nothing_witness :
  exists err,
    get Scenario.rejected "error" = Ok err /\
    handleServerMessage Scenario.rejected Scenario.with_p2
    = (Ok tt, Scenario.with_p2,
       [ConsoleError "Failed to join game:" (Some err)]).
Proof.
  apply (rejected_join_changes_nothing Scenario.with_p2 Scenario.rejected
           (VBool false)); reflexivity.
Defined.

(** ** Numbers *)

Arguments Num.add : simpl never.
Arguments Num.sub : simpl never.
Arguments Num.div : simpl never.
Arguments Num.neg : simpl never.
Arguments Num.max : simpl never.
Arguments Num.min : simpl never.
Arguments Num.le : simpl never.
Arguments Num.ge : simpl never.

Lemma sub_Fin a b : exists q, Num.sub (Fin a) (Fin b) = Fin q /\ q == a - b.
Proof.
  exists (Qred (a + Qred (- b))). split; [reflexivity|].
  now rewrite !Qred_correct.
Qed.

Lemma add_Fin a b : exists q, Num.add (Fin a) (Fin b) = Fin q /\ q == a + b.
Proof.
  exists (Qred (a + b)). split; [reflexivity|]. apply Qred_correct.
Qed.

Lemma neg_Fin a : exists q, Num.neg (Fin a) = Fin q /\ q == - a.
Proof.
  exists (Qred (- a)). split; [reflexivity|]. apply Qred_correct.
Qed.

Lemma half_Fin a :
  exists q, Num.div (Fin a) (Num.of_Z 2) = Fin q /\ q == a / 2.
Proof.
  exists (Qred (a / 2)). split; [reflexivity|]. apply Qred_correct.
Qed.

Lemma le_Fin a b : Num.le (Fin a) (Fin b) = true <-> a <= b.
Proof. apply Qle_bool_iff. Qed.

Lemma le_Fin_false a b : Num.le (Fin a) (Fin b) = false <-> b < a.
Proof.
  unfold Num.le. rewrite <- not_true_iff_false, Qle_bool_iff.
  split; [apply Qnot_le_lt | apply Qlt_not_le].
Qed.

(** [Math.max(0, Math.min(v, hi))] on finite numbers. *)
Lemma max_min_Fin v hi :
  exists q,
    Num.max Num.zero (Num.min (Fin v) (Fin hi)) = Fin q /\
    q == Qmax 0 (Qmin v hi).
Proof.
  unfold Num.max, Num.min, Num.zero.
  destruct (Num.le (Fin v) (Fin hi)) eqn:E1.
  - apply le_Fin in E1.
    destruct (Num.le (Fin 0) (Fin v)) eqn:E2.
    + apply le_Fin in E2. exists v. split; [reflexivity|].
      rewrite (Q.min_l _ _ E1). now rewrite (Q.max_r _ _ E2).
    + apply le_Fin_false in E2. exists 0. split; [reflexivity|].
      rewrite (Q.min_l _ _ E1). rewrite Q.max_l; [reflexivity|].
      now apply Qlt_le_weak.
  - apply le_Fin_false in E1. apply Qlt_le_weak in E1.
    destruct (Num.le (Fin 0) (Fin hi)) eqn:E2.
    + apply le_Fin in E2. exists hi. split; [reflexivity|].
      rewrite (Q.min_r _ _ E1). now rewrite (Q.max_r _ _ E2).
    + apply le_Fin_false in E2. exists 0. split; [reflexivity|].
      rewrite (Q.min_r _ _ E1). rewrite Q.max_l; [reflexivity|].
      now apply Qlt_le_weak.
Qed.

(** With [lo <= hi], the clamp of the code is the clamp of the
    specification. *)
Lemma max_min_clamp v lo hi :
  lo <= hi -> Qmax lo (Qmin v hi) == Spec.clamp v lo hi.
Proof.
  intros L. unfold Spec.clamp.
  destruct (Qle_bool lo v) eqn:E1.
  - apply Qle_bool_iff in E1. destruct (Qle_bool v hi) eqn:E2.
    + apply Qle_bool_iff in E2. rewrite (Q.min_l _ _ E2).
      now rewrite (Q.max_r _ _ E1).
    + apply not_true_iff_false in E2. rewrite Qle_bool_iff in E2.
      apply Qnot_le_lt, Qlt_le_weak in E2. rewrite (Q.min_r _ _ E2).
      now rewrite (Q.max_r _ _ L).
  - apply not_true_iff_false in E1. rewrite Qle_bool_iff in E1.
    apply Qnot_le_lt, Qlt_le_weak in E1.
    apply Q.max_l. apply Q.min_le_iff. now left.
Qed.

Lemma max_min_range v lo hi :
  lo <= hi -> lo <= Qmax lo (Qmin v hi) <= hi.
Proof.
  intros L. split.
  - apply Q.le_max_l.
  - apply Q.max_lub; [assumption | apply Q.le_min_r].
Qed.

(** ** The camera *)

Lemma localPlayer_runs c k p :
  truthy (myPlayerId c) = true ->
  to_key (myPlayerId c) = Ok k ->
  get (players c) k = Ok p ->
  localPlayer c = (Ok p, c, []).
Proof.
  intros Ht Hk Hp. unfold localPlayer, bind, this, lift.
  rewrite Ht, Hk, Hp. reflexivity.
Qed.

(** What [updateCamera] computes when the local player is in the store. *)
Lemma updateCamera_runs c k p vx vy nx ny :
  truthy (myPlayerId c) = true ->
  to_key (myPlayerId c) = Ok k ->
  get (players c) k = Ok p ->
  truthy p = true ->
  get p "x" = Ok vx -> to_number vx = Ok nx ->
  get p "y" = Ok vy -> to_number vy = Ok ny ->
  let half n := Num.div n (Num.of_Z 2) in
  let ox := Num.max Num.zero
              (Num.min (Num.sub nx (half (canvas_width c)))
                       (Num.sub (worldWidth c) (canvas_width c))) in
  let oy := Num.max Num.zero
              (Num.min (Num.sub ny (half (canvas_height c)))
                       (Num.sub (worldHeight c) (canvas_height c))) in
  updateCamera c
  = (Ok tt,
     with_cameraY oy
       (with_cameraX ox
          (with_cameraY (Num.sub ny (half (canvas_height c)))
             (with_cameraX (Num.sub nx (half (canvas_width c))) c))),
     []).
Proof.
  intros Ht Hk Hp Hpt Hx Hnx Hy Hny. cbv zeta.
  unfold updateCamera. unfold bind at 1.
  rewrite (localPlayer_runs c k p Ht Hk Hp). rewrite Hpt. cbn [negb].
  unfold bind, lift, this, modify. rewrite Hx, Hnx, Hy, Hny. reflexivity.
Qed.

(** C3: with the local player in the store at a finite position, the camera
    is set, on each axis by the quantities of that axis alone, to
    [max(0, min(position - viewport/2, world - viewport))]; where the world
    is at least as large as the viewport on that axis this is
    [clamp(position - viewport/2, 0, world - viewport)] and it lies in
    [[0, world - viewport]]. *)
Theorem camera_offset_clamped c k p x y w h ww wh :
  truthy (myPlayerId c) = true ->
  to_key (myPlayerId c) = Ok k ->
  get (players c) k = Ok p ->
  truthy p = true ->
  get p "x" = Ok (VNum (Fin x)) ->
  get p "y" = Ok (VNum (Fin y)) ->
  canvas_width c = Fin w -> canvas_height c = Fin h ->
  worldWidth c = Fin ww -> worldHeight c = Fin wh ->
  exists c' ox oy,
    updateCamera c = (Ok tt, c', []) /\
    cameraX c' = Fin ox /\ cameraY c' = Fin oy /\
    ox == Qmax 0 (Qmin (x - w / 2) (ww - w)) /\
    oy == Qmax 0 (Qmin (y - h / 2) (wh - h)) /\
    (w <= ww ->
       ox == Spec.clamp (x - w / 2) 0 (ww - w) /\ 0 <= ox <= ww - w) /\
    (h <= wh ->
       oy == Spec.clamp (y - h / 2) 0 (wh - h) /\ 0 <= oy <= wh - h).
Proof.
  intros Ht Hk Hp Hpt Hx Hy Hw Hh Hww Hwh.
  pose proof (updateCamera_runs c k p _ _ (Fin x) (Fin y)
                Ht Hk Hp Hpt Hx eq_refl Hy eq_refl) as Run.
  cbv zeta in Run. rewrite Hw, Hh, Hww, Hwh in Run.
  destruct (half_Fin w) as (w2 & Ew2 & Qw2).
  destruct (half_Fin h) as (h2 & Eh2 & Qh2).
  rewrite Ew2, Eh2 in Run.
  destruct (sub_Fin x w2) as (vx & Evx & Qvx).
  destruct (sub_Fin y h2) as (vy & Evy & Qvy).
  destruct (sub_Fin ww w) as (hx & Ehx & Qhx).
  destruct (sub_Fin wh h) as (hy & Ehy & Qhy).
  rewrite Evx, Evy, Ehx, Ehy in Run.
  destruct (max_min_Fin vx hx) as (ox & Eox & Qox).
  destruct (max_min_Fin vy hy) as (oy & Eoy & Qoy).
  rewrite Eox, Eoy in Run.
  assert (ox == Qmax 0 (Qmin (x - w / 2) (ww - w))) as Fx
    by now rewrite Qox, Qvx, Qhx, Qw2.
  assert (oy == Qmax 0 (Qmin (y - h / 2) (wh - h))) as Fy
    by now rewrite Qoy, Qvy, Qhy, Qh2.
  eexists _, ox, oy. split; [exact Run|].
  split; [reflexivity|]. split; [reflexivity|].
  split; [exact Fx|]. split; [exact Fy|]. split.
  - intros L. assert (0 <= ww - w) as L0.
    { rewrite <- (Qplus_opp_r w). apply Qplus_le_l. exact L. }
    split.
    + rewrite Fx. now apply max_min_clamp.
    + rewrite Fx. now apply max_min_range.
  - intros L. assert (0 <= wh - h) as L0.
    { rewrite <- (Qplus_opp_r h). apply Qplus_le_l. exact L. }
    split.
    + rewrite Fy. now apply max_min_clamp.
    + rewrite Fy. now apply max_min_range.
Qed.

Example camera_near_origin :
  Scenario.offset (Scenario.at_position 100 100) = (Fin 0, Fin 0).
Proof. reflexivity. Qed.

Example camera_near_far_corner :
  Scenario.offset (Scenario.at_position 1900 1900) = (Fin 1200, Fin 1400).
Proof. reflexivity. Qed.

Example camera_in_the_middle :
  Scenario.offset (Scenario.at_position 1000 900) = (Fin 600, Fin 600).
Proof. reflexivity. Qed.

Lemma camera_offset_clamped_witness :
  exists c' ox oy,
    updateCamera (Scenario.at_position 1900 1900) = (Ok tt, c', []) /\
    cameraX c' = Fin ox /\ cameraY c' = Fin oy /\
    0 <= ox <= 2000 - 800 /\ 0 <= oy <= 2000 - 600.
Proof.
  destruct (camera_offset_clamped (Scenario.at_position 1900 1900)
              "p1" (Scenario.player "p1" 1900 1900 "south")
              1900 1900 800 600 2000 2000)
    as (c' & ox & oy & Run & Ex & Ey & _ & _ & HX & HY); try reflexivity.
  exists c', ox, oy. repeat split; try assumption.
  - apply HX. unfold Qle. simpl. lia.
  - apply HX. unfold Qle. simpl. lia.
  - apply HY. unfold Qle. simpl. lia.
  - apply HY. unfold Qle. simpl. lia.
Defined.

(** ** The sprite of a player *)

(** Split on an outcome, an option or a Boolean the hypothesis depends on. *)
Ltac split_match_in H :=
  match type of H with
  | context [match ?x with _ => _ end] =>
      lazymatch type of x with
      | outcome _ => idtac
      | option _ => idtac
      | bool => idtac
      end;
      destruct x eqn:?; cbv beta iota zeta in H
  end.

(** C4: for a player facing west the picture resolved is the very picture
    resolved for the same player facing east (same avatar, same frame
    index), and it is to be mirrored. *)
Theorem west_resolves_to_east_mirrored c west east img :
  get west "avatar" = get east "avatar" ->
  get west "animationFrame" = get east "animationFrame" ->
  get west "facing" = Ok (VStr "west") ->
  get east "facing" = Ok (VStr "east") ->
  resolveFrame east c = (Ok (Some (img, false)), c, []) ->
  resolveFrame west c = (Ok (Some (img, true)), c, []).
Proof.
  intros Hav Haf Hw He H.
  unfold resolveFrame, bind, lift, this, ret in *.
  rewrite Hav, Haf, Hw. rewrite He in H.
  change (is_string (VStr "west") "west") with true.
  change (is_string (VStr "east") "west") with false in H.
  cbv beta iota zeta in *.
  repeat (split_match_in H; try discriminate H).
  inversion H; subst. reflexivity.
Qed.

(** [drawAvatar] sees a player through six of its properties. *)
Lemma drawAvatar_fields p q :
  get p "x" = get q "x" ->
  get p "y" = get q "y" ->
  get p "avatar" = get q "avatar" ->
  get p "facing" = get q "facing" ->
  get p "animationFrame" = get q "animationFrame" ->
  get p "username" = get q "username" ->
  drawAvatar p = drawAvatar q.
Proof.
  intros Hx Hy Ha Hf Hn Hu.
  unfold drawAvatar, resolveFrame, bind, lift.
  rewrite Hx, Hy, Ha, Hf, Hn, Hu. reflexivity.
Qed.

(** The frame index is that of frame 0 as soon as [animationFrame] is
    falsy: the player is treated as the same player with
    [animationFrame: 0]. *)
Lemma falsy_animationFrame_as_zero p p0 af :
  get p "x" = get p0 "x" ->
  get p "y" = get p0 "y" ->
  get p "avatar" = get p0 "avatar" ->
  get p "facing" = get p0 "facing" ->
  get p "username" = get p0 "username" ->
  get p "animationFrame" = Ok af ->
  truthy af = false ->
  get p0 "animationFrame" = Ok (VNum Num.zero) ->
  resolveFrame p = resolveFrame p0 /\ drawAvatar p = drawAvatar p0.
Proof.
  intros Hx Hy Ha Hf Hu Hn Ht H0.
  unfold drawAvatar, resolveFrame, bind, lift.
  rewrite Hx, Hy, Ha, Hf, Hu, Hn, H0.
  cbv beta iota zeta. rewrite Ht.
  change (truthy (VNum Num.zero)) with false.
  split; reflexivity.
Qed.

(** In view and with its picture resolved, a player is painted, whatever
    becomes of its name afterwards. *)
Lemma drawAvatar_draws p vx vy img (flip : bool) c :
  get p "x" = Ok vx -> get p "y" = Ok vy ->
  isVisible vx vy c = (Ok true, c, []) ->
  resolveFrame p c = (Ok (Some (img, flip)), c, []) ->
  exists r before dx dy dw dh after,
    drawAvatar p c
    = (r, c, (before ++ DrawImage img dx dy dw dh :: after)%list).
Proof.
  intros Hx Hy Vis Res.
  pose proof Vis as W. unfold isVisible in W. unfold bind at 1 in W.
  destruct (worldToScreen vx vy c) as [[[screen| |] c1] t1] eqn:Ws;
    try discriminate W.
  assert (c1 = c /\ t1 = []) as [-> ->].
  { unfold worldToScreen, bind, lift, this, ret in Ws.
    destruct (to_number vx); try discriminate Ws.
    destruct (to_number vy); try discriminate Ws.
    inversion Ws; subst. auto. }
  unfold drawAvatar. unfold bind at 1. unfold lift at 1. rewrite Hx.
  unfold bind at 1. unfold lift at 1. rewrite Hy.
  unfold bind at 1. rewrite Vis. cbn [negb].
  unfold bind at 1. rewrite Ws.
  unfold bind at 1. rewrite Res.
  unfold bind, lift, this, emit.
  destruct (get p "username") as [username| |];
    [destruct (to_key username) as [text| |]|..];
    destruct flip; cbv beta iota zeta; cbn [app];
    first [ eexists _, [Save; Scale _ _], _, _, _, _, _; reflexivity
          | eexists _, [Save], _, _, _, _, _; reflexivity ].
Qed.

(** C10: when the [animationFrame] of a player is absent, undefined or
    otherwise falsy, the picture resolved for it is the one at index 0 of
    the frames loaded for its avatar and direction (east for west): it is
    not an error; and when that picture has arrived and the player is in
    view, [drawAvatar] paints the player with it. *)
Theorem falsy_animationFrame_resolves_frame_zero
    c p key k avatar dirs facing af dk fs :
  get p "avatar" = Ok key ->
  to_key key = Ok k ->
  get (avatars c) k = Ok avatar ->
  truthy avatar = true ->
  lookup k (avatarImages c) = Some dirs ->
  get p "facing" = Ok facing ->
  to_key (if is_string facing "west" then VStr "east" else facing) = Ok dk ->
  lookup dk dirs = Some fs ->
  get p "animationFrame" = Ok af ->
  truthy af = false ->
  resolveFrame p c
  = (Ok match nth 0 fs None with
        | Some img => Some (img, is_string facing "west")
        | None => None
        end, c, []) /\
  forall img vx vy,
    nth 0 fs None = Some img ->
    get p "x" = Ok vx -> get p "y" = Ok vy ->
    isVisible vx vy c = (Ok true, c, []) ->
    exists r before dx dy dw dh after,
      drawAvatar p c
      = (r, c, (before ++ DrawImage img dx dy dw dh :: after)%list).
Proof.
  intros Hkey Hk Hav Hat Hdirs Hf Hdk Hfs Hn Ht.
  assert (resolveFrame p c
          = (Ok match nth 0 fs None with
                | Some img => Some (img, is_string facing "west")
                | None => None
                end, c, [])) as Res.
  { unfold resolveFrame, bind, lift, this, ret, own.
    rewrite Hkey, Hk, Hav, Hat. cbn [negb]. cbv beta iota zeta.
    rewrite Hdirs, Hf, Hn, Ht. cbv beta iota zeta. rewrite Hdk, Hfs.
    change (to_key (VNum Num.zero)) with (@Ok string "0").
    unfold frame_at. change (array_index "0") with (Some 0%N).
    cbv beta iota zeta.
    destruct fs as [|[img|] r]; reflexivity. }
  split; [exact Res|].
  intros img vx vy Himg Hx Hy Vis. rewrite Himg in Res.
  exact (drawAvatar_draws p vx vy img _ c Hx Hy Vis Res).
Qed.

(** ** Culling *)

(** On finite numbers [isVisible] is the four comparisons, bounds
    included. *)
Lemma isVisible_finite c x y cx cy s w h :
  cameraX c = Fin cx -> cameraY c = Fin cy ->
  avatarSize c = Fin s ->
  canvas_width c = Fin w -> canvas_height c = Fin h ->
  exists b,
    isVisible (VNum (Fin x)) (VNum (Fin y)) c = (Ok b, c, []) /\
    (b = true <->
     - s <= x - cx /\ x - cx <= w + s /\ - s <= y - cy /\ y - cy <= h + s).
Proof.
  intros Hcx Hcy Hs Hw Hh.
  unfold isVisible, worldToScreen, bind, lift, this, ret, to_number.
  rewrite Hcx, Hcy, Hs, Hw, Hh. cbv beta iota zeta. cbn [fst snd].
  destruct (sub_Fin x cx) as (sx & Esx & Qsx).
  destruct (sub_Fin y cy) as (sy & Esy & Qsy).
  destruct (neg_Fin s) as (ns & Ens & Qns).
  destruct (add_Fin w s) as (ws & Ews & Qws).
  destruct (add_Fin h s) as (hs & Ehs & Qhs).
  rewrite Esx, Esy, Ens, Ews, Ehs. unfold Num.ge.
  eexists. split; [reflexivity|].
  rewrite !andb_true_iff, !le_Fin, Qsx, Qsy, Qns, Qws, Qhs. tauto.
Qed.

Lemma player_is_object p v : get p "x" = Ok v -> exists o, p = VObj o.
Proof. destruct p; try discriminate; eauto. Qed.



(** The first half stops where the program rounds.  With the camera at
    [400.07 - 400] and a player at [848.07] (the doubles nearest to these
    decimals), the exact position on the screen is [848 + 2^-44], beyond
    the margin of a canvas 800 wide; it is no double, and the program
    compares a rounded position with the margin. *)
Example position_met_by_rounding :
  let x := 7459702609343939 # 8796093022208 in
  let cx := 1231453023109 # 17592186044416 in
  Num.double x = true /\ Num.double cx = true /\
  x - cx == 848 + (1 # 17592186044416) /\
  Num.double (x - cx) = false.
Proof. repeat split. Qed.

(** At the margin, with its picture loaded, the player is painted. *)
Example drawn_at_the_margin :
  snd (drawAvatar (Scenario.player "p4" (-48) 0 "east") Scenario.loaded)
  = [Save;
     DrawImage Scenario.east0 (Fin (-72)) (Fin (-96)) (Fin 48) (Fin 96);
     Restore; FillStyle "white"; StrokeStyle "black"; LineWidth (Fin 2);
     Font "14px Arial"; TextAlign "center";
     StrokeText "p4" (Fin (-48)) (Fin (-101));
     FillText "p4" (Fin (-48)) (Fin (-101))].
Proof. reflexivity. Qed.

Lemma west_resolves_to_east_mirrored_witness :
  resolveFrame (Scenario.player "p1" 100 100 "west") Scenario.loaded
  = (Ok (Some (Scenario.east0, true)), Scenario.loaded, []).
Proof.
  apply (west_resolves_to_east_mirrored Scenario.loaded
           (Scenario.player "p1" 100 100 "west")
           (Scenario.player "p1" 100 100 "east")); reflexivity.
Defined.

Lemma falsy_animationFrame_resolves_frame_zero_witness :
  resolveFrame (Scenario.frameless 100 100) Scenario.loaded
  = (Ok (Some (Scenario.south0, false)), Scenario.loaded, []) /\
  exists r before dx dy dw dh after,
    drawAvatar (Scenario.frameless 100 100) Scenario.loaded
    = (r, Scenario.loaded,
       (before ++ DrawImage Scenario.south0 dx dy dw dh :: after)%list).
Proof.
  destruct (falsy_animationFrame_resolves_frame_zero Scenario.loaded
              (Scenario.frameless 100 100) (VStr "hero") "hero" Scenario.hero
              [("north", []); ("south", [Some Scenario.south0]);
               ("east", [Some Scenario.east0])]
              (VStr "south") VUndefined "south" [Some Scenario.south0])
    as [Resolved Drawn]; try reflexivity.
  split; [exact Resolved|].
  apply (Drawn Scenario.south0 (Scenario.n 100) (Scenario.n 100));
    reflexivity.
Defined.

(** A player without [animationFrame] is painted like the same player
    with [animationFrame: 0]. *)
Example frameless_player_drawn :
  drawAvatar (Scenario.frameless 100 100) Scenario.loaded
  = drawAvatar (Scenario.player "p3" 100 100 "south") Scenario.loaded /\
  In (DrawImage Scenario.south0 (Fin 76) (Fin 4) (Fin 48) (Fin 96))
     (snd (drawAvatar (Scenario.frameless 100 100) Scenario.loaded)).
Proof. split; [reflexivity|]. vm_compute. tauto. Qed.

(** ** The keyboard *)

(** C5, as stated, fails before the socket is open: a key transition with
    a movement key held then emits no intent at all. *)
Lemma no_intent_before_socket_opens :
  socket Scenario.fresh = Some CONNECTING /\
  handle (KeyDown "ArrowLeft") Scenario.fresh
  = (Ok tt, with_keysPressed [("ArrowLeft", true)] Scenario.fresh, []).
Proof. split; reflexivity. Qed.

(** C5, amended: on every key transition while the socket is open, exactly
    one message is sent: the move chosen among the movement keys held by
    the precedence up > down > left > right, or a stop when none is
    held. *)
Theorem one_intent_per_key_transition c code (down : bool) :
  socket c = Some OPEN ->
  code <> "__proto__" ->
  let keys := update code down (keysPressed c) in
  handle (if down then KeyDown code else KeyUp code) c
  = (Ok tt, with_keysPressed keys c,
     [Send (Spec.intent (held keys "ArrowUp") (held keys "ArrowDown")
              (held keys "ArrowLeft") (held keys "ArrowRight"))]).
Proof.
  intros Hs Hc keys. apply String.eqb_neq in Hc.
  assert (handle (if down then KeyDown code else KeyUp code) c
          = onkey code down c) as -> by now destruct down.
  unfold onkey, bind, this, lift, put, modify. rewrite Hc.
  cbv beta iota zeta. fold keys.
  unfold handleMovement, socket_send, bind, this, emit.
  change (socket (with_keysPressed keys c)) with (socket c).
  rewrite Hs. cbv beta iota zeta.
  change (socket (with_keysPressed keys c)) with (socket c).
  change (keysPressed (with_keysPressed keys c)) with keys.
  unfold Spec.intent.
  destruct (held keys "ArrowUp"), (held keys "ArrowDown"),
    (held keys "ArrowLeft"), (held keys "ArrowRight");
    cbv beta iota zeta;
    change (socket (with_keysPressed keys c)) with (socket c);
    rewrite Hs; reflexivity.
Qed.

Lemma one_intent_per_key_transition_witness :
  handle (KeyDown "ArrowRight")
    (with_keysPressed [("ArrowLeft", true)] Scenario.with_p2)
  = (Ok tt,
     with_keysPressed [("ArrowLeft", true); ("ArrowRight", true)]
       (with_keysPressed [("ArrowLeft", true)] Scenario.with_p2),
     [Send (VObj [("action", VStr "move"); ("direction", VStr "left")])]).
Proof.
  apply (one_intent_per_key_transition
           (with_keysPressed [("ArrowLeft", true)] Scenario.with_p2)
           "ArrowRight" true); [reflexivity | discriminate].
Defined.

(** ArrowLeft and ArrowRight held together: [left], once per transition;
    all keys released: [stop]. *)
Example left_and_right_held :
  snd (run [KeyDown "ArrowLeft"; KeyDown "ArrowRight"; KeyUp "ArrowLeft";
            KeyUp "ArrowRight"] Scenario.with_p2)
  = [Send (VObj [("action", VStr "move"); ("direction", VStr "left")]);
     Send (VObj [("action", VStr "move"); ("direction", VStr "left")]);
     Send (VObj [("action", VStr "move"); ("direction", VStr "right")]);
     Send (VObj [("action", VStr "stop")])].
Proof. reflexivity. Qed.

(** ** Loading the pictures of an avatar *)

Lemma keeps_loading_refl k c : keeps_loading k c c.
Proof. intros H. exact H. Qed.

Lemma keeps_loading_trans k a b c :
  keeps_loading k a b -> keeps_loading k b c -> keeps_loading k a c.
Proof. unfold keeps_loading. auto. Qed.

Lemma keeps_loading_same k c c' :
  avatarImages c' = avatarImages c -> keeps_loading k c c'.
Proof. unfold keeps_loading, loading. now intros ->. Qed.

Lemma keeps_loading_update k k' dirs c :
  keeps_loading k c (with_avatarImages (update k' dirs (avatarImages c)) c).
Proof. intros H. now apply lookup_update_some. Qed.

Section Loading.
Variable k : string.

Let R := keeps_loading k.
Let R_refl := keeps_loading_refl k.
Let R_trans := keeps_loading_trans k.

Local Hint Resolve keeps_loading_refl : stable.

Lemma loading_set_frames key direction fs :
  stable R (set_frames key direction fs).
Proof.
  intros c. unfold set_frames, bind, this, lift, throw, put, modify.
  destruct (own (avatarImages c) key) as [[dirs|]| |]; try apply R_refl.
  destruct (String.eqb direction "__proto__"); try apply R_refl.
  destruct (String.eqb key "__proto__"); try apply R_refl.
  apply keeps_loading_update.
Qed.

Lemma loading_loadFrame key direction src i :
  stable R (loadFrame key direction src i).
Proof. unfold loadFrame. stable_method. Qed.

Lemma loading_loadDirection avatar key direction :
  stable R (loadDirection avatar key direction).
Proof.
  pose proof (loading_set_frames key direction []).
  pose proof (loading_loadFrame key direction).
  unfold loadDirection. stable_method.
Qed.

Lemma loading_loadAvatarImage avatar : stable R (loadAvatarImage avatar).
Proof.
  intros c. unfold loadAvatarImage.
  unfold bind at 1. unfold lift at 1.
  destruct (get avatar "name") as [name| |]; try apply R_refl.
  unfold bind at 1. unfold lift at 1.
  destruct (to_key name) as [key| |]; try apply R_refl.
  unfold bind at 1. unfold this at 1.
  destruct (present (avatarImages c) key); try apply R_refl.
  unfold bind at 1. unfold lift at 1. unfold put.
  destruct (String.eqb key "__proto__"); try apply R_refl.
  unfold bind at 1. unfold modify at 1.
  pose proof (stable_forEach R R_refl R_trans
                (fun direction (_ : nat) => loadDirection avatar key direction)
                directions
                (fun d _ => loading_loadDirection avatar key d)
                (with_avatarImages (update key [] (avatarImages c)) c)) as S.
  destruct (forEach _ directions _) as [[r c2] t2]. simpl in *.
  eapply R_trans; [apply keeps_loading_update | exact S].
Qed.

Lemma loading_loadAvatarImages : stable R loadAvatarImages.
Proof.
  pose proof loading_loadAvatarImage.
  unfold loadAvatarImages. stable_method.
Qed.

Let R_cameraX : forall n c, R c (with_cameraX n c) :=
  fun n c => keeps_loading_refl k c.
Let R_cameraY : forall n c, R c (with_cameraY n c) :=
  fun n c => keeps_loading_refl k c.

Lemma loading_handleServerMessage message :
  stable R (handleServerMessage message).
Proof.
  pose proof loading_loadAvatarImage.
  pose proof loading_loadAvatarImages.
  pose proof (stable_updateCamera R R_refl R_trans R_cameraX R_cameraY).
  pose proof (stable_updateUI R R_refl R_trans).
  pose proof (stable_draw R R_refl R_trans).
  unfold handleServerMessage. stable_method.
Qed.

Lemma loading_frame_onload l width height :
  stable R (frame_onload l width height).
Proof.
  pose proof loading_set_frames.
  pose proof (stable_draw R R_refl R_trans).
  unfold frame_onload. stable_method.
Qed.

Lemma loading_handleMovement : stable R handleMovement.
Proof. unfold handleMovement, socket_send. stable_method. Qed.

Lemma loading_handle e : stable R (handle e).
Proof.
  pose proof loading_handleServerMessage.
  pose proof loading_frame_onload.
  pose proof loading_handleMovement.
  pose proof (stable_updateCamera R R_refl R_trans R_cameraX R_cameraY).
  pose proof (stable_draw R R_refl R_trans).
  destruct e;
    unfold handle, onmessage, onkey, setupCanvas, updateConnectionStatus,
      joinGame, socket_send;
    stable_method.
Qed.

(** Through a whole session. *)
Lemma loading_run es : forall c, R c (fst (run es c)).
Proof.
  induction es as [|e es IH]; intros c; simpl.
  - apply R_refl.
  - pose proof (loading_handle e c) as S.
    destruct (handle e c) as [[r c1] t1]. simpl in S.
    specialize (IH c1). destruct (run es c1) as [c2 t2]. simpl in *.
    eapply R_trans; eassumption.
Qed.

End Loading.

Lemma add_loads_app l1 l2 c :
  add_loads (l1 ++ l2) c = add_loads l2 (add_loads l1 c).
Proof. apply fold_left_app. Qed.

Lemma add_loads_with_avatarImages a ls : forall c,
  with_avatarImages a (add_loads ls c) = add_loads ls (with_avatarImages a c).
Proof.
  induction ls as [|l ls IH]; intros c; simpl; [reflexivity|].
  now rewrite IH.
Qed.

Lemma add_loads_fields ls : forall c,
  onloads (add_loads ls c) = (onloads c ++ ls)%list /\
  images_made (add_loads ls c) = (images_made c + length ls)%nat /\
  avatarImages (add_loads ls c) = avatarImages c.
Proof.
  induction ls as [|l ls IH]; intros c; simpl.
  - rewrite app_nil_r. auto.
  - destruct (IH (with_image [l] c)) as (A & B & C).
    rewrite A, B, C. simpl. rewrite <- app_assoc. simpl.
    repeat split. lia.
Qed.

Lemma printable_converts v : printable v = true -> exists s, to_key v = Ok s.
Proof. unfold printable. destruct (to_key v); try discriminate; eauto. Qed.

Lemma forEach_loadFrame k d srcs : forall i c,
  forallb printable srcs = true ->
  forEach_from i (loadFrame k d) srcs c
  = (Ok tt,
     add_loads (Spec.loads_from k d i (images_made c) srcs) c,
     map Spec.started (Spec.loads_from k d i (images_made c) srcs)).
Proof.
  induction srcs as [|src r IH]; intros i c P; simpl; [reflexivity|].
  simpl in P. apply andb_true_iff in P as [Psrc Pr].
  destruct (printable_converts src Psrc) as [text Conv].
  unfold bind at 1. unfold loadFrame at 1, bind, this, modify, lift, emit.
  rewrite Conv. cbv beta iota zeta. rewrite (IH _ _ Pr). reflexivity.
Qed.

(** Whatever the sources, the loop registers the loads of those it
    reached: all of them, or those up to the first that has no conversion
    to a string. *)
Lemma forEach_loadFrame_reached k d srcs : forall i c,
  exists reached,
    snd (fst (forEach_from i (loadFrame k d) srcs c))
    = add_loads (Spec.loads_from k d i (images_made c) reached) c.
Proof.
  induction srcs as [|src r IH]; intros i c; simpl.
  - exists []. reflexivity.
  - unfold bind at 1. unfold loadFrame at 1, bind, this, modify, lift, emit.
    set (c1 := with_image [mkLoad k d i (images_made c) src] c).
    destruct (to_key src) as [text| |];
      try (exists [src]; reflexivity).
    cbv beta iota zeta. destruct (IH (S i) c1) as [reached E].
    exists (src :: reached).
    destruct (forEach_from (S i) (loadFrame k d) r c1) as [[r' c2] t2].
    cbn [fst snd] in *. exact E.
Qed.

Lemma loadDirection_runs avatar k d fs srcs dirs c :
  get avatar "frames" = Ok fs ->
  get fs d = Ok (VArr srcs) ->
  lookup k (avatarImages c) = Some dirs ->
  String.eqb d "__proto__" = false ->
  String.eqb k "__proto__" = false ->
  forallb printable srcs = true ->
  let new := Spec.loads_from k d 0 (images_made c) srcs in
  loadDirection avatar k d c
  = (Ok tt,
     add_loads new
       (with_avatarImages (update k (update d [] dirs) (avatarImages c)) c),
     map Spec.started new).
Proof.
  intros Hfs Hd Hk Nd Nk P new.
  unfold loadDirection. unfold bind at 1.
  unfold set_frames, bind, this, lift, own, put, modify.
  rewrite Hk, Nd, Nk, Hfs, Hd. cbv beta iota zeta.
  unfold forEach. rewrite (forEach_loadFrame _ _ _ _ _ P). reflexivity.
Qed.

Lemma update_update {A} k (v w : A) o :
  update k v (update k w o) = update k v o.
Proof.
  induction o as [|[k' x] r IH]; simpl.
  - now rewrite String.eqb_refl.
  - destruct (String.eqb k k') eqn:E; simpl.
    + now rewrite String.eqb_refl.
    + now rewrite E, IH.
Qed.

Lemma not_inherited_not_proto k :
  mem k inherited = false -> String.eqb k "__proto__" = false.
Proof.
  intros H. destruct (String.eqb_spec k "__proto__") as [->|]; auto.
Qed.

Lemma loads_from_length k d srcs : forall i id,
  length (Spec.loads_from k d i id srcs) = length srcs.
Proof. induction srcs; intros; simpl; auto. Qed.

Lemma loadDirection_scheduled avatar k d fs srcs dirs a ls c :
  get avatar "frames" = Ok fs ->
  get fs d = Ok (VArr srcs) ->
  lookup k a = Some dirs ->
  String.eqb d "__proto__" = false ->
  String.eqb k "__proto__" = false ->
  forallb printable srcs = true ->
  let new :=
    Spec.loads_from k d 0 (images_made c + length ls) srcs in
  loadDirection avatar k d (scheduled a ls c)
  = (Ok tt,
     scheduled (update k (update d [] dirs) a) (ls ++ new) c,
     map Spec.started new).
Proof.
  intros Hfs Hd Hk Nd Nk P new. unfold scheduled.
  destruct (add_loads_fields ls (with_avatarImages a c)) as (_ & Im & Av).
  simpl in Im, Av.
  rewrite (loadDirection_runs avatar k d fs srcs dirs); auto.
  - rewrite Im, Av. fold new.
    rewrite add_loads_with_avatarImages, add_loads_app. reflexivity.
  - now rewrite Av.
Qed.

(** The first [loadAvatarImage] for a key: one picture and one load for
    each source of each direction. *)
Lemma loadAvatarImage_first avatar name k fs north south east c :
  get avatar "name" = Ok name ->
  to_key name = Ok k ->
  present (avatarImages c) k = false ->
  get avatar "frames" = Ok fs ->
  get fs "north" = Ok (VArr north) ->
  get fs "south" = Ok (VArr south) ->
  get fs "east" = Ok (VArr east) ->
  forallb printable north = true ->
  forallb printable south = true ->
  forallb printable east = true ->
  let new := Spec.schedule k (images_made c) north south east in
  loadAvatarImage avatar c
  = (Ok tt,
     scheduled
       (update k [("north", []); ("south", []); ("east", [])]
          (avatarImages c))
       new c,
     map Spec.started new).
Proof.
  intros Hn Hk Hown Hfs HN HS HE PN PS PE new.
  assert (String.eqb k "__proto__" = false) as Nk.
  { apply not_inherited_not_proto. unfold present in Hown.
    now destruct (lookup k (avatarImages c)). }
  unfold loadAvatarImage, bind at 1 2 3 4 5, lift, this, put, modify.
  rewrite Hn, Hk. cbv beta iota zeta. rewrite Hown, Nk.
  cbv beta iota zeta.
  change (with_avatarImages (update k [] (avatarImages c)) c)
    with (scheduled (update k [] (avatarImages c)) [] c).
  unfold forEach, directions. cbn [forEach_from].
  unfold bind at 1.
  rewrite (loadDirection_scheduled avatar k "north" fs north []);
    auto using lookup_update_same.
  unfold bind at 1.
  rewrite (loadDirection_scheduled avatar k "south" fs south [("north", [])]);
    auto using lookup_update_same.
  unfold bind at 1.
  rewrite (loadDirection_scheduled avatar k "east" fs east
             [("north", []); ("south", [])]);
    auto using lookup_update_same.
  rewrite !update_update. cbn [update String.eqb Ascii.eqb Bool.eqb].
  rewrite !length_app, !loads_from_length. cbn [length app ret].
  cbn [Nat.add]. rewrite Nat.add_0_r, Nat.add_assoc, app_nil_r.
  unfold new, Spec.schedule. rewrite !map_app, <- !app_assoc.
  reflexivity.
Qed.

Lemma loads_from_triples k d srcs : forall i id,
  map Spec.triple (Spec.loads_from k d i id srcs)
  = map (fun j => (k, d, j)) (seq i (length srcs)).
Proof.
  induction srcs as [|src r IH]; intros i id; simpl; [reflexivity|].
  now rewrite IH.
Qed.

Lemma loads_from_NoDup k d srcs i id :
  NoDup (map Spec.triple (Spec.loads_from k d i id srcs)).
Proof.
  rewrite loads_from_triples. apply Injective_map_NoDup.
  - intros a b E. now inversion E.
  - apply seq_NoDup.
Qed.

Lemma loads_from_direction k d srcs i id t :
  In t (map Spec.triple (Spec.loads_from k d i id srcs)) -> snd (fst t) = d.
Proof.
  rewrite loads_from_triples, in_map_iff. now intros (j & <- & _).
Qed.

Lemma three_directions_NoDup k a b c north south east :
  NoDup (map Spec.triple
           (Spec.loads_from k "north" 0 a north ++
            Spec.loads_from k "south" 0 b south ++
            Spec.loads_from k "east" 0 c east)).
Proof.
  rewrite !map_app.
  apply NoDup_app; [apply loads_from_NoDup | |].
  - apply NoDup_app; [apply loads_from_NoDup | apply loads_from_NoDup |].
    intros t I1 I2. apply loads_from_direction in I1, I2.
    rewrite I1 in I2. discriminate.
  - intros t I1 I2. apply loads_from_direction in I1.
    apply in_app_or in I2.
    destruct I2 as [I2|I2]; apply loads_from_direction in I2;
      rewrite I1 in I2; discriminate.
Qed.

(** No (avatar, direction, index) occurs twice in a schedule. *)
Lemma schedule_NoDup k first north south east :
  NoDup (map Spec.triple (Spec.schedule k first north south east)).
Proof. apply three_directions_NoDup. Qed.

Lemma loadAvatarImage_again avatar name k c :
  get avatar "name" = Ok name ->
  to_key name = Ok k ->
  loading k c ->
  loadAvatarImage avatar c = (Ok tt, c, []).
Proof.
  intros Hn Hk L. unfold loading in L.
  unfold loadAvatarImage, bind, lift, this, present.
  rewrite Hn, Hk. destruct (lookup k (avatarImages c)); [reflexivity|].
  now elim L.
Qed.

Lemma loadAvatarImage_begins avatar name k c :
  get avatar "name" = Ok name ->
  to_key name = Ok k ->
  mem k inherited = false ->
  loading k (snd (fst (loadAvatarImage avatar c))).
Proof.
  intros Hn Hk Hi. unfold loadAvatarImage.
  unfold bind at 1. unfold lift at 1. rewrite Hn.
  unfold bind at 1. unfold lift at 1. rewrite Hk.
  unfold bind at 1. unfold this at 1. unfold present.
  destruct (lookup k (avatarImages c)) eqn:E.
  - simpl. unfold loading. now rewrite E.
  - rewrite Hi. unfold bind at 1. unfold lift at 1. unfold put.
    rewrite (not_inherited_not_proto k Hi).
    unfold bind at 1. unfold modify at 1.
    pose proof (stable_forEach (keeps_loading k) (keeps_loading_refl k)
                  (keeps_loading_trans k)
                  (fun direction (_ : nat) => loadDirection avatar k direction)
                  directions
                  (fun d _ => loading_loadDirection k avatar k d)
                  (with_avatarImages (update k [] (avatarImages c)) c)) as S.
    destruct (forEach _ directions _) as [[r c2] t2]. simpl in *.
    apply S. unfold loading. simpl. now rewrite lookup_update_same.
Qed.

(** ** No load twice in a session *)

Lemma keeps_distinct_refl c : keeps_distinct c c.
Proof. intros H. exact H. Qed.

Lemma keeps_distinct_trans a b c :
  keeps_distinct a b -> keeps_distinct b c -> keeps_distinct a c.
Proof. unfold keeps_distinct. auto. Qed.

(** A step that registers no load and drops no entry. *)
Lemma keeps_distinct_quiet c c' :
  onloads c' = onloads c ->
  (forall k, loading k c -> loading k c') ->
  keeps_distinct c c'.
Proof.
  intros Ho Hl [ND Own]. split; rewrite Ho; auto.
Qed.

Lemma loads_from_key k d srcs i id l :
  In l (Spec.loads_from k d i id srcs) -> ld_key l = k.
Proof.
  revert i id. induction srcs as [|src r IH]; intros i id; simpl.
  - tauto.
  - intros [<-|I]; [reflexivity | eauto].
Qed.

(** The client a sequence leaves is the one its first part leaves, or one
    the second part leaves from there. *)
Lemma bind_client {A B} (m : M A) (f : A -> M B) c :
  let c1 := snd (fst (m c)) in
  snd (fst (bind m f c)) = c1 \/
  exists a, snd (fst (bind m f c)) = snd (fst (f a c1)).
Proof.
  unfold bind. destruct (m c) as [[[a|e|] c1] t1]; simpl; auto.
  right. exists a. now destruct (f a c1) as [[r c2] t2].
Qed.

(** Whatever its outcome, [loadDirection] registers the loads of a list
    of sources of its direction (none if it fails) and drops no entry. *)
Lemma loadDirection_onloads avatar k d c :
  let c' := snd (fst (loadDirection avatar k d c)) in
  (exists id srcs,
     onloads c' = (onloads c ++ Spec.loads_from k d 0 id srcs)%list) /\
  (forall k', loading k' c -> loading k' c').
Proof.
  assert (forall c0 : client,
            (exists id srcs,
               onloads c0 = (onloads c0 ++ Spec.loads_from k d 0 id srcs)%list))
    as Nothing.
  { intros c0. exists 0%nat, []. simpl. now rewrite app_nil_r. }
  cbv zeta. unfold loadDirection. unfold bind at 1.
  pose proof (loading_set_frames) as SF.
  unfold set_frames, bind, this, lift, throw, put, modify.
  destruct (own (avatarImages c) k) as [[dirs|]| |]; simpl; auto.
  destruct (String.eqb d "__proto__"); simpl; auto.
  destruct (String.eqb k "__proto__"); simpl; auto.
  set (c0 := with_avatarImages _ c).
  assert (forall k', loading k' c -> loading k' c0) as Mono.
  { intros k' L. unfold c0. now apply keeps_loading_update. }
  destruct (get avatar "frames") as [fs| |]; simpl; auto.
  destruct (get fs d) as [sources| |]; simpl; auto.
  destruct sources; simpl; auto.
  unfold forEach.
  destruct (forEach_loadFrame_reached k d l 0 c0) as [reached E].
  destruct (forEach_from 0 (loadFrame k d) l c0) as [[r c'] t].
  cbn [fst snd] in *. subst c'.
  destruct (add_loads_fields
              (Spec.loads_from k d 0 (images_made c0) reached) c0)
    as (O & _ & Av).
  change (images_made c0) with (images_made c) in O, Av.
  change (onloads c0) with (onloads c) in O.
  split.
  - exists (images_made c), reached. exact O.
  - intros k' L. apply Mono in L. unfold loading in *.
    change (images_made c0) with (images_made c). now rewrite Av.
Qed.

Lemma directions_onloads avatar k c :
  let c' :=
    snd (fst (forEach (fun d (_ : nat) => loadDirection avatar k d)
                directions c)) in
  (exists a b e north south east,
     onloads c'
     = (onloads c ++ Spec.loads_from k "north" 0 a north ++
        Spec.loads_from k "south" 0 b south ++
        Spec.loads_from k "east" 0 e east)%list) /\
  (forall k', loading k' c -> loading k' c').
Proof.
  cbv zeta. unfold forEach, directions. cbn [forEach_from].
  destruct (loadDirection_onloads avatar k "north" c)
    as ((a & north & On) & Ln).
  destruct (bind_client (loadDirection avatar k "north")
              (fun _ => loadDirection avatar k "south" ;;
                        loadDirection avatar k "east" ;; ret tt) c)
    as [E|[u E]]; rewrite E; clear E.
  { split; [|exact Ln].
    exists a, 0%nat, 0%nat, north, [], []. rewrite On. simpl.
    now rewrite app_nil_r. }
  set (c1 := snd (fst (loadDirection avatar k "north" c))) in *.
  destruct (loadDirection_onloads avatar k "south" c1)
    as ((b & south & Os) & Ls).
  destruct (bind_client (loadDirection avatar k "south")
              (fun _ => loadDirection avatar k "east" ;; ret tt) c1)
    as [E|[v E]]; rewrite E; clear E.
  { split; [|now auto].
    exists a, b, 0%nat, north, south, []. rewrite Os, On. simpl.
    now rewrite app_nil_r, <- app_assoc. }
  set (c2 := snd (fst (loadDirection avatar k "south" c1))) in *.
  destruct (loadDirection_onloads avatar k "east" c2)
    as ((e & east & Oe) & Le).
  assert (snd (fst ((loadDirection avatar k "east" ;; ret tt) c2))
          = snd (fst (loadDirection avatar k "east" c2))) as ->.
  { unfold bind, ret.
    now destruct (loadDirection avatar k "east" c2) as [[[[]| |] c3] t3]. }
  split; [|now auto].
  exists a, b, e, north, south, east. rewrite Oe, Os, On.
  now rewrite <- !app_assoc.
Qed.

Lemma distinct_loadAvatarImage avatar :
  stable keeps_distinct (loadAvatarImage avatar).
Proof.
  intros c. unfold loadAvatarImage.
  unfold bind at 1. unfold lift at 1.
  destruct (get avatar "name") as [name| |]; try apply keeps_distinct_refl.
  unfold bind at 1. unfold lift at 1.
  destruct (to_key name) as [k| |]; try apply keeps_distinct_refl.
  unfold bind at 1. unfold this at 1. unfold present.
  destruct (lookup k (avatarImages c)) eqn:Fresh;
    try apply keeps_distinct_refl.
  destruct (mem k inherited); try apply keeps_distinct_refl.
  unfold bind at 1. unfold lift at 1. unfold put.
  destruct (String.eqb k "__proto__"); try apply keeps_distinct_refl.
  unfold bind at 1. unfold modify at 1. cbv beta iota zeta.
  match goal with
  | |- context [forEach ?f directions ?x] =>
      set (c0 := x); set (loop := forEach f directions c0)
  end.
  pose proof (directions_onloads avatar k c0) as D. cbv zeta in D.
  change (forEach _ directions c0) with loop in D.
  destruct D as ((a & b & e & north & south & east & O) & Mono).
  clearbody loop. destruct loop as [[r c'] t]. cbn [fst snd] in *.
  change (onloads c0) with (onloads c) in O.
  assert (loading k c') as Lk.
  { apply Mono. unfold loading, c0. simpl. now rewrite lookup_update_same. }
  assert (forall k', loading k' c -> loading k' c') as Mono'.
  { intros k' L. apply Mono. unfold c0. now apply keeps_loading_update. }
  intros [ND Own]. split.
  - rewrite O, map_app. apply NoDup_app; auto.
    + apply three_directions_NoDup.
    + intros t0 Old New. apply in_map_iff in Old, New.
      destruct Old as (lo & <- & Io). destruct New as (ln & Et & In').
      assert (ld_key ln = k) as Kn.
      { apply in_app_or in In'. destruct In' as [I|I];
          [now apply loads_from_key in I|].
        apply in_app_or in I. destruct I as [I|I];
          now apply loads_from_key in I. }
      apply Own in Io. unfold loading in Io.
      assert (ld_key lo = ld_key ln) as Ek by (now inversion Et).
      rewrite Ek, Kn, Fresh in Io. now apply Io.
  - intros l I. rewrite O in I. apply in_app_or in I.
    destruct I as [I|I]; [now auto|].
    assert (ld_key l = k) as ->; [|exact Lk].
    apply in_app_or in I. destruct I as [I|I];
      [now apply loads_from_key in I|].
    apply in_app_or in I. destruct I as [I|I];
      now apply loads_from_key in I.
Qed.

Section Distinct.

Let R := keeps_distinct.
Let R_refl := keeps_distinct_refl.
Let R_trans := keeps_distinct_trans.
Let R_cameraX : forall n c, R c (with_cameraX n c) :=
  fun n c => keeps_distinct_refl c.
Let R_cameraY : forall n c, R c (with_cameraY n c) :=
  fun n c => keeps_distinct_refl c.

Local Hint Resolve keeps_distinct_refl : stable.

Lemma distinct_set_frames key direction fs :
  stable R (set_frames key direction fs).
Proof.
  intros c. unfold set_frames, bind, this, lift, throw, put, modify.
  destruct (own (avatarImages c) key) as [[dirs|]| |]; try apply R_refl.
  destruct (String.eqb direction "__proto__"); try apply R_refl.
  destruct (String.eqb key "__proto__"); try apply R_refl.
  apply keeps_distinct_quiet; [reflexivity|].
  intros k. apply keeps_loading_update.
Qed.

Lemma distinct_loadAvatarImages : stable R loadAvatarImages.
Proof.
  pose proof distinct_loadAvatarImage.
  unfold loadAvatarImages. stable_method.
Qed.

Lemma distinct_handleServerMessage message :
  stable R (handleServerMessage message).
Proof.
  pose proof distinct_loadAvatarImage.
  pose proof distinct_loadAvatarImages.
  pose proof (stable_updateCamera R R_refl R_trans R_cameraX R_cameraY).
  pose proof (stable_updateUI R R_refl R_trans).
  pose proof (stable_draw R R_refl R_trans).
  unfold handleServerMessage. stable_method.
Qed.

Lemma distinct_frame_onload l width height :
  stable R (frame_onload l width height).
Proof.
  pose proof distinct_set_frames.
  pose proof (stable_draw R R_refl R_trans).
  unfold frame_onload. stable_method.
Qed.

Lemma distinct_handle e : stable R (handle e).
Proof.
  pose proof distinct_handleServerMessage.
  pose proof distinct_frame_onload.
  pose proof (stable_updateCamera R R_refl R_trans R_cameraX R_cameraY).
  pose proof (stable_draw R R_refl R_trans).
  destruct e;
    unfold handle, onmessage, onkey, setupCanvas, updateConnectionStatus,
      joinGame, handleMovement, socket_send;
    stable_method.
Qed.

Lemma distinct_run es : forall c, R c (fst (run es c)).
Proof.
  induction es as [|e es IH]; intros c; simpl.
  - apply R_refl.
  - pose proof (distinct_handle e c) as S.
    destruct (handle e c) as [[r c1] t1]. simpl in S.
    specialize (IH c1). destruct (run es c1) as [c2 t2]. simpl in *.
    eapply R_trans; eassumption.
Qed.

End Distinct.

(** In a session, from [new GameClient()] on, no (avatar, direction,
    index) has two loads. *)
Lemma session_loads_distinct innerWidth innerHeight es :
  NoDup (map Spec.triple
           (onloads (fst (run es (new innerWidth innerHeight))))).
Proof.
  apply (distinct_run es (new innerWidth innerHeight)).
  split; [constructor | intros l []].
Qed.

(** ** An avatar named as an inherited property *)

Section Unloaded.
Variable k : string.
Hypothesis Hk : mem k inherited = true.

Let R := keeps_unloaded k.

Let R_refl : forall c, R c c := fun c H => H.

Let R_trans : forall a b c, R a b -> R b c -> R a c.
Proof. unfold R, keeps_unloaded. auto. Qed.

Local Hint Resolve R_refl : stable.

Lemma unloaded_set_frames key direction fs :
  stable R (set_frames key direction fs).
Proof.
  intros c. unfold set_frames, bind, this, lift, throw, put, modify, own.
  destruct (lookup key (avatarImages c)) as [dirs|] eqn:E;
    [|destruct (mem key inherited); apply R_refl].
  destruct (String.eqb direction "__proto__"); try apply R_refl.
  destruct (String.eqb key "__proto__"); try apply R_refl.
  intros U. simpl. rewrite lookup_update_other; [exact U|].
  intros ->. rewrite U in E. discriminate.
Qed.

Lemma unloaded_loadFrame key direction src i :
  stable R (loadFrame key direction src i).
Proof. unfold loadFrame. stable_method. Qed.

Lemma unloaded_loadDirection avatar key direction :
  stable R (loadDirection avatar key direction).
Proof.
  pose proof (unloaded_set_frames key direction []).
  pose proof (unloaded_loadFrame key direction).
  unfold loadDirection. stable_method.
Qed.

Lemma unloaded_loadAvatarImage avatar : stable R (loadAvatarImage avatar).
Proof.
  intros c. unfold loadAvatarImage.
  unfold bind at 1. unfold lift at 1.
  destruct (get avatar "name") as [name| |]; try apply R_refl.
  unfold bind at 1. unfold lift at 1.
  destruct (to_key name) as [key| |]; try apply R_refl.
  unfold bind at 1. unfold this at 1.
  destruct (present (avatarImages c) key) eqn:P; try apply R_refl.
  assert (k <> key) as Other.
  { intros <-. unfold present in P.
    destruct (lookup k (avatarImages c)); congruence. }
  unfold bind at 1. unfold lift at 1. unfold put.
  destruct (String.eqb key "__proto__"); try apply R_refl.
  unfold bind at 1. unfold modify at 1.
  pose proof (stable_forEach R R_refl R_trans
                (fun direction (_ : nat) => loadDirection avatar key direction)
                directions
                (fun d _ => unloaded_loadDirection avatar key d)
                (with_avatarImages (update key [] (avatarImages c)) c)) as S.
  destruct (forEach _ directions _) as [[r c2] t2]. simpl in *.
  eapply R_trans; [|exact S].
  intros U. simpl. now rewrite lookup_update_other.
Qed.

Lemma unloaded_loadAvatarImages : stable R loadAvatarImages.
Proof.
  pose proof unloaded_loadAvatarImage.
  unfold loadAvatarImages. stable_method.
Qed.

Let R_cameraX : forall n c, R c (with_cameraX n c) := fun n c H => H.
Let R_cameraY : forall n c, R c (with_cameraY n c) := fun n c H => H.

Lemma unloaded_handle e : stable R (handle e).
Proof.
  pose proof unloaded_loadAvatarImage.
  pose proof unloaded_loadAvatarImages.
  pose proof unloaded_set_frames.
  pose proof (stable_updateCamera R R_refl R_trans R_cameraX R_cameraY).
  pose proof (stable_updateUI R R_refl R_trans).
  pose proof (stable_draw R R_refl R_trans).
  destruct e;
    unfold handle, onmessage, onkey, handleServerMessage, frame_onload,
      setupCanvas, updateConnectionStatus, joinGame, handleMovement,
      socket_send;
    stable_method.
Qed.

Lemma unloaded_run es : forall c, R c (fst (run es c)).
Proof.
  induction es as [|e es IH]; intros c; simpl.
  - apply R_refl.
  - pose proof (unloaded_handle e c) as S.
    destruct (handle e c) as [[r c1] t1]. simpl in S.
    specialize (IH c1). destruct (run es c1) as [c2 t2]. simpl in *.
    eapply R_trans; eassumption.
Qed.

End Unloaded.

(** C6 fails for an avatar whose name is a property that every object
    inherits ([constructor], [toString], ...): the test of line 184 reads
    the inherited property, finds it truthy and returns as for an avatar
    already loaded.  Whatever the client, [loadAvatarImage] then does
    nothing; and in a session, from [new GameClient()] on, the avatar never
    gets its entry in [this.avatarImages] and no load is ever registered
    for it: its pictures are requested not once but never. *)
Theorem inherited_name_is_never_loaded avatar name k :
  get avatar "name" = Ok name ->
  to_key name = Ok k ->
  mem k inherited = true ->
  (forall c, loadAvatarImage avatar c = (Ok tt, c, [])) /\
  (forall innerWidth innerHeight es,
     let c := fst (run es (new innerWidth innerHeight)) in
     lookup k (avatarImages c) = None /\
     forall l, In l (onloads c) -> ld_key l <> k).
Proof.
  intros Hn Hk Hi. split.
  - intros c. unfold loadAvatarImage, bind, lift, this, present.
    rewrite Hn, Hk, Hi. now destruct (lookup k (avatarImages c)).
  - intros innerWidth innerHeight es c.
    assert (lookup k (avatarImages c) = None) as U.
    { apply (unloaded_run k Hi es (new innerWidth innerHeight)).
      reflexivity. }
    split; [exact U|]. intros l I E.
    assert (distinct_loads c) as [_ Own].
    { apply (distinct_run es (new innerWidth innerHeight)).
      split; [constructor | intros l' []]. }
    apply Own in I. unfold loading in I. rewrite E in I. contradiction.
Qed.

Lemma inherited_name_is_never_loaded_witness :
  (forall c, loadAvatarImage Scenario.namesake c = (Ok tt, c, [])) /\
  (forall innerWidth innerHeight es,
     let c := fst (run es (new innerWidth innerHeight)) in
     lookup "constructor" (avatarImages c) = None /\
     forall l, In l (onloads c) -> ld_key l <> "constructor").
Proof.
  apply (inherited_name_is_never_loaded Scenario.namesake
           (VStr "constructor") "constructor"); reflexivity.
Defined.

(** The same avatar under the name [hero] has its five pictures
    requested; under the name [constructor], none. *)
Example namesake_is_not_loaded :
  snd (loadAvatarImage Scenario.hero Scenario.fresh)
  = [SetSrc 1 (VStr "n0.png"); SetSrc 2 (VStr "n1.png");
     SetSrc 3 (VStr "s0.png"); SetSrc 4 (VStr "e0.png");
     SetSrc 5 (VStr "e1.png")] /\
  snd (loadAvatarImage Scenario.namesake Scenario.fresh) = [].
Proof. split; reflexivity. Qed.

(** ** An avatar of any other name *)

(** X24: for an avatar whose name is not a property inherited from
    [Object.prototype]: once [loadAvatarImage] has been called for it, a
    call for an avatar of that name, at once or at any later point of the
    session, does nothing: no picture is made, no load is started, the
    client is unchanged.  The first call for a name, when each source has
    a conversion to a string, starts one load for each (direction, index)
    of the north, south and east sources, and no (avatar, direction,
    index) twice; nor does the rest of the session add a load for a
    triple that has one. *)
Theorem avatar_pictures_loaded_once c avatar name k r c1 t1 :
  get avatar "name" = Ok name ->
  to_key name = Ok k ->
  mem k inherited = false ->
  loadAvatarImage avatar c = (r, c1, t1) ->
  (forall es again name',
     get again "name" = Ok name' -> to_key name' = Ok k ->
     let c2 := fst (run es c1) in
     loadAvatarImage again c2 = (Ok tt, c2, [])) /\
  (forall fs north south east,
     lookup k (avatarImages c) = None ->
     get avatar "frames" = Ok fs ->
     get fs "north" = Ok (VArr north) ->
     get fs "south" = Ok (VArr south) ->
     get fs "east" = Ok (VArr east) ->
     forallb printable (north ++ south ++ east) = true ->
     let new := Spec.schedule k (images_made c) north south east in
     r = Ok tt /\
     onloads c1 = (onloads c ++ new)%list /\
     t1 = map Spec.started new /\
     NoDup (map Spec.triple new) /\
     length new = (length north + length south + length east)%nat) /\
  (distinct_loads c ->
   forall es, NoDup (map Spec.triple (onloads (fst (run es c1))))).
Proof.
  intros Hn Hk Hi Run. split; [|split].
  - intros es again name' Hn' Hk' c2.
    apply (loadAvatarImage_again again name' k); auto.
    apply (loading_run k es c1).
    pose proof (loadAvatarImage_begins avatar name k c Hn Hk Hi) as B.
    now rewrite Run in B.
  - intros fs north south east Fresh Hfs HN HS HE P new.
    rewrite !forallb_app, !andb_true_iff in P. destruct P as (PN & PS & PE).
    assert (present (avatarImages c) k = false) as Hown
      by (unfold present; now rewrite Fresh, Hi).
    rewrite (loadAvatarImage_first avatar name k fs north south east c
               Hn Hk Hown Hfs HN HS HE PN PS PE) in Run.
    inversion Run; subst r c1 t1. fold new.
    split; [reflexivity|]. split.
    { unfold scheduled. now destruct (add_loads_fields new
        (with_avatarImages
           (update k [("north", []); ("south", []); ("east", [])]
              (avatarImages c)) c)) as (-> & _). }
    split; [reflexivity|]. split; [apply schedule_NoDup|].
    unfold new, Spec.schedule.
    rewrite !length_app, !loads_from_length. lia.
  - intros D es. apply (distinct_run es c1).
    pose proof (distinct_loadAvatarImage avatar c D) as D1.
    now rewrite Run in D1.
Qed.

Lemma outcome_client_trace {A} (x : outcome A * client * list effect) :
  x = (fst (fst x), snd (fst x), snd x).
Proof. now destruct x as [[r c] t]. Defined.

Lemma avatar_pictures_loaded_once_witness :
  let first := loadAvatarImage Scenario.hero Scenario.fresh in
  let c1 := snd (fst first) in
  loadAvatarImage Scenario.hero (fst (run [] c1)) = (Ok tt, fst (run [] c1), [])
  /\ fst (fst first) = Ok tt
  /\ NoDup (map Spec.triple
              (Spec.schedule "hero" 1
                 [VStr "n0.png"; VStr "n1.png"] [VStr "s0.png"]
                 [VStr "e0.png"; VStr "e1.png"])).
Proof.
  intros first c1.
  destruct (avatar_pictures_loaded_once Scenario.fresh Scenario.hero
              (VStr "hero") "hero" (fst (fst first)) c1 (snd first)
              eq_refl eq_refl eq_refl (outcome_client_trace first))
    as (Again & Once & _).
  split.
  - exact (Again [] Scenario.hero (VStr "hero") eq_refl eq_refl).
  - destruct (Once (VObj [("north", VArr [VStr "n0.png"; VStr "n1.png"]);
                          ("south", VArr [VStr "s0.png"]);
                          ("east", VArr [VStr "e0.png"; VStr "e1.png"])])
                [VStr "n0.png"; VStr "n1.png"] [VStr "s0.png"]
                [VStr "e0.png"; VStr "e1.png"]
                eq_refl eq_refl eq_refl eq_refl eq_refl eq_refl)
      as (Done & _ & _ & Distinct & _).
    split; [exact Done | exact Distinct].
Defined.

(** Two [player_joined] messages with the same avatar: its five pictures
    are requested once. *)
Example hero_joins_twice :
  let joined id :=
    SocketMessage
      (Some (VObj [("action", VStr "player_joined");
                   ("player", Scenario.player id 100 100 "south");
                   ("avatar", Scenario.hero)])) in
  let trace := snd (run [joined "p5"; joined "p6"] Scenario.fresh) in
  filter (fun e => match e with SetSrc _ _ => true | _ => false end) trace
  = [SetSrc 1 (VStr "n0.png"); SetSrc 2 (VStr "n1.png");
     SetSrc 3 (VStr "s0.png"); SetSrc 4 (VStr "e0.png");
     SetSrc 5 (VStr "e1.png")].
Proof. reflexivity. Qed.

(** * Further properties of the client *)

(** ** What every callback leaves alone *)

Section Frame.
Variable R : client -> client -> Prop.
Hypothesis R_refl : forall c, R c c.
Hypothesis R_trans : forall a b c, R a b -> R b c -> R a c.
Hypothesis R_canvas : forall w h c, R c (with_canvas w h c).
Hypothesis R_cameraX : forall n c, R c (with_cameraX n c).
Hypothesis R_cameraY : forall n c, R c (with_cameraY n c).
Hypothesis R_avatarImages : forall a c, R c (with_avatarImages a c).
Hypothesis R_image : forall l c, R c (with_image l c).
Hypothesis R_socket : forall s c, R c (with_socket s c).
Hypothesis R_keysPressed : forall k c, R c (with_keysPressed k c).
Hypothesis R_myPlayerId : forall v c, R c (with_myPlayerId v c).
Hypothesis R_players : forall v c, R c (with_players v c).
Hypothesis R_avatars : forall v c, R c (with_avatars v c).

Local Hint Resolve R_refl R_canvas R_cameraX R_cameraY R_avatarImages
  R_image R_socket R_keysPressed R_myPlayerId R_players R_avatars : stable.

Lemma frame_set_frames key direction fs :
  stable R (set_frames key direction fs).
Proof. unfold set_frames. stable_method. Qed.

Lemma frame_loadFrame key direction src i :
  stable R (loadFrame key direction src i).
Proof. unfold loadFrame. stable_method. Qed.

Lemma frame_loadDirection avatar key direction :
  stable R (loadDirection avatar key direction).
Proof.
  pose proof frame_set_frames.
  pose proof frame_loadFrame.
  unfold loadDirection. stable_method.
Qed.

Lemma frame_loadAvatarImage avatar : stable R (loadAvatarImage avatar).
Proof.
  pose proof frame_loadDirection.
  unfold loadAvatarImage. stable_method.
Qed.

Lemma frame_loadAvatarImages : stable R loadAvatarImages.
Proof.
  pose proof frame_loadAvatarImage.
  unfold loadAvatarImages. stable_method.
Qed.

Lemma frame_frame_onload l width height :
  stable R (frame_onload l width height).
Proof.
  pose proof frame_set_frames.
  pose proof (stable_draw R R_refl R_trans).
  unfold frame_onload. stable_method.
Qed.

Lemma frame_handleMovement : stable R handleMovement.
Proof. unfold handleMovement, socket_send. stable_method. Qed.

Lemma frame_handleServerMessage message :
  stable R (handleServerMessage message).
Proof.
  pose proof frame_loadAvatarImage.
  pose proof frame_loadAvatarImages.
  pose proof (stable_updateCamera R R_refl R_trans R_cameraX R_cameraY).
  pose proof (stable_updateUI R R_refl R_trans).
  pose proof (stable_draw R R_refl R_trans).
  unfold handleServerMessage. stable_method.
Qed.

(** The callbacks other than [socket.onmessage]. *)
Lemma frame_local_callback e :
  (forall data, e <> SocketMessage data) -> stable R (handle e).
Proof.
  intros Local.
  pose proof frame_frame_onload.
  pose proof frame_handleMovement.
  pose proof (stable_updateCamera R R_refl R_trans R_cameraX R_cameraY).
  pose proof (stable_draw R R_refl R_trans).
  destruct e; try (now elim (Local data));
    unfold handle, onkey, setupCanvas, updateConnectionStatus,
      joinGame, socket_send;
    stable_method.
Qed.

Lemma frame_handle e : stable R (handle e).
Proof.
  destruct e;
    try (apply frame_local_callback; intros; discriminate).
  pose proof frame_handleServerMessage.
  unfold handle, onmessage. stable_method.
Qed.

Lemma frame_run es : forall c, R c (fst (run es c)).
Proof.
  induction es as [|e es IH]; intros c; simpl.
  - apply R_refl.
  - pose proof (frame_handle e c) as S.
    destruct (handle e c) as [[r c1] t1]. simpl in S.
    specialize (IH c1). destruct (run es c1) as [c2 t2]. simpl in *.
    eapply R_trans; eassumption.
Qed.

End Frame.

(** X1: painting and the refresh of the status bar read the client and
    never change it, whatever they meet in the store: after [draw],
    [updateUI] or [drawAvatar] the client is the one before. *)
Theorem painting_changes_nothing c :
  snd (fst (draw c)) = c /\
  snd (fst (updateUI c)) = c /\
  forall player, snd (fst (drawAvatar player c)) = c.
Proof.
  pose proof (same_refl (fun c : client => c)) as Rr.
  pose proof (same_trans (fun c : client => c)) as Rt.
  split; [|split].
  - apply (stable_draw _ Rr Rt c).
  - apply (stable_updateUI _ Rr Rt c).
  - intros player. apply (stable_drawAvatar _ Rr Rt player c).
Qed.

(** X2: only a message of the server writes the store: every other
    callback (resize, pictures arriving, socket opening, closing or
    failing, keys) leaves [myPlayerId], [players] and [avatars] as they
    were, whether it ends normally or not. *)
Theorem local_callbacks_keep_the_store e c :
  (forall data, e <> SocketMessage data) ->
  world_store (snd (fst (handle e c))) = world_store c.
Proof.
  intros Local.
  apply (frame_local_callback (same world_store)); try easy.
  apply same_trans.
Qed.

Lemma local_callbacks_keep_the_store_witness :
  world_store (snd (fst (handle (Resize 1024 768) Scenario.loaded)))
  = world_store Scenario.loaded.
Proof.
  apply (local_callbacks_keep_the_store (Resize 1024 768) Scenario.loaded).
  intros data. discriminate.
Defined.

(** X3: through a whole session, from [new GameClient()] on, the size of
    the world stays 2048 by 2048, the size of an avatar 48, and the
    picture of the world the first picture made: no callback, and no
    message of the server, changes them. *)
Theorem session_constants innerWidth innerHeight es :
  let c := fst (run es (new innerWidth innerHeight)) in
  worldWidth c = Num.of_Z 2048 /\ worldHeight c = Num.of_Z 2048 /\
  avatarSize c = Num.of_Z 48 /\ worldImage c = Some 0%nat.
Proof.
  pose proof (frame_run
                (same (fun c => (worldWidth c, worldHeight c,
                                 avatarSize c, worldImage c)))) as F.
  specialize (F (same_refl _) (same_trans _)).
  specialize (F (fun _ _ _ => eq_refl) (fun _ _ => eq_refl)
                (fun _ _ => eq_refl) (fun _ _ => eq_refl)
                (fun _ _ => eq_refl) (fun _ _ => eq_refl)
                (fun _ _ => eq_refl) (fun _ _ => eq_refl)
                (fun _ _ => eq_refl) (fun _ _ => eq_refl)
                es (new innerWidth innerHeight)).
  unfold same in F. cbv zeta.
  change (worldWidth (new innerWidth innerHeight),
          worldHeight (new innerWidth innerHeight),
          avatarSize (new innerWidth innerHeight),
          worldImage (new innerWidth innerHeight))
    with (Num.of_Z 2048, Num.of_Z 2048, Num.of_Z 48, Some 0%nat) in F.
  repeat split.
  - exact (f_equal (fun t => fst (fst (fst t))) F).
  - exact (f_equal (fun t => snd (fst (fst t))) F).
  - exact (f_equal (fun t => snd (fst t)) F).
  - exact (f_equal (fun t => snd t) F).
Qed.

(** ** The other messages of the server *)

Lemma lookup_remove_same {A} k (o : obj A) : lookup k (remove k o) = None.
Proof.
  induction o as [|[k' v] r IH]; simpl; [reflexivity|].
  destruct (String.eqb k k') eqn:E; [exact IH|]. simpl. now rewrite E.
Qed.

Lemma lookup_remove_other {A} k k' (o : obj A) :
  k <> k' -> lookup k (remove k' o) = lookup k o.
Proof.
  intros N. induction o as [|[k2 v] r IH]; simpl; [reflexivity|].
  destruct (String.eqb k' k2) eqn:E.
  - apply String.eqb_eq in E. subst k2.
    apply String.eqb_neq in N. now rewrite N.
  - simpl. now rewrite IH.
Qed.

Lemma remove_absent {A} k (o : obj A) : lookup k o = None -> remove k o = o.
Proof.
  induction o as [|[k' v] r IH]; simpl; [reflexivity|].
  destruct (String.eqb k k'); [discriminate|]. intros H. now rewrite IH.
Qed.

(** What follows the writes of a message leaves the store alone. *)
Lemma store_kept_by_loading_and_painting avatar :
  stable (same world_store) (loadAvatarImage avatar) /\
  stable (same world_store) loadAvatarImages /\
  stable (same world_store) updateCamera /\
  stable (same world_store) updateUI /\
  stable (same world_store) draw.
Proof.
  pose proof (same_refl world_store) as Rr.
  pose proof (same_trans world_store) as Rt.
  repeat split.
  - apply frame_loadAvatarImage; easy.
  - apply frame_loadAvatarImages; easy.
  - apply stable_updateCamera; easy.
  - apply stable_updateUI; easy.
  - apply stable_draw; easy.
Qed.

(** The client a method leaves after a write [f] and a sequel that keeps
    the store. *)
Lemma store_after_write (f : client -> client) (rest : M unit) c :
  stable (same world_store) rest ->
  world_store (snd (fst ((modify f ;; rest) c))) = world_store (f c).
Proof.
  intros S. unfold bind, modify. specialize (S (f c)).
  destruct (rest (f c)) as [[r c2] t2]. exact S.
Qed.

(** X4: a [player_left] message removes the player stored under the id
    it names and no other; for an id that is not in the store it leaves
    the store as it is. *)
Theorem player_left_removes_that_player c message id k o :
  get message "action" = Ok (VStr "player_left") ->
  get message "playerId" = Ok id ->
  to_key id = Ok k ->
  players c = VObj o ->
  let c' := snd (fst (handleServerMessage message c)) in
  world_store c' = (myPlayerId c, VObj (remove k o), avatars c) /\
  lookup k (remove k o) = None /\
  (forall k', k' <> k -> lookup k' (remove k o) = lookup k' o) /\
  (lookup k o = None -> players c' = players c).
Proof.
  intros Ha Hid Hk Hp c'.
  assert (world_store c' = (myPlayerId c, VObj (remove k o), avatars c))
    as Store.
  { unfold c', handleServerMessage.
    unfold bind at 1. unfold lift at 1. rewrite Ha. simpl.
    unfold bind at 1. unfold this at 1.
    unfold bind at 1. unfold lift at 1. rewrite Hid.
    unfold bind at 1. unfold lift at 1. rewrite Hk.
    unfold bind at 1. unfold lift at 1. rewrite Hp. cbn [delete].
    cbv beta iota zeta.
    destruct (store_kept_by_loading_and_painting VNull)
      as (_ & _ & _ & UI & Draw).
    assert (stable (same world_store) (updateUI ;; draw)) as Rest.
    { apply stable_bind;
        [apply same_trans | exact UI | intros _; exact Draw]. }
    pose proof (store_after_write (with_players (VObj (remove k o)))
                  (updateUI ;; draw) c Rest) as W.
    destruct ((modify (with_players (VObj (remove k o)));;
               updateUI;; draw) c) as [[r c2] t2].
    exact W. }
  split; [exact Store|].
  split; [apply lookup_remove_same|].
  split; [intros k' N; now apply lookup_remove_other|].
  intros Absent. rewrite Hp.
  transitivity (VObj (remove k o)).
  - exact (f_equal (fun t => snd (fst t)) Store).
  - now rewrite remove_absent.
Qed.

Lemma player_left_removes_that_player_witness :
  let c' :=
    snd (fst (handleServerMessage
                (VObj [("action", VStr "player_left");
                       ("playerId", VStr "p2")]) Scenario.with_p2)) in
  players c'
  = VObj [("p1", Scenario.player "p1" 100 100 "south")].
Proof.
  destruct (player_left_removes_that_player Scenario.with_p2
              (VObj [("action", VStr "player_left");
                     ("playerId", VStr "p2")])
              (VStr "p2") "p2"
              [("p1", Scenario.player "p1" 100 100 "south");
               ("p2", Scenario.p2_before)]
              eq_refl eq_refl eq_refl eq_refl) as (Store & _).
  exact (f_equal (fun t => snd (fst t)) Store).
Defined.

Lemma field_after_write {B} (field : client -> B) (f : client -> client)
    (rest : M unit) c :
  stable (same field) rest ->
  field (snd (fst ((modify f ;; rest) c))) = field (f c).
Proof.
  intros S. unfold bind, modify. specialize (S (f c)).
  destruct (rest (f c)) as [[r c2] t2]. exact S.
Qed.

(** Close the goals [stable (same field) _] of a method that does not
    write [field]. *)
Ltac field_kept :=
  stable_method;
  try (apply stable_modify; intros; reflexivity);
  try (apply stable_ret; reflexivity).

(** X5: a [player_joined] message stores the player it brings under the
    id of that player, in place of a player that had this id, and leaves
    the other players and [myPlayerId] as they were; this holds even when
    the rest of the message is missing and the handler ends in an
    exception. *)
Theorem player_joined_stores_the_player c message player id k o :
  get message "action" = Ok (VStr "player_joined") ->
  get message "player" = Ok player ->
  get player "id" = Ok id ->
  to_key id = Ok k ->
  k <> "__proto__" ->
  players c = VObj o ->
  let c' := snd (fst (handleServerMessage message c)) in
  players c' = VObj (update k player o) /\
  myPlayerId c' = myPlayerId c /\
  get (players c') k = Ok player /\
  (forall k', k' <> k -> lookup k' (update k player o) = lookup k' o).
Proof.
  intros Ha Hpl Hid Hk Nk Hp c'. apply String.eqb_neq in Nk.
  set (field := fun c : client => (players c, myPlayerId c)).
  pose proof (same_refl field) as Rr.
  pose proof (same_trans field) as Rt.
  assert (field c' = field (with_players (VObj (update k player o)) c))
    as Store.
  { unfold c', handleServerMessage.
    unfold bind at 1. unfold lift at 1. rewrite Ha. simpl.
    unfold bind at 1. unfold this at 1.
    unfold bind at 1. unfold lift at 1. rewrite Hpl.
    unfold bind at 1. unfold lift at 1. rewrite Hid.
    unfold bind at 1. unfold lift at 1. rewrite Hk.
    unfold bind at 1. unfold lift at 1. rewrite Hp.
    unfold set, put. rewrite Nk. cbv beta iota zeta.
    match goal with
    | |- context [bind (modify ?f) (fun _ => ?rest)] =>
        pose proof (field_after_write field f rest c) as W;
        destruct (bind (modify f) (fun _ => rest) c) as [[r c2] t2]
    end.
    cbn [fst snd] in *. apply W.
    pose proof (frame_loadAvatarImage _ Rr Rt).
    pose proof (stable_updateUI _ Rr Rt).
    pose proof (stable_draw _ Rr Rt).
    field_kept. }
  inversion Store as [[P I]]. rewrite P.
  repeat split.
  - unfold get, own. now rewrite lookup_update_same.
  - intros k' N. now apply lookup_update_other.
Qed.

Lemma player_joined_stores_the_player_witness :
  players (snd (fst (handleServerMessage Scenario.lone_player
                       Scenario.with_p2)))
  = VObj (update "p9" (VObj [("id", VStr "p9")])
            [("p1", Scenario.player "p1" 100 100 "south");
             ("p2", Scenario.p2_before)]).
Proof.
  apply (player_joined_stores_the_player Scenario.with_p2
           Scenario.lone_player (VObj [("id", VStr "p9")]) (VStr "p9") "p9"
           [("p1", Scenario.player "p1" 100 100 "south");
            ("p2", Scenario.p2_before)]); try reflexivity.
  discriminate.
Defined.

(** X6: a [join_game] answer with a true [success] replaces the store as a
    whole: [myPlayerId], [players] and [avatars] become the three values of
    the message (players stored before are not merged in), whatever
    happens while the pictures are requested and the view repainted. *)
Theorem accepted_join_replaces_the_store c message success id ps avs :
  get message "action" = Ok (VStr "join_game") ->
  get message "success" = Ok success ->
  truthy success = true ->
  get message "playerId" = Ok id ->
  get message "players" = Ok ps ->
  get message "avatars" = Ok avs ->
  world_store (snd (fst (handleServerMessage message c))) = (id, ps, avs).
Proof.
  intros Ha Hs Ht Hid Hps Havs.
  unfold handleServerMessage.
  unfold bind at 1. unfold lift at 1. rewrite Ha.
  change (is_string (VStr "join_game") "join_game") with true.
  cbv beta iota zeta.
  unfold bind at 1. unfold lift at 1. rewrite Hs, Ht.
  unfold bind at 1. unfold lift at 1. rewrite Hid.
  unfold bind at 1. unfold modify at 1.
  unfold bind at 1. unfold lift at 1. rewrite Hps.
  unfold bind at 1. unfold modify at 1.
  unfold bind at 1. unfold lift at 1. rewrite Havs.
  cbv beta iota zeta.
  destruct (store_kept_by_loading_and_painting VNull)
    as (_ & Load & Camera & UI & Draw).
  match goal with
  | |- context [bind (modify ?f) (fun _ => ?rest)] =>
      pose proof (field_after_write world_store f rest
                    (with_players ps (with_myPlayerId id c))) as W;
      destruct (bind (modify f) (fun _ => rest)
                  (with_players ps (with_myPlayerId id c)))
        as [[r c2] t2]
  end.
  cbn [fst snd] in *. apply W.
  pose proof (same_trans world_store).
  stable_method.
Qed.

Lemma accepted_join_replaces_the_store_witness :
  world_store
    (snd (fst (handleServerMessage
                 (Scenario.joined [("p7", Scenario.player "p7" 5 5 "east")])
                 Scenario.with_p2)))
  = (VStr "p1", VObj [("p7", Scenario.player "p7" 5 5 "east")],
     VObj [("hero", Scenario.hero)]).
Proof.
  apply (accepted_join_replaces_the_store Scenario.with_p2
           (Scenario.joined [("p7", Scenario.player "p7" 5 5 "east")])
           (VBool true)); reflexivity.
Defined.

(** ** The camera and the view *)

Lemma half_is_times_half a : a / 2 == a * (1 # 2).
Proof. unfold Qdiv. reflexivity. Qed.

(** [updateCamera] on finite numbers, in the rationals. *)
Lemma updateCamera_finite c k p x y w h ww wh :
  truthy (myPlayerId c) = true ->
  to_key (myPlayerId c) = Ok k ->
  get (players c) k = Ok p ->
  truthy p = true ->
  get p "x" = Ok (VNum (Fin x)) ->
  get p "y" = Ok (VNum (Fin y)) ->
  canvas_width c = Fin w -> canvas_height c = Fin h ->
  worldWidth c = Fin ww -> worldHeight c = Fin wh ->
  exists ox oy vx vy,
    updateCamera c
    = (Ok tt,
       with_cameraY (Fin oy)
         (with_cameraX (Fin ox)
            (with_cameraY (Fin vy) (with_cameraX (Fin vx) c))), []) /\
    ox == Qmax 0 (Qmin (x - w * (1 # 2)) (ww - w)) /\
    oy == Qmax 0 (Qmin (y - h * (1 # 2)) (wh - h)).
Proof.
  intros Ht Hk Hp Hpt Hx Hy Hw Hh Hww Hwh.
  pose proof (updateCamera_runs c k p _ _ (Fin x) (Fin y)
                Ht Hk Hp Hpt Hx eq_refl Hy eq_refl) as Run.
  cbv zeta in Run. rewrite Hw, Hh, Hww, Hwh in Run.
  destruct (half_Fin w) as (w2 & Ew2 & Qw2).
  destruct (half_Fin h) as (h2 & Eh2 & Qh2).
  rewrite Ew2, Eh2 in Run.
  destruct (sub_Fin x w2) as (vx & Evx & Qvx).
  destruct (sub_Fin y h2) as (vy & Evy & Qvy).
  destruct (sub_Fin ww w) as (hx & Ehx & Qhx).
  destruct (sub_Fin wh h) as (hy & Ehy & Qhy).
  rewrite Evx, Evy, Ehx, Ehy in Run.
  destruct (max_min_Fin vx hx) as (ox & Eox & Qox).
  destruct (max_min_Fin vy hy) as (oy & Eoy & Qoy).
  rewrite Eox, Eoy in Run.
  exists ox, oy, vx, vy. split; [exact Run|]. split.
  - now rewrite Qox, Qvx, Qhx, Qw2, half_is_times_half.
  - now rewrite Qoy, Qvy, Qhy, Qh2, half_is_times_half.
Qed.

(** One axis: where the view stands, the player is on the screen. *)
Lemma clamped_axis_on_screen x w ww ox :
  0 <= w -> w <= ww -> 0 <= x -> x <= ww ->
  ox == Qmax 0 (Qmin (x - w * (1 # 2)) (ww - w)) ->
  0 <= x - ox /\ x - ox <= w.
Proof.
  intros Hw Hww Hx Hx' E.
  destruct (Q.max_spec 0 (Qmin (x - w * (1 # 2)) (ww - w)))
    as [[A B]|[A B]];
    destruct (Q.min_spec (x - w * (1 # 2)) (ww - w)) as [[C D]|[C D]];
    rewrite B in E; try rewrite D in E; try rewrite D in A; split; lra.
Qed.

(** One axis: away from the edges of the world the view is centred. *)
Lemma clamped_axis_centred x w ww ox :
  w * (1 # 2) <= x -> x <= ww - w * (1 # 2) ->
  ox == Qmax 0 (Qmin (x - w * (1 # 2)) (ww - w)) ->
  x - ox == w * (1 # 2).
Proof.
  intros Lo Hi E.
  destruct (Q.max_spec 0 (Qmin (x - w * (1 # 2)) (ww - w)))
    as [[A B]|[A B]];
    destruct (Q.min_spec (x - w * (1 # 2)) (ww - w)) as [[C D]|[C D]];
    rewrite B in E; try rewrite D in E; try rewrite D in A; lra.
Qed.

(** X7: without a local player ([myPlayerId] not set, or naming no player
    of the store) [updateCamera] leaves the camera, and the whole client,
    as it is. *)
Theorem camera_waits_for_local_player c :
  truthy (myPlayerId c) = false \/
  (exists k p, to_key (myPlayerId c) = Ok k /\
               get (players c) k = Ok p /\ truthy p = false) ->
  updateCamera c = (Ok tt, c, []).
Proof.
  intros [H|(k & p & Hk & Hp & Ht)];
    unfold updateCamera, localPlayer, bind, this, lift, ret.
  - rewrite H. cbv beta iota zeta. now rewrite H.
  - destruct (truthy (myPlayerId c)) eqn:T; cbv beta iota zeta.
    + rewrite Hk, Hp. cbv beta iota zeta. now rewrite Ht.
    + now rewrite T.
Qed.

Lemma camera_waits_for_local_player_witness :
  updateCamera Scenario.fresh = (Ok tt, Scenario.fresh, []).
Proof.
  apply (camera_waits_for_local_player Scenario.fresh). left. reflexivity.
Defined.

(** X8: when the world is at least as large as the viewport and the local
    player stands inside the world, then after [updateCamera] the local
    player passes the visibility test: the camera never leaves its own
    player out of the view. *)
Theorem local_player_stays_in_view c k p x y w h ww wh s :
  truthy (myPlayerId c) = true ->
  to_key (myPlayerId c) = Ok k ->
  get (players c) k = Ok p ->
  truthy p = true ->
  get p "x" = Ok (VNum (Fin x)) ->
  get p "y" = Ok (VNum (Fin y)) ->
  canvas_width c = Fin w -> canvas_height c = Fin h ->
  worldWidth c = Fin ww -> worldHeight c = Fin wh ->
  avatarSize c = Fin s ->
  0 <= s -> 0 <= w <= ww -> 0 <= h <= wh ->
  0 <= x <= ww -> 0 <= y <= wh ->
  let c' := snd (fst (updateCamera c)) in
  isVisible (VNum (Fin x)) (VNum (Fin y)) c' = (Ok true, c', []).
Proof.
  intros Ht Hk Hp Hpt Hx Hy Hw Hh Hww Hwh Hs S [W0 W1] [H0 H1] [X0 X1]
    [Y0 Y1] c'.
  destruct (updateCamera_finite c k p x y w h ww wh
              Ht Hk Hp Hpt Hx Hy Hw Hh Hww Hwh)
    as (ox & oy & vx & vy & Run & Qox & Qoy).
  unfold c'. rewrite Run. cbn [fst snd].
  set (c2 := with_cameraY (Fin oy) _).
  destruct (isVisible_finite c2 x y ox oy s w h eq_refl eq_refl Hs Hw Hh)
    as (b & Vis & Iff).
  rewrite Vis. assert (b = true) as ->; [|reflexivity].
  apply Iff.
  destruct (clamped_axis_on_screen x w ww ox W0 W1 X0 X1 Qox).
  destruct (clamped_axis_on_screen y h wh oy H0 H1 Y0 Y1 Qoy).
  repeat split; lra.
Qed.

Lemma local_player_stays_in_view_witness :
  let c' := snd (fst (updateCamera (Scenario.at_position 1990 3))) in
  isVisible (VNum (Fin 1990)) (VNum (Fin 3)) c' = (Ok true, c', []).
Proof.
  apply (local_player_stays_in_view (Scenario.at_position 1990 3) "p1"
           (Scenario.player "p1" 1990 3 "south") 1990 3 800 600 2000 2000 48);
    try reflexivity; try (split; discriminate); discriminate.
Defined.

(** X9: away from the edges of the world (at least half a viewport from
    each), [updateCamera] puts the local player at the centre of the
    canvas: its position on the screen is (width/2, height/2). *)
Theorem camera_centres_on_local_player c k p x y w h ww wh :
  truthy (myPlayerId c) = true ->
  to_key (myPlayerId c) = Ok k ->
  get (players c) k = Ok p ->
  truthy p = true ->
  get p "x" = Ok (VNum (Fin x)) ->
  get p "y" = Ok (VNum (Fin y)) ->
  canvas_width c = Fin w -> canvas_height c = Fin h ->
  worldWidth c = Fin ww -> worldHeight c = Fin wh ->
  w / 2 <= x <= ww - w / 2 ->
  h / 2 <= y <= wh - h / 2 ->
  let c' := snd (fst (updateCamera c)) in
  exists sx sy,
    worldToScreen (VNum (Fin x)) (VNum (Fin y)) c'
    = (Ok (Fin sx, Fin sy), c', []) /\
    sx == w / 2 /\ sy == h / 2.
Proof.
  intros Ht Hk Hp Hpt Hx Hy Hw Hh Hww Hwh [X0 X1] [Y0 Y1] c'.
  rewrite half_is_times_half in X0, X1, Y0, Y1.
  destruct (updateCamera_finite c k p x y w h ww wh
              Ht Hk Hp Hpt Hx Hy Hw Hh Hww Hwh)
    as (ox & oy & vx & vy & Run & Qox & Qoy).
  unfold c'. rewrite Run. cbn [fst snd].
  destruct (sub_Fin x ox) as (sx & Esx & Qsx).
  destruct (sub_Fin y oy) as (sy & Esy & Qsy).
  exists sx, sy. split.
  - unfold worldToScreen, bind, lift, this, ret, to_number.
    cbn [cameraX cameraY with_cameraX with_cameraY].
    now rewrite Esx, Esy.
  - rewrite !half_is_times_half, Qsx, Qsy.
    split; [now apply (clamped_axis_centred x w ww)
           | now apply (clamped_axis_centred y h wh)].
Qed.

Lemma camera_centres_on_local_player_witness :
  let c' := snd (fst (updateCamera (Scenario.at_position 1000 900))) in
  exists sx sy,
    worldToScreen (VNum (Fin 1000)) (VNum (Fin 900)) c'
    = (Ok (Fin sx, Fin sy), c', []) /\
    sx == 800 / 2 /\ sy == 600 / 2.
Proof.
  apply (camera_centres_on_local_player (Scenario.at_position 1000 900) "p1"
           (Scenario.player "p1" 1000 900 "south") 1000 900 800 600
           2000 2000);
    try reflexivity; split; discriminate.
Defined.

(** ** The effects of each method *)

Section Emits.
Variable allowed : effect_kind -> bool.

Lemma emits_ret {A} (a : A) : emits allowed (ret a).
Proof. intros c. constructor. Qed.

Lemma emits_lift {A} (o : outcome A) : emits allowed (lift o).
Proof. intros c. constructor. Qed.

Lemma emits_throw {A} e : emits allowed (@throw A e).
Proof. intros c. constructor. Qed.

Lemma emits_this {A} (f : client -> A) : emits allowed (this f).
Proof. intros c. constructor. Qed.

Lemma emits_modify f : emits allowed (modify f).
Proof. intros c. constructor. Qed.

Lemma emits_emit e : allowed (kind e) = true -> emits allowed (emit e).
Proof. intros H c. simpl. auto. Qed.

Lemma emits_bind {A B} (m : M A) (f : A -> M B) :
  emits allowed m -> (forall a, emits allowed (f a)) ->
  emits allowed (bind m f).
Proof.
  intros Hm Hf c. unfold bind. specialize (Hm c).
  destruct (m c) as [[[a|e|] c1] t1]; simpl in *; auto.
  specialize (Hf a c1). destruct (f a c1) as [[r c2] t2]; simpl in *.
  apply Forall_app. auto.
Qed.

Lemma emits_forEach_from {A} (f : A -> nat -> M unit) l :
  (forall x i, emits allowed (f x i)) ->
  forall i, emits allowed (forEach_from i f l).
Proof.
  intros Hf. induction l as [|x l IH]; intros i; simpl.
  - apply emits_ret.
  - apply emits_bind; auto.
Qed.

Lemma emits_forEach {A} (f : A -> nat -> M unit) l :
  (forall x i, emits allowed (f x i)) -> emits allowed (forEach f l).
Proof. intros Hf. now apply emits_forEach_from. Qed.

End Emits.

Create HintDb emits.

#[local] Hint Resolve emits_ret emits_lift emits_throw emits_this
  emits_modify emits_forEach : emits.

Ltac emits_step :=
  match goal with
  | |- emits _ (bind _ _) => apply emits_bind; [ | intros ? ]
  | |- emits _ (if ?b then _ else _) => destruct b
  | |- emits _ (match ?x with _ => _ end) => destruct x
  | |- emits _ (let _ := _ in _) => cbv zeta
  | |- emits _ (emit _) =>
      apply emits_emit; cbn [kind]; first [assumption | reflexivity]
  | |- emits _ _ => solve [auto with emits]
  end.

Ltac emits_method := intros; repeat emits_step.

Section Emitters.
Variable allowed : effect_kind -> bool.

(** The methods that compute, and have no effect of any kind. *)
Lemma emits_localPlayer : emits allowed localPlayer.
Proof. unfold localPlayer. emits_method. Qed.

Lemma emits_updateCamera : emits allowed updateCamera.
Proof.
  pose proof emits_localPlayer. unfold updateCamera. emits_method.
Qed.

Lemma emits_worldToScreen x y : emits allowed (worldToScreen x y).
Proof. unfold worldToScreen. emits_method. Qed.

Lemma emits_isVisible x y : emits allowed (isVisible x y).
Proof.
  pose proof emits_worldToScreen. unfold isVisible. emits_method.
Qed.

Lemma emits_resolveFrame p : emits allowed (resolveFrame p).
Proof. unfold resolveFrame. emits_method. Qed.

Lemma emits_set_frames key direction fs :
  emits allowed (set_frames key direction fs).
Proof. unfold set_frames. emits_method. Qed.

(** The methods with effects. *)
Hypothesis on_document : allowed OnDocument = true.
Hypothesis on_canvas : allowed OnCanvas = true.
Hypothesis on_canvas_clear : allowed OnCanvasClear = true.
Hypothesis on_image : allowed OnImage = true.
Hypothesis on_console : allowed OnConsole = true.
Hypothesis on_socket : allowed OnSocket = true.

Lemma emits_updateUI : emits allowed updateUI.
Proof.
  pose proof emits_localPlayer. unfold updateUI. emits_method.
Qed.

Lemma emits_drawAvatar p : emits allowed (drawAvatar p).
Proof.
  pose proof emits_worldToScreen. pose proof emits_isVisible.
  pose proof emits_resolveFrame.
  unfold drawAvatar. emits_method.
Qed.

Lemma emits_draw : emits allowed draw.
Proof.
  pose proof emits_drawAvatar. unfold draw. emits_method.
Qed.

Lemma emits_loadFrame key direction src i :
  emits allowed (loadFrame key direction src i).
Proof. unfold loadFrame. emits_method. Qed.

Lemma emits_loadDirection avatar key direction :
  emits allowed (loadDirection avatar key direction).
Proof.
  pose proof emits_set_frames. pose proof emits_loadFrame.
  unfold loadDirection. emits_method.
Qed.

Lemma emits_loadAvatarImage avatar : emits allowed (loadAvatarImage avatar).
Proof.
  pose proof emits_loadDirection. unfold loadAvatarImage. emits_method.
Qed.

Lemma emits_loadAvatarImages : emits allowed loadAvatarImages.
Proof.
  pose proof emits_loadAvatarImage. unfold loadAvatarImages. emits_method.
Qed.

Lemma emits_handleServerMessage message :
  emits allowed (handleServerMessage message).
Proof.
  pose proof emits_loadAvatarImage. pose proof emits_loadAvatarImages.
  pose proof emits_updateCamera. pose proof emits_updateUI.
  pose proof emits_draw.
  unfold handleServerMessage. emits_method.
Qed.

Lemma emits_frame_onload l width height :
  emits allowed (frame_onload l width height).
Proof.
  pose proof emits_set_frames. pose proof emits_draw.
  unfold frame_onload. emits_method.
Qed.

Lemma emits_handleMovement : emits allowed handleMovement.
Proof. unfold handleMovement, socket_send. emits_method. Qed.

End Emitters.

Lemma all_but_spec k k' : all_but k k' = true <-> k' <> k.
Proof. destruct k, k'; simpl; split; congruence. Qed.

Lemma not_on_socket_sent t :
  Forall (fun e => all_but OnSocket (kind e) = true) t -> sent t = [].
Proof.
  induction 1 as [|e t He _ IH]; [reflexivity|].
  unfold sent in *. simpl. rewrite IH. now destruct e.
Qed.

Lemma repaints_app t1 t2 :
  repaints (t1 ++ t2) = (repaints t1 + repaints t2)%nat.
Proof. unfold repaints. now rewrite filter_app, length_app. Qed.

Lemma not_clear_repaints t :
  Forall (fun e => all_but OnCanvasClear (kind e) = true) t ->
  repaints t = 0%nat.
Proof.
  induction 1 as [|e t He _ IH]; [reflexivity|].
  unfold repaints in *. simpl. destruct e; try discriminate He; exact IH.
Qed.

(** X10: handling a message of the server never writes to the socket:
    whatever the payload, parsed or not, and however the handler ends,
    nothing is sent and no connection is opened. *)
Theorem messages_are_never_answered data c :
  Forall (fun e => kind e <> OnSocket) (snd (onmessage data c)) /\
  sent (snd (onmessage data c)) = [].
Proof.
  assert (Forall (fun e => all_but OnSocket (kind e) = true)
            (snd (onmessage data c))) as H.
  { destruct data as [message|]; [|constructor].
    apply (emits_handleServerMessage (all_but OnSocket)); reflexivity. }
  split; [|now apply not_on_socket_sent].
  eapply Forall_impl; [|exact H]. intros e. apply all_but_spec.
Qed.

(** ** Repaints *)

Lemma repaints_quiet {A} (m : M A) n :
  emits (all_but OnCanvasClear) m -> repaints_at_most n m.
Proof.
  intros H c. rewrite (not_clear_repaints _ (H c)). apply Nat.le_0_l.
Qed.

Lemma repaints_after_quiet {A B} (m : M A) (f : A -> M B) n :
  emits (all_but OnCanvasClear) m ->
  (forall a, repaints_at_most n (f a)) ->
  repaints_at_most n (bind m f).
Proof.
  intros Hm Hf c. unfold bind. specialize (Hm c).
  destruct (m c) as [[[a|e|] c1] t1]; simpl in *;
    try (rewrite (not_clear_repaints _ Hm); apply Nat.le_0_l).
  specialize (Hf a c1). destruct (f a c1) as [[r c2] t2]; simpl in *.
  now rewrite repaints_app, (not_clear_repaints _ Hm).
Qed.

Lemma repaints_before_quiet {A B} (m : M A) (f : A -> M B) n :
  repaints_at_most n m ->
  (forall a, emits (all_but OnCanvasClear) (f a)) ->
  repaints_at_most n (bind m f).
Proof.
  intros Hm Hf c. unfold bind. specialize (Hm c).
  destruct (m c) as [[[a|e|] c1] t1]; simpl in *; auto.
  specialize (Hf a c1). destruct (f a c1) as [[r c2] t2]; simpl in *.
  rewrite repaints_app, (not_clear_repaints _ Hf). lia.
Qed.

(** [draw] clears the canvas once, if at all. *)
Lemma repaints_draw : repaints_at_most 1 draw.
Proof.
  pose proof (emits_drawAvatar (all_but OnCanvasClear) eq_refl).
  unfold draw.
  apply repaints_after_quiet; [apply emits_this | intros world].
  destruct world as [world|]; [|apply repaints_quiet, emits_ret].
  apply repaints_after_quiet; [apply emits_this | intros w].
  apply repaints_after_quiet; [apply emits_this | intros h].
  apply repaints_before_quiet.
  - intros c. simpl. unfold repaints. simpl. lia.
  - intros _. emits_method.
Qed.

Ltac repaints_step :=
  match goal with
  | |- repaints_at_most _ draw => apply repaints_draw
  | |- repaints_at_most _ (bind _ _) =>
      apply repaints_after_quiet; [solve [auto with emits] | intros ? ]
  | |- repaints_at_most _ (if ?b then _ else _) => destruct b
  | |- repaints_at_most _ _ =>
      apply repaints_quiet; solve [emits_method]
  end.

(** X11: a message of the server makes the client repaint at most once,
    however many players it touches and however its handling ends. *)
Theorem one_repaint_per_message data c :
  (repaints (snd (onmessage data c)) <= 1)%nat.
Proof.
  destruct data as [message|]; [|apply Nat.le_0_l].
  pose proof (emits_loadAvatarImage (all_but OnCanvasClear) eq_refl).
  pose proof (emits_loadAvatarImages (all_but OnCanvasClear) eq_refl).
  pose proof (emits_updateCamera (all_but OnCanvasClear)).
  pose proof (emits_updateUI (all_but OnCanvasClear) eq_refl).
  assert (forall e, all_but OnCanvasClear (kind (ConsoleError
            "Failed to join game:" (Some e))) = true) by reflexivity.
  revert c. change (repaints_at_most 1 (handleServerMessage message)).
  unfold handleServerMessage. repeat repaints_step.
Qed.

(** ** The keyboard and the socket *)

(** X12: a key transition records the state of the key, whatever the state
    of the socket, and changes nothing else in the client; it has no
    effect on the canvas or on the page: at most one message is sent, and
    none unless the socket is open. *)
Theorem key_transition_only_records_and_sends c code (down : bool) :
  code <> "__proto__" ->
  let keys := update code down (keysPressed c) in
  let '(r, c', t) := handle (if down then KeyDown code else KeyUp code) c in
  r = Ok tt /\
  c' = with_keysPressed keys c /\
  held (keysPressed c') code = down /\
  (forall code', code' <> code ->
     held (keysPressed c') code' = held (keysPressed c) code') /\
  (socket c = Some OPEN -> exists message, t = [Send message]) /\
  (socket c <> Some OPEN -> t = []).
Proof.
  intros Hc keys. apply String.eqb_neq in Hc.
  assert (handle (if down then KeyDown code else KeyUp code) c
          = onkey code down c) as -> by now destruct down.
  assert (held keys code = down) as Held.
  { unfold held, keys. now rewrite lookup_update_same. }
  assert (forall code', code' <> code ->
            held keys code' = held (keysPressed c) code') as Others.
  { intros code' N. unfold held, keys. now rewrite lookup_update_other. }
  unfold onkey, bind, this, lift, put, modify. rewrite Hc.
  cbv beta iota zeta. fold keys.
  unfold handleMovement, socket_send, bind, this, emit.
  change (socket (with_keysPressed keys c)) with (socket c).
  destruct (socket c) as [[| | |]|] eqn:S; cbv beta iota zeta;
    try (repeat split; auto; try discriminate; intros N; now elim N).
  change (socket (with_keysPressed keys c)) with (socket c).
  change (keysPressed (with_keysPressed keys c)) with keys.
  destruct (held keys "ArrowUp"), (held keys "ArrowDown"),
    (held keys "ArrowLeft"), (held keys "ArrowRight");
    cbv beta iota zeta;
    change (socket (with_keysPressed keys c)) with (socket c);
    rewrite S; cbn [app];
    (repeat split; auto; [eauto | intros N; now elim N]).
Qed.

Lemma key_transition_only_records_and_sends_witness :
  handle (KeyDown "ArrowUp") Scenario.fresh
  = (Ok tt, with_keysPressed [("ArrowUp", true)] Scenario.fresh, []).
Proof.
  pose proof (key_transition_only_records_and_sends Scenario.fresh
                "ArrowUp" true) as H.
  cbv zeta in H.
  destruct (handle (if true then KeyDown "ArrowUp" else KeyUp "ArrowUp")
              Scenario.fresh) as [[r c'] t] eqn:E.
  destruct H as (-> & -> & _ & _ & _ & Silent); [discriminate|].
  rewrite Silent by discriminate. reflexivity.
Defined.

Lemma event_eq_close (e : event) : e = SocketClose \/ e <> SocketClose.
Proof. destruct e; (now left) || (right; discriminate). Qed.

(** Only the socket's own opening and closing change its state. *)
Lemma socket_state_kept e c :
  e <> SocketOpen -> e <> SocketClose ->
  socket (snd (fst (handle e c))) = socket c.
Proof.
  intros NO NC.
  pose proof (same_refl socket) as Rr.
  pose proof (same_trans socket) as Rt.
  assert (forall n c, same socket c (with_cameraX n c)) as RX by easy.
  assert (forall n c, same socket c (with_cameraY n c)) as RY by easy.
  pose proof (stable_updateCamera _ Rr Rt RX RY).
  pose proof (stable_draw _ Rr Rt).
  assert (forall m, stable (same socket) (handleServerMessage m)).
  { intros m. apply frame_handleServerMessage; easy. }
  assert (forall l w h, stable (same socket) (frame_onload l w h)).
  { intros l w h. apply frame_frame_onload; easy. }
  assert (stable (same socket) handleMovement).
  { unfold handleMovement, socket_send. field_kept. }
  revert c. change (stable (same socket) (handle e)).
  destruct e; try congruence;
    unfold handle, onmessage, onkey, setupCanvas, updateConnectionStatus;
    field_kept.
Qed.

(** While the socket is not open, no callback but its opening sends. *)
Lemma silent_while_not_open e c :
  e <> SocketOpen -> socket c <> Some OPEN ->
  Forall (fun e => all_but OnSocket (kind e) = true) (snd (handle e c)).
Proof.
  intros NO Closed.
  pose proof (emits_updateCamera (all_but OnSocket)).
  pose proof (emits_draw (all_but OnSocket) eq_refl eq_refl).
  assert (forall l w h, emits (all_but OnSocket) (frame_onload l w h)).
  { intros. now apply emits_frame_onload. }
  destruct e; try congruence.
  - revert c Closed. intros c _. revert c.
    change (emits (all_but OnSocket) (handle (Resize innerWidth innerHeight))).
    unfold handle, setupCanvas. emits_method.
  - apply (emits_draw (all_but OnSocket) eq_refl eq_refl c).
  - revert c Closed. intros c _. revert c.
    change (emits (all_but OnSocket) (handle (FrameLoaded img width height))).
    unfold handle. emits_method.
  - destruct data as [message|]; [|constructor].
    apply (emits_handleServerMessage (all_but OnSocket)); reflexivity.
  - repeat constructor.
  - repeat constructor.
  - unfold handle, onkey, bind, this, lift, put, modify.
    destruct (String.eqb code "__proto__"); [constructor|].
    cbv beta iota zeta. unfold handleMovement, bind, this.
    cbn [socket with_keysPressed].
    destruct (socket c) as [[| | |]|]; try constructor. now elim Closed.
  - unfold handle, onkey, bind, this, lift, put, modify.
    destruct (String.eqb code "__proto__"); [constructor|].
    cbv beta iota zeta. unfold handleMovement, bind, this.
    cbn [socket with_keysPressed].
    destruct (socket c) as [[| | |]|]; try constructor. now elim Closed.
Qed.

(** X13: while the socket is not open the client is silent: from a client
    whose socket is absent, connecting, closing or closed, a sequence of
    callbacks without [onopen] sends nothing, whatever keys are pressed
    and whatever arrives. *)
Theorem silent_until_the_socket_opens es : forall c,
  socket c <> Some OPEN ->
  ~ In SocketOpen es ->
  sent (snd (run es c)) = [] /\ socket (fst (run es c)) <> Some OPEN.
Proof.
  induction es as [|e es IH]; intros c Closed NoOpen; simpl.
  - auto.
  - assert (e <> SocketOpen) as NO by (intros ->; apply NoOpen; now left).
    pose proof (silent_while_not_open e c NO Closed) as Quiet.
    assert (socket (snd (fst (handle e c))) <> Some OPEN) as Closed'.
    { destruct (event_eq_close e) as [->|NC]; [simpl; discriminate|].
      now rewrite socket_state_kept. }
    destruct (handle e c) as [[r c1] t1]. simpl in *.
    destruct (IH c1 Closed') as [Sent Still]; [tauto|].
    destruct (run es c1) as [c2 t2]. simpl in *.
    split; [|exact Still].
    unfold sent in *. rewrite flat_map_app.
    fold (sent t1). now rewrite (not_on_socket_sent _ Quiet), Sent.
Qed.

Lemma silent_until_the_socket_opens_witness :
  sent (snd (run [KeyDown "ArrowUp"; SocketClose; KeyUp "ArrowUp";
                  SocketMessage (Some Scenario.ping); Resize 640 480]
               Scenario.fresh)) = [].
Proof.
  apply (silent_until_the_socket_opens
           [KeyDown "ArrowUp"; SocketClose; KeyUp "ArrowUp";
            SocketMessage (Some Scenario.ping); Resize 640 480]
           Scenario.fresh).
  - discriminate.
  - simpl. intuition discriminate.
Defined.

(** ** What [drawAvatar] skips, and where it paints *)

(** [drawAvatar] once the player has passed or failed the test. *)
Lemma drawAvatar_culled p px py c :
  get p "x" = Ok px -> get p "y" = Ok py ->
  isVisible px py c = (Ok false, c, []) ->
  drawAvatar p c = (Ok tt, c, []).
Proof.
  intros Hx Hy Vis. unfold drawAvatar.
  unfold bind at 1. unfold lift at 1. rewrite Hx.
  unfold bind at 1. unfold lift at 1. rewrite Hy.
  unfold bind at 1. rewrite Vis. reflexivity.
Qed.

Lemma isVisible_runs nx ny c :
  exists b, isVisible (VNum nx) (VNum ny) c = (Ok b, c, []).
Proof.
  unfold isVisible, worldToScreen, bind, lift, this, ret, to_number.
  eexists. reflexivity.
Qed.

Lemma worldToScreen_runs nx ny c :
  worldToScreen (VNum nx) (VNum ny) c
  = (Ok (Num.sub nx (cameraX c), Num.sub ny (cameraY c)), c, []).
Proof. reflexivity. Qed.

(** X14: a player that reaches the client without a usable position (no
    [x] or no [y], or one that is not a number) is never painted, and
    does not stop the painting of the others: [drawAvatar] returns
    normally, with no effect. *)
Theorem player_without_position_is_skipped c p vx vy nx ny :
  get p "x" = Ok vx -> get p "y" = Ok vy ->
  to_number vx = Ok nx -> to_number vy = Ok ny ->
  nx = NaN \/ ny = NaN ->
  drawAvatar p c = (Ok tt, c, []).
Proof.
  intros Hx Hy Hnx Hny Nan.
  apply (drawAvatar_culled p vx vy c Hx Hy).
  unfold isVisible, worldToScreen, bind, lift, this, ret.
  rewrite Hnx, Hny. cbv beta iota zeta. cbn [fst snd].
  assert (forall a b, Num.ge (Num.sub NaN a) b = false) as E.
  { intros a b. unfold Num.ge, Num.sub, Num.add, Num.le. now destruct b. }
  destruct Nan as [-> | ->]; rewrite E.
  - reflexivity.
  - now rewrite andb_false_r.
Qed.

Lemma player_without_position_is_skipped_witness :
  drawAvatar (VObj [("id", VStr "p8"); ("avatar", VStr "hero");
                    ("y", Scenario.n 10)]) Scenario.loaded
  = (Ok tt, Scenario.loaded, []).
Proof.
  apply (player_without_position_is_skipped Scenario.loaded
           (VObj [("id", VStr "p8"); ("avatar", VStr "hero");
                  ("y", Scenario.n 10)])
           VUndefined (Scenario.n 10) NaN (Fin 10));
    try reflexivity.
  now left.
Defined.

(** X15: when lines 258 to 275 find no picture for a player (its avatar
    is unknown, the pictures of the avatar were never requested, its
    direction has no frames, or the frame has not arrived yet), the
    player is skipped: [drawAvatar] returns normally and paints nothing,
    not even the name. *)
Theorem unready_sprite_is_skipped c p nx ny :
  get p "x" = Ok (VNum nx) -> get p "y" = Ok (VNum ny) ->
  resolveFrame p c = (Ok None, c, []) ->
  drawAvatar p c = (Ok tt, c, []).
Proof.
  intros Hx Hy Res.
  destruct (isVisible_runs nx ny c) as [b Vis].
  destruct b; [|now apply (drawAvatar_culled p (VNum nx) (VNum ny))].
  unfold drawAvatar.
  unfold bind at 1. unfold lift at 1. rewrite Hx.
  unfold bind at 1. unfold lift at 1. rewrite Hy.
  unfold bind at 1. rewrite Vis. cbn [negb].
  unfold bind at 1. rewrite worldToScreen_runs.
  unfold bind at 1. rewrite Res. reflexivity.
Qed.

Lemma unready_sprite_is_skipped_witness :
  drawAvatar (Scenario.player "p1" 100 100 "north") Scenario.loaded
  = (Ok tt, Scenario.loaded, []) /\
  drawAvatar (VObj [("x", Scenario.n 100); ("y", Scenario.n 100);
                    ("avatar", VStr "ghost")]) Scenario.loaded
  = (Ok tt, Scenario.loaded, []).
Proof.
  split.
  - apply (unready_sprite_is_skipped Scenario.loaded
             (Scenario.player "p1" 100 100 "north") (Fin 100) (Fin 100));
      reflexivity.
  - apply (unready_sprite_is_skipped Scenario.loaded
             (VObj [("x", Scenario.n 100); ("y", Scenario.n 100);
                    ("avatar", VStr "ghost")]) (Fin 100) (Fin 100));
      reflexivity.
Defined.

(** ** Pictures arriving *)

Lemma nth_store_same {A} i (x : A) a : nth i (store i x a) None = Some x.
Proof.
  revert a. induction i as [|i IH]; intros [|y r]; simpl; auto.
Qed.

Lemma nth_store_other {A} i j (x : A) a :
  j <> i -> nth j (store i x a) None = nth j a None.
Proof.
  assert (forall j, nth j (@nil (option A)) None = None) as Nil
    by (now intros [|j']).
  revert j a. induction i as [|i IH]; intros [|j] [|y r] N;
    try congruence; cbn [store nth];
    rewrite ?IH, ?Nil by congruence;
    first [reflexivity | now destruct j].
Qed.

Lemma length_store {A} i (x : A) a :
  length (store i x a) = Nat.max (S i) (length a).
Proof.
  revert a. induction i as [|i IH]; intros [|y r]; simpl; auto;
    now rewrite IH.
Qed.

(** The client after [img.onload]: the store, the camera and the loads
    are those before, the picture is in its frames. *)
Lemma frame_onload_client c l width height dirs fs :
  lookup (ld_key l) (avatarImages c) = Some dirs ->
  lookup (ld_direction l) dirs = Some fs ->
  ld_key l <> "__proto__" -> ld_direction l <> "__proto__" ->
  snd (fst (frame_onload l width height c))
  = with_avatarImages
      (update (ld_key l)
         (update (ld_direction l)
            (store (ld_index l)
               (mkImage (ld_img l) (ld_src l) width height) fs) dirs)
         (avatarImages c)) c.
Proof.
  intros Hk Hd Nk Nd. apply String.eqb_neq in Nk, Nd.
  unfold frame_onload.
  unfold bind at 1. unfold this at 1.
  unfold bind at 1. unfold lift at 1. unfold own at 1. rewrite Hk.
  unfold bind at 1. unfold lift at 1. unfold own at 1. rewrite Hd.
  cbv beta iota zeta.
  pose proof (same_refl (fun c : client => c)) as Rr.
  pose proof (same_trans (fun c : client => c)) as Rt.
  pose proof (stable_draw _ Rr Rt) as Draw.
  unfold bind at 1.
  assert (forall fs',
            set_frames (ld_key l) (ld_direction l) fs' c
            = (Ok tt,
               with_avatarImages
                 (update (ld_key l) (update (ld_direction l) fs' dirs)
                    (avatarImages c)) c, [])) as ->.
  { intros fs'. unfold set_frames, bind, this, lift, own, put, modify.
    now rewrite Hk, Nd, Nk. }
  match goal with
  | |- context [draw ?c1] =>
      specialize (Draw c1); destruct (draw c1) as [[r c2] t2]
  end.
  exact Draw.
Qed.

(** X16: when the picture of a load arrives, it is put at the index of
    the load in the frames of its avatar and direction, whatever has
    arrived before (an index past the end extends the array with holes);
    the frames at the other indices, and the other directions and
    avatars, stay as they are. *)
Theorem arriving_picture_takes_its_place c l width height dirs fs :
  lookup (ld_key l) (avatarImages c) = Some dirs ->
  lookup (ld_direction l) dirs = Some fs ->
  ld_key l <> "__proto__" -> ld_direction l <> "__proto__" ->
  let c' := snd (fst (frame_onload l width height c)) in
  let img := mkImage (ld_img l) (ld_src l) width height in
  let fs' := store (ld_index l) img fs in
  avatarImages c'
  = update (ld_key l) (update (ld_direction l) fs' dirs) (avatarImages c) /\
  nth (ld_index l) fs' None = Some img /\
  (forall j, j <> ld_index l -> nth j fs' None = nth j fs None) /\
  length fs' = Nat.max (S (ld_index l)) (length fs).
Proof.
  intros Hk Hd Nk Nd c' img fs'.
  split; [|split; [apply nth_store_same|
                   split; [intros j N; now apply nth_store_other
                          | apply length_store]]].
  unfold c'. now rewrite (frame_onload_client c l width height dirs fs).
Qed.

Lemma arriving_picture_takes_its_place_witness :
  let l := mkLoad "hero" "north" 1 2 (VStr "n1.png") in
  let c' := snd (fst (frame_onload l (Num.of_Z 32) (Num.of_Z 64)
                        Scenario.loaded)) in
  avatarImages c'
  = update "hero"
      (update "north"
         [None; Some (mkImage 2 (VStr "n1.png") (Num.of_Z 32) (Num.of_Z 64))]
         [("north", []); ("south", [Some Scenario.south0]);
          ("east", [Some Scenario.east0])])
      (avatarImages Scenario.loaded).
Proof.
  intros l c'.
  apply (arriving_picture_takes_its_place Scenario.loaded l
           (Num.of_Z 32) (Num.of_Z 64)
           [("north", []); ("south", [Some Scenario.south0]);
            ("east", [Some Scenario.east0])] []);
    try reflexivity; discriminate.
Defined.

(** X17: once the picture of a load has arrived, the next painting finds
    it, with no further message of the server: for a player of that
    avatar whose direction and frame index are those of the load, lines
    258 to 275 resolve to the picture that arrived, mirrored if the
    player faces west. *)
Theorem arrived_picture_is_resolved
    c l width height dirs fs p key avatar facing af ik :
  lookup (ld_key l) (avatarImages c) = Some dirs ->
  lookup (ld_direction l) dirs = Some fs ->
  ld_key l <> "__proto__" -> ld_direction l <> "__proto__" ->
  get p "avatar" = Ok key ->
  to_key key = Ok (ld_key l) ->
  get (avatars c) (ld_key l) = Ok avatar ->
  truthy avatar = true ->
  get p "facing" = Ok facing ->
  to_key (if is_string facing "west" then VStr "east" else facing)
  = Ok (ld_direction l) ->
  get p "animationFrame" = Ok af ->
  to_key (if truthy af then af else VNum Num.zero) = Ok ik ->
  array_index ik = Some (N.of_nat (ld_index l)) ->
  let c' := snd (fst (frame_onload l width height c)) in
  resolveFrame p c'
  = (Ok (Some (mkImage (ld_img l) (ld_src l) width height,
               is_string facing "west")), c', []).
Proof.
  intros Hk Hd Nk Nd Hkey Hkk Hav Hat Hf Hdk Hn Hik Hidx c'.
  unfold c'. rewrite (frame_onload_client c l width height dirs fs) by auto.
  unfold resolveFrame, bind, lift, this, ret, own.
  rewrite Hkey, Hkk. cbv beta iota zeta.
  change (avatars (with_avatarImages _ c)) with (avatars c).
  rewrite Hav, Hat. cbn [negb]. cbv beta iota zeta.
  cbn [avatarImages with_avatarImages].
  rewrite lookup_update_same, Hf, Hn. cbv beta iota zeta.
  rewrite Hdk, lookup_update_same, Hik.
  unfold frame_at. rewrite Hidx, length_store.
  assert ((N.of_nat (ld_index l)
           <? N.of_nat (Nat.max (S (ld_index l)) (length fs)))%N = true)
    as -> by (apply N.ltb_lt; lia).
  rewrite Nnat.Nat2N.id, nth_store_same. reflexivity.
Qed.

Lemma arrived_picture_is_resolved_witness :
  let l := mkLoad "hero" "north" 1 2 (VStr "n1.png") in
  let c' := snd (fst (frame_onload l (Num.of_Z 32) (Num.of_Z 64)
                        Scenario.loaded)) in
  resolveFrame
    (VObj [("x", Scenario.n 100); ("y", Scenario.n 100);
           ("facing", VStr "north"); ("animationFrame", Scenario.n 1);
           ("avatar", VStr "hero")]) c'
  = (Ok (Some (mkImage 2 (VStr "n1.png") (Num.of_Z 32) (Num.of_Z 64),
               false)), c', []).
Proof.
  intros l c'.
  apply (arrived_picture_is_resolved Scenario.loaded l
           (Num.of_Z 32) (Num.of_Z 64)
           [("north", []); ("south", [Some Scenario.south0]);
            ("east", [Some Scenario.east0])] []
           (VObj [("x", Scenario.n 100); ("y", Scenario.n 100);
                  ("facing", VStr "north"); ("animationFrame", Scenario.n 1);
                  ("avatar", VStr "hero")])
           (VStr "hero") Scenario.hero (VStr "north") (Scenario.n 1) "1");
    try reflexivity; discriminate.
Defined.

(** ** Where a sprite is painted *)

(** The calls of [drawAvatar] on the canvas for a player in view whose
    picture is resolved. *)
Lemma drawAvatar_paints p nx ny img (flip : bool) username text c :
  get p "x" = Ok (VNum nx) -> get p "y" = Ok (VNum ny) ->
  isVisible (VNum nx) (VNum ny) c = (Ok true, c, []) ->
  resolveFrame p c = (Ok (Some (img, flip)), c, []) ->
  get p "username" = Ok username ->
  to_key username = Ok text ->
  let sx := Num.sub nx (cameraX c) in
  let sy := Num.sub ny (cameraY c) in
  let size := avatarSize c in
  let height :=
    Num.div size (Num.div (img_width img) (img_height img)) in
  let x := Num.sub sx (Num.div size (Num.of_Z 2)) in
  let y := Num.sub sy height in
  drawAvatar p c
  = (Ok tt, c,
     Save
     :: (if flip
         then [Scale (Num.of_Z (-1)) (Num.of_Z 1);
               DrawImage img (Num.sub (Num.neg x) size) y size height]
         else [DrawImage img x y size height])
     ++ [Restore; FillStyle "white"; StrokeStyle "black";
         LineWidth (Num.of_Z 2); Font "14px Arial"; TextAlign "center";
         StrokeText text sx (Num.sub y (Num.of_Z 5));
         FillText text sx (Num.sub y (Num.of_Z 5))])%list.
Proof.
  intros Hx Hy Vis Res Hn Ht. cbv zeta. unfold drawAvatar.
  unfold bind at 1. unfold lift at 1. rewrite Hx.
  unfold bind at 1. unfold lift at 1. rewrite Hy.
  unfold bind at 1. rewrite Vis. cbn [negb].
  unfold bind at 1. rewrite worldToScreen_runs.
  unfold bind at 1. rewrite Res.
  unfold bind, lift, this, emit. rewrite Hn, Ht.
  now destruct flip.
Qed.

Lemma div_Fin a b :
  ~ b == 0 -> exists q, Num.div (Fin a) (Fin b) = Fin q /\ q == a / b.
Proof.
  intros N. unfold Num.div.
  destruct (Qeq_bool b 0) eqn:E.
  - apply Qeq_bool_iff in E. contradiction.
  - exists (Qred (a / b)). split; [reflexivity | apply Qred_correct].
Qed.

(** X18: a sprite stands on its player.  For a player in view, a decoded
    picture of positive size, a camera with finite offset and a name that
    has a conversion to a string, where none of the results computed on
    the way is rounded: the picture is painted [avatarSize] wide with the
    proportions of the picture, centred horizontally on the position of
    the player on the screen and with its lower edge at that position;
    when mirrored it is painted, under [scale(-1, 1)], at the abscissa
    that gives the same rectangle; the name is written 5 pixels above the
    picture, centred. *)
Theorem sprite_stands_on_its_player
    p x y img (flip : bool) username text c cx cy s iw ih :
  get p "x" = Ok (VNum (Fin x)) -> get p "y" = Ok (VNum (Fin y)) ->
  isVisible (VNum (Fin x)) (VNum (Fin y)) c = (Ok true, c, []) ->
  resolveFrame p c = (Ok (Some (img, flip)), c, []) ->
  get p "username" = Ok username ->
  to_key username = Ok text ->
  cameraX c = Fin cx -> cameraY c = Fin cy ->
  avatarSize c = Fin s -> 0 < s ->
  img_width img = Fin iw -> img_height img = Fin ih ->
  0 < iw -> 0 < ih ->
  let height := s / (iw / ih) in
  unrounded [x - cx; y - cy; iw / ih; height; s / 2;
             x - cx - s / 2;
             (if flip then - (x - cx - s / 2) - s else 0);
             y - cy - height; y - cy - height - 5] ->
  exists sx sy dx dy dh ly,
    drawAvatar p c
    = (Ok tt, c,
       Save
       :: (if flip then [Scale (Num.of_Z (-1)) (Num.of_Z 1)] else [])
       ++ [DrawImage img (Fin dx) (Fin dy) (Fin s) (Fin dh);
           Restore; FillStyle "white"; StrokeStyle "black";
           LineWidth (Num.of_Z 2); Font "14px Arial"; TextAlign "center";
           StrokeText text (Fin sx) (Fin ly);
           FillText text (Fin sx) (Fin ly)])%list /\
    sx == x - cx /\ sy == y - cy /\
    dh * iw == s * ih /\
    (if flip then - dx - s / 2 else dx + s / 2) == sx /\
    dy + dh == sy /\
    ly == dy - 5.
Proof.
  intros Hx Hy Vis Res Hn Ht Hcx Hcy Hs Spos Hiw Hih Wpos Hpos height _.
  rewrite (drawAvatar_paints p (Fin x) (Fin y) img flip username text c
             Hx Hy Vis Res Hn Ht).
  rewrite Hcx, Hcy, Hs, Hiw, Hih.
  destruct (sub_Fin x cx) as (sx & Esx & Qsx).
  destruct (sub_Fin y cy) as (sy & Esy & Qsy).
  assert (~ ih == 0) as Nih by lra.
  destruct (div_Fin iw ih Nih) as (ar & Ear & Qar).
  assert (0 < ar) as Apos.
  { rewrite Qar. apply Qlt_shift_div_l; lra. }
  assert (~ ar == 0) as Nar by lra.
  destruct (div_Fin s ar Nar) as (dh & Edh & Qdh).
  destruct (half_Fin s) as (s2 & Es2 & Qs2).
  destruct (sub_Fin sx s2) as (dx & Edx & Qdx).
  destruct (sub_Fin sy dh) as (dy & Edy & Qdy).
  destruct (sub_Fin dy 5) as (ly & Ely & Qly).
  rewrite Esx, Esy, Ear, Edh, Es2, Edx, Edy.
  change (Num.of_Z 5) with (Fin 5). rewrite Ely.
  assert (dh * iw == s * ih) as Aspect.
  { rewrite Qdh, Qar. field. split; lra. }
  rewrite half_is_times_half in Qs2.
  destruct flip.
  - destruct (neg_Fin dx) as (mx & Emx & Qmx).
    destruct (sub_Fin mx s) as (fx & Efx & Qfx).
    rewrite Emx, Efx.
    exists sx, sy, fx, dy, dh, ly. cbn [app].
    split; [reflexivity|]. rewrite half_is_times_half.
    repeat split; try assumption; lra.
  - exists sx, sy, dx, dy, dh, ly. cbn [app].
    split; [reflexivity|]. rewrite half_is_times_half.
    repeat split; try assumption; lra.
Qed.

Lemma sprite_stands_on_its_player_witness :
  exists sx sy dx dy dh ly,
    drawAvatar (Scenario.player "p1" 100 100 "west") Scenario.loaded
    = (Ok tt, Scenario.loaded,
       [Save; Scale (Num.of_Z (-1)) (Num.of_Z 1);
        DrawImage Scenario.east0 (Fin dx) (Fin dy) (Fin 48) (Fin dh);
        Restore; FillStyle "white"; StrokeStyle "black";
        LineWidth (Num.of_Z 2); Font "14px Arial"; TextAlign "center";
        StrokeText "p1" (Fin sx) (Fin ly);
        FillText "p1" (Fin sx) (Fin ly)]) /\
    sx == 100 - 0 /\ sy == 100 - 0 /\ dh * 32 == 48 * 64 /\
    - dx - 48 / 2 == sx /\ dy + dh == sy /\ ly == dy - 5.
Proof.
  apply (sprite_stands_on_its_player
           (Scenario.player "p1" 100 100 "west") 100 100
           Scenario.east0 true (VStr "p1") "p1" Scenario.loaded 0 0 48 32 64);
    reflexivity.
Defined.

(** ** Repainting *)

(** With the picture of the world made, [draw] clears the canvas, paints
    the part of the world under the camera, then the players. *)
Lemma draw_begins c world :
  worldImage c = Some world ->
  exists r t,
    draw c
    = (r, c,
       ClearRect Num.zero Num.zero (canvas_width c) (canvas_height c)
       :: DrawWorld world (cameraX c) (cameraY c)
            (canvas_width c) (canvas_height c)
            Num.zero Num.zero (canvas_width c) (canvas_height c)
       :: t) /\
    Forall (fun e => kind e = OnCanvas) t.
Proof.
  intros Hw.
  set (rest := all <- lift (Object_values (players c)) ;;
               forEach (fun player (_ : nat) => drawAvatar player) all).
  assert (stable (same (fun c : client => c)) rest) as Same.
  { pose proof (same_refl (fun c : client => c)).
    pose proof (same_trans (fun c : client => c)).
    pose proof (stable_drawAvatar _ (same_refl (fun c : client => c))
                  (same_trans (fun c : client => c))).
    unfold rest. stable_method. }
  assert (emits (fun k => match k with OnCanvas => true | _ => false end)
            rest) as Avatars.
  { pose proof (emits_drawAvatar
                  (fun k => match k with OnCanvas => true | _ => false end)
                  eq_refl).
    unfold rest. emits_method. }
  specialize (Same c). specialize (Avatars c). unfold same in Same.
  unfold draw, bind at 1 2 3 4 5 6 7 8, this, emit.
  rewrite Hw. cbv beta iota zeta. fold rest.
  destruct (rest c) as [[r c2] t2].
  cbn [fst snd app] in *. subst c2.
  exists r, t2. split; [reflexivity|].
  eapply Forall_impl; [|exact Avatars].
  intros e. cbv beta.
  destruct (kind e); intros H; first [discriminate H | reflexivity].
Qed.

(** X19: a resize gives the canvas the inner size of the window less the
    40 pixels of the status bar, clamps the camera again, against the new
    size, around the local player, and repaints: the canvas is cleared
    and the world painted under the new camera. *)
Theorem resize_reframes_and_repaints
    c innerWidth innerHeight k p x y ww wh world :
  truthy (myPlayerId c) = true ->
  to_key (myPlayerId c) = Ok k ->
  get (players c) k = Ok p ->
  truthy p = true ->
  get p "x" = Ok (VNum (Fin x)) ->
  get p "y" = Ok (VNum (Fin y)) ->
  worldWidth c = Fin ww -> worldHeight c = Fin wh ->
  worldImage c = Some world ->
  let w := inject_Z innerWidth in
  let h := inject_Z (innerHeight - 40) in
  exists r c' ox oy t,
    handle (Resize innerWidth innerHeight) c
    = (r, c',
       ClearRect Num.zero Num.zero (Fin w) (Fin h)
       :: DrawWorld world (Fin ox) (Fin oy) (Fin w) (Fin h)
            Num.zero Num.zero (Fin w) (Fin h)
       :: t) /\
    canvas_width c' = Fin w /\ canvas_height c' = Fin h /\
    cameraX c' = Fin ox /\ cameraY c' = Fin oy /\
    ox == Qmax 0 (Qmin (x - w / 2) (ww - w)) /\
    oy == Qmax 0 (Qmin (y - h / 2) (wh - h)) /\
    world_store c' = world_store c.
Proof.
  intros Ht Hk Hp Hpt Hx Hy Hww Hwh Hworld w h.
  set (c1 := with_canvas (Fin w) (Fin h) c).
  destruct (updateCamera_finite c1 k p x y w h ww wh
              Ht Hk Hp Hpt Hx Hy eq_refl eq_refl Hww Hwh)
    as (ox & oy & vx & vy & Run & Qox & Qoy).
  set (c2 := with_cameraY (Fin oy) _) in Run.
  destruct (draw_begins c2 world Hworld) as (r & t & Draw & _).
  exists r, c2, ox, oy, t. split.
  - unfold handle, setupCanvas.
    unfold bind at 1. unfold modify at 1. cbv beta iota zeta.
    change (with_canvas (Num.of_Z innerWidth) (Num.of_Z (innerHeight - 40)) c)
      with c1.
    unfold bind at 1. rewrite Run.
    cbv beta iota zeta. rewrite Draw. reflexivity.
  - repeat split; try reflexivity.
    + now rewrite Qox, half_is_times_half.
    + now rewrite Qoy, half_is_times_half.
Qed.

Lemma resize_reframes_and_repaints_witness :
  exists r c' ox oy t,
    handle (Resize 1000 540) (Scenario.at_position 1900 1900)
    = (r, c',
       ClearRect Num.zero Num.zero (Fin (inject_Z 1000))
         (Fin (inject_Z (540 - 40)))
       :: DrawWorld 0 (Fin ox) (Fin oy) (Fin (inject_Z 1000))
            (Fin (inject_Z (540 - 40))) Num.zero Num.zero
            (Fin (inject_Z 1000)) (Fin (inject_Z (540 - 40)))
       :: t) /\
    ox == 1000 /\ oy == 1500.
Proof.
  destruct (resize_reframes_and_repaints (Scenario.at_position 1900 1900)
              1000 540 "p1" (Scenario.player "p1" 1900 1900 "south")
              1900 1900 2000 2000 0
              eq_refl eq_refl eq_refl eq_refl eq_refl eq_refl eq_refl
              eq_refl eq_refl)
    as (r & c' & ox & oy & t & Run & _ & _ & _ & _ & Qx & Qy & _).
  exists r, c', ox, oy, t. split; [exact Run|].
  split; [rewrite Qx | rewrite Qy]; reflexivity.
Defined.

(** ** What is sent *)

Lemma sent_app t1 t2 : sent (t1 ++ t2) = (sent t1 ++ sent t2)%list.
Proof. apply flat_map_app. Qed.

Lemma callback_sends_protocol_messages e c :
  Forall outbound (sent (snd (handle e c))).
Proof.
  assert (forall m : M unit, emits (all_but OnSocket) m ->
            forall c, Forall outbound (sent (snd (m c)))) as Quiet.
  { intros m H c0. rewrite (not_on_socket_sent _ (H c0)). constructor. }
  pose proof (emits_updateCamera (all_but OnSocket)).
  pose proof (emits_draw (all_but OnSocket) eq_refl eq_refl).
  assert (forall l w h, emits (all_but OnSocket) (frame_onload l w h)).
  { intros. now apply emits_frame_onload. }
  assert (forall m, emits (all_but OnSocket) (handleServerMessage m)).
  { intros. now apply emits_handleServerMessage. }
  assert (forall code down, Forall outbound (sent (snd (onkey code down c))))
    as Keys.
  { intros code down.
    unfold onkey, bind, this, lift, put, modify.
    destruct (String.eqb code "__proto__"); [constructor|].
    cbv beta iota zeta.
    set (keys := update code down (keysPressed c)).
    unfold handleMovement, socket_send, bind, this, emit.
    change (socket (with_keysPressed keys c)) with (socket c).
    destruct (socket c) as [[| | |]|] eqn:S; cbv beta iota zeta;
      try (cbn [snd app]; constructor).
    change (socket (with_keysPressed keys c)) with (socket c).
    change (keysPressed (with_keysPressed keys c)) with keys.
    destruct (held keys "ArrowUp"), (held keys "ArrowDown"),
      (held keys "ArrowLeft"), (held keys "ArrowRight");
      cbv beta iota zeta;
      change (socket (with_keysPressed keys c)) with (socket c);
      rewrite S; cbn [app snd]; unfold sent; cbn [flat_map app];
      (constructor; [|constructor]); unfold outbound;
      first [ now (right; left)
            | right; right; eexists; split; [|reflexivity];
              cbn [In]; tauto ]. }
  assert (handle SocketOpen c
          = (Ok tt, with_socket (Some OPEN) c,
             [ConsoleLog "Connected to game server";
              SetText "connectionStatus" (TStr "connected");
              SetClass "connectionStatus" "connected";
              Send (VObj [("action", VStr "join_game");
                          ("username", VStr "May")])])) as Open
    by reflexivity.
  destruct e.
  - apply Quiet. unfold handle, setupCanvas. emits_method.
  - now apply Quiet.
  - apply Quiet. unfold handle. emits_method.
  - rewrite Open. unfold sent. cbn [snd flat_map app].
    constructor; [now left | constructor].
  - apply Quiet. unfold handle, onmessage. emits_method.
  - unfold sent. cbn. constructor.
  - unfold sent. cbn. constructor.
  - apply Keys.
  - apply Keys.
Qed.

(** X20: whatever happens in a session, the client sends nothing but the
    three messages of the protocol: the join request (with the user name
    May), a move in one of the four directions, or a stop. *)
Theorem only_protocol_messages_are_sent es : forall c,
  Forall outbound (sent (snd (run es c))).
Proof.
  induction es as [|e es IH]; intros c; simpl; [constructor|].
  pose proof (callback_sends_protocol_messages e c) as H.
  destruct (handle e c) as [[r c1] t1].
  specialize (IH c1). destruct (run es c1) as [c2 t2]. simpl in *.
  rewrite sent_app. apply Forall_app. auto.
Qed.

(** ** An avatar announced again *)

(** X21: when a [player_joined] message brings an avatar whose name
    already has its entry in [this.avatarImages], the definition stored
    in [this.avatars] is replaced by the new one, but no picture is
    requested: the pictures, the loads and the count of images are those
    before, so the player is painted with the pictures of the first
    definition. *)
Theorem announced_again_avatar_is_not_reloaded
    c message player id k o avatar name ka oa :
  get message "action" = Ok (VStr "player_joined") ->
  get message "player" = Ok player ->
  get player "id" = Ok id -> to_key id = Ok k -> k <> "__proto__" ->
  players c = VObj o ->
  get message "avatar" = Ok avatar ->
  get avatar "name" = Ok name -> to_key name = Ok ka -> ka <> "__proto__" ->
  avatars c = VObj oa ->
  loading ka c ->
  let '(r, c', t) := handleServerMessage message c in
  get (avatars c') ka = Ok avatar /\
  avatarImages c' = avatarImages c /\
  onloads c' = onloads c /\
  images_made c' = images_made c /\
  Forall (fun e => kind e <> OnImage) t.
Proof.
  intros Ha Hpl Hid Hk Nk Hp Hav Hname Hka Nka Havs L.
  apply String.eqb_neq in Nk, Nka.
  set (field := fun c : client =>
                  (avatars c, avatarImages c, onloads c, images_made c)).
  set (c1 := with_avatars (VObj (update ka avatar oa))
               (with_players (VObj (update k player o)) c)).
  assert (stable (same field) (updateUI ;; draw)) as Kept.
  { pose proof (same_refl field). pose proof (same_trans field).
    pose proof (stable_updateUI _ (same_refl field) (same_trans field)).
    pose proof (stable_draw _ (same_refl field) (same_trans field)).
    stable_method. }
  assert (emits (all_but OnImage) (updateUI ;; draw)) as Quiet.
  { pose proof (emits_updateUI (all_but OnImage) eq_refl).
    pose proof (emits_draw (all_but OnImage) eq_refl eq_refl).
    emits_method. }
  assert (handleServerMessage message c
          = let '(r, c2, t2) := (updateUI ;; draw) c1 in (r, c2, t2)) as ->.
  { unfold handleServerMessage.
    unfold bind at 1. unfold lift at 1. rewrite Ha. simpl.
    unfold bind at 1. unfold this at 1.
    unfold bind at 1. unfold lift at 1. rewrite Hpl.
    unfold bind at 1. unfold lift at 1. rewrite Hid.
    unfold bind at 1. unfold lift at 1. rewrite Hk.
    unfold bind at 1. unfold lift at 1. rewrite Hp.
    unfold set at 1. unfold put. rewrite Nk.
    unfold bind at 1. unfold modify at 1.
    unfold bind at 1. unfold this at 1.
    unfold bind at 1. unfold lift at 1. rewrite Hav.
    unfold bind at 1. unfold lift at 1. rewrite Hname.
    unfold bind at 1. unfold lift at 1. rewrite Hka.
    unfold bind at 1. unfold lift at 1.
    change (avatars (with_players (VObj (update k player o)) c))
      with (avatars c).
    rewrite Havs. unfold set, put. rewrite Nka.
    unfold bind at 1. unfold modify at 1.
    unfold bind at 1. fold c1.
    rewrite (loadAvatarImage_again avatar name ka c1 Hname Hka L).
    cbv beta iota zeta.
    now destruct ((updateUI ;; draw) c1) as [[r c2] t2]. }
  specialize (Kept c1). specialize (Quiet c1).
  destruct ((updateUI ;; draw) c1) as [[r c2] t2].
  cbn [fst snd] in *. unfold same, field in Kept.
  inversion Kept as [[A B C D]].
  repeat split; auto.
  - rewrite A. change (avatars c1) with (VObj (update ka avatar oa)).
    unfold get, own. now rewrite lookup_update_same.
  - eapply Forall_impl; [|exact Quiet]. intros e. apply all_but_spec.
Qed.

Lemma announced_again_avatar_is_not_reloaded_witness :
  let other :=
    VObj [("name", VStr "hero");
          ("frames", VObj [("north", VArr [VStr "other.png"]);
                           ("south", VArr []); ("east", VArr [])])] in
  let message :=
    VObj [("action", VStr "player_joined");
          ("player", Scenario.player "p5" 10 10 "north");
          ("avatar", other)] in
  let '(r, c', t) := handleServerMessage message Scenario.loaded in
  get (avatars c') "hero" = Ok other /\
  avatarImages c' = avatarImages Scenario.loaded /\
  onloads c' = onloads Scenario.loaded /\
  images_made c' = images_made Scenario.loaded /\
  Forall (fun e => kind e <> OnImage) t.
Proof.
  intros other message.
  apply (announced_again_avatar_is_not_reloaded Scenario.loaded message
           (Scenario.player "p5" 10 10 "north") (VStr "p5") "p5"
           [("p1", Scenario.player "p1" 100 100 "south");
            ("p2", Scenario.p2_before)]
           other (VStr "hero") "hero" [("hero", Scenario.hero)]);
    try (vm_compute; reflexivity); vm_compute; discriminate.
Defined.

(** ** The player count in the page *)

Lemma off_document_no_count t n :
  Forall (fun e => all_but OnDocument (kind e) = true) t ->
  ~ In (SetText "playerCount" (TCount n)) t.
Proof.
  intros H I. rewrite Forall_forall in H. now specialize (H _ I).
Qed.

Lemma counts_after_quiet {A B} (m : M A) (f : A -> M B) :
  emits (all_but OnDocument) m -> (forall a, counts_players (f a)) ->
  counts_players (bind m f).
Proof.
  intros Hm Hf c n. unfold bind. specialize (Hm c).
  destruct (m c) as [[[a|e|] c1] t1]; cbn [fst snd] in *;
    try (intros I; now destruct (off_document_no_count _ n Hm)).
  specialize (Hf a c1 n). destruct (f a c1) as [[r c2] t2]; cbn [fst snd] in *.
  intros I. apply in_app_or in I as [I|I]; [|auto].
  now destruct (off_document_no_count _ n Hm).
Qed.

Lemma counts_quiet {A} (m : M A) :
  emits (all_but OnDocument) m -> counts_players m.
Proof. intros H c n I. now destruct (off_document_no_count _ n (H c)). Qed.

(** [localPlayer] only reads. *)
Lemma localPlayer_reads c : exists r, localPlayer c = (r, c, []).
Proof.
  pose proof (stable_localPlayer _ (same_refl (fun c => c))
                (same_trans (fun c => c)) c) as S.
  pose proof (emits_localPlayer (fun _ => false) c) as E.
  destruct (localPlayer c) as [[r c1] t]. cbn [fst snd] in *.
  unfold same in S. subst c1. exists r. f_equal.
  destruct t as [|e t]; [reflexivity|]. inversion E. discriminate.
Qed.

(** The count [updateUI] writes is the number of keys of [this.players]. *)
Lemma updateUI_count c :
  exists r t,
    updateUI c = (r, c, t) /\
    forall n, In (SetText "playerCount" (TCount n)) t ->
              exists keys,
                Object_keys (players c) = Ok keys /\ n = length keys.
Proof.
  cbv [updateUI bind this emit lift].
  destruct (localPlayer_reads c) as [r ->].
  repeat match goal with
         | |- context [match ?x with _ => _ end] =>
             lazymatch x with
             | context [match _ with _ => _ end] => fail
             | _ => destruct x
             end
         end;
    do 2 eexists; (split; [reflexivity|]); cbn [In app]; intros n I;
    repeat destruct I as [I|I]; try discriminate I; try contradiction;
    inversion I; eauto.
Qed.

Lemma counts_updateUI_then {A} (rest : M A) :
  stable (same players) rest -> emits (all_but OnDocument) rest ->
  counts_players (updateUI ;; rest).
Proof.
  intros Kept Quiet c n. unfold bind.
  destruct (updateUI_count c) as (r & t & -> & Shown).
  specialize (Kept c). specialize (Quiet c). unfold same in Kept.
  destruct r as [[]|e|]; cbn [fst snd]; auto.
  destruct (rest c) as [[r c2] t2]. cbn [fst snd] in *. rewrite Kept.
  intros I. apply in_app_or in I as [I|I]; [auto|].
  now destruct (off_document_no_count _ n Quiet).
Qed.

Ltac counts_step :=
  match goal with
  | |- counts_players (bind updateUI _) =>
      apply counts_updateUI_then; [assumption | assumption]
  | |- counts_players (bind _ _) =>
      apply counts_after_quiet; [solve [auto with emits] | intros ? ]
  | |- counts_players (if ?b then _ else _) => destruct b
  | |- counts_players _ => apply counts_quiet; solve [emits_method]
  end.

(** X23: the player count is never stale.  Whenever the handling of a
    message of the server writes a player count in the page, that count
    is the number of players held in [this.players] once the handler has
    ended, normally or not: [updateUI] runs after the store is written,
    and nothing after it touches the players. *)
Theorem player_count_shown_is_current message c n :
  In (SetText "playerCount" (TCount n))
     (snd (handleServerMessage message c)) ->
  exists keys,
    Object_keys (players (snd (fst (handleServerMessage message c))))
    = Ok keys /\
    n = length keys.
Proof.
  revert c n. change (counts_players (handleServerMessage message)).
  pose proof (emits_loadAvatarImage (all_but OnDocument) eq_refl).
  pose proof (emits_loadAvatarImages (all_but OnDocument) eq_refl).
  pose proof (emits_updateCamera (all_but OnDocument)).
  pose proof (emits_draw (all_but OnDocument) eq_refl eq_refl).
  pose proof (stable_draw _ (same_refl players) (same_trans players)).
  unfold handleServerMessage. repeat counts_step.
Qed.

Lemma player_count_shown_is_current_witness :
  exists keys,
    Object_keys (players (snd (fst (handleServerMessage Scenario.p2_moved
                                      Scenario.with_p2))))
    = Ok keys /\
    2%nat = length keys.
Proof.
  apply (player_count_shown_is_current Scenario.p2_moved Scenario.with_p2 2).
  vm_compute. auto.
Defined.
